(** * Connect-Dev: the video-call escrow ledger and its off-chain drivers

    A shallow embedding of
    - [src/contracts/VideoCallEscrow.sol]  (module [Ledger]),
    - the confirmation loop of [completeCall] in
      [src/services/web3Service.ts]       (module [Orchestrator]),
    - the session timer and the end routine of
      [src/pages/VideoCall.tsx]           (module [Coordinator]),
    - the string helpers of the contract   (module [LedgerText]),
    - the conversions of amounts between CELO and wei in the service
                                          (module [Amounts]),
    - the selectors of the contract's errors, which the service decodes
                                          (module [Selectors]),
    followed by the properties of the specification that were checked
    against them. *)

From Stdlib Require Import ZArith NArith List Bool Lia String.
From stdpp Require Import base gmap.

Set Default Proof Using "Type".
Local Open Scope N_scope.

(** ** The escrow ledger (VideoCallEscrow.sol) *)

Module Ledger.

(** Solidity's [address], [bytes32] and [uint256] are unsigned words.  The
    contract compares them and copies them; the only arithmetic on them is
    in the string helpers of the [Debug] event, so they are kept as [N]. *)
Abbreviation address := N (only parsing).
Abbreviation bytes32 := N (only parsing).
Abbreviation uint256 := N (only parsing).

Record Call := mkCall {
  client : address;
  developer : address;
  amount : uint256;
  duration : uint256;
  startTime : uint256;
  isActive : bool;
  isCompleted : bool;
  isPaid : bool
}.

(** The value an unwritten slot of [mapping(bytes32 => Call)] reads as. *)
Definition zeroCall : Call := mkCall 0 0 0 0 0 false false false.

(** The text carried by a [Debug] event.  The fourth text is assembled by
    [abi.encodePacked] from [toHexString(call.client)],
    [toHexString(call.developer)] and [toString(amount)]; it is kept as the
    three values it prints. *)
Inductive DebugMessage :=
  | CreatingCall
  | StartingCall
  | CompletingCall
  | CallStatus (cl dev : address) (amt : uint256).

Inductive Event :=
  | CallCreated (callId : bytes32) (cl dev : address)
                (amt dur timestamp : uint256)
  | CallStarted (callId : bytes32) (start : uint256)
  | CallCompleted (callId : bytes32) (endTime : uint256)
  | PaymentReleased (callId : bytes32) (dev : address) (amt : uint256)
  | Debug (message : DebugMessage) (callId : bytes32).

Inductive Error :=
  | InvalidAmount (amt : uint256)
  | InvalidDuration (dur : uint256)
  | InvalidDeveloper (dev : address)
  | CallNotFound (callId : bytes32)
  | CallAlreadyExists (callId : bytes32)
  | CallAlreadyStarted (callId : bytes32)
  | CallAlreadyCompleted (callId : bytes32)
  | Unauthorized (sender expected : address)
  | SelfBookingNotAllowed (sender : address)
  | DurationNotMet (currentTime requiredTime : uint256)
  | PaymentFailed (dev : address) (amt : uint256)
  | ErrorString (reason : string).

(** Contract storage, the balance held at the contract's address, the
    event log, and the value transfers the contract has made. *)
Record State := mkState {
  calls : gmap N Call;
  owner : address;
  balance : uint256;
  logs : list Event;
  transfers : list (address * uint256)
}.

(** [msg.sender], [msg.value] and [block.timestamp]. *)
Record Env := mkEnv {
  msg_sender : address;
  msg_value : uint256;
  block_timestamp : uint256
}.

(** State after the constructor has run for [deployer]. *)
Definition init (deployer : address) : State :=
  mkState ∅ deployer 0 [] [].

(** [calls[callId]] as a read. *)
Definition getCall (s : State) (callId : bytes32) : Call :=
  default zeroCall (calls s !! callId).

(** *** Contract code runs in a state-and-revert monad *)

Inductive Res (A : Type) :=
  | Ok (a : A) (s : State)
  | Revert (e : Error).
Arguments Ok {A} a s.
Arguments Revert {A} e.

Definition M (A : Type) := State -> Res A.

Definition ret {A} (a : A) : M A := fun s => Ok a s.
Definition bind {A B} (m : M A) (k : A -> M B) : M B :=
  fun s => match m s with
           | Ok a s' => k a s'
           | Revert e => Revert e
           end.
Definition revert {A} (e : Error) : M A := fun _ => Revert e.

Declare Scope sol_scope.
Delimit Scope sol_scope with sol.
Notation "x <- c1 ;; c2" := (bind c1 (fun x => c2))
  (at level 100, c1 at next level, right associativity) : sol_scope.
Notation "c1 ;; c2" := (bind c1 (fun _ => c2))
  (at level 100, right associativity) : sol_scope.
Local Open Scope sol_scope.

(** [if (c) revert e;] *)
Definition revert_if (c : bool) (e : Error) : M unit :=
  if c then revert e else ret tt.

Definition emit (ev : Event) : M unit :=
  fun s => Ok tt (mkState (calls s) (owner s) (balance s)
                          (ev :: logs s) (transfers s)).

Definition load (callId : bytes32) : M Call :=
  fun s => Ok (getCall s callId) s.

(** A write through the storage pointer [Call storage call = calls[callId]]:
    one field of the slot changes, the others stay. *)
Definition modify (callId : bytes32) (f : Call -> Call) : M unit :=
  fun s => Ok tt (mkState (<[callId := f (getCall s callId)]> (calls s))
                          (owner s) (balance s) (logs s) (transfers s)).

(** [calls[callId] = c], a write of the whole slot. *)
Definition store (callId : bytes32) (c : Call) : M unit :=
  modify callId (fun _ => c).

Definition set_amount (v : uint256) (c : Call) : Call :=
  mkCall (client c) (developer c) v (duration c) (startTime c)
         (isActive c) (isCompleted c) (isPaid c).
Definition set_startTime (v : uint256) (c : Call) : Call :=
  mkCall (client c) (developer c) (amount c) (duration c) v
         (isActive c) (isCompleted c) (isPaid c).
Definition set_isActive (b : bool) (c : Call) : Call :=
  mkCall (client c) (developer c) (amount c) (duration c) (startTime c)
         b (isCompleted c) (isPaid c).
Definition set_isCompleted (b : bool) (c : Call) : Call :=
  mkCall (client c) (developer c) (amount c) (duration c) (startTime c)
         (isActive c) b (isPaid c).
Definition set_isPaid (b : bool) (c : Call) : Call :=
  mkCall (client c) (developer c) (amount c) (duration c) (startTime c)
         (isActive c) (isCompleted c) b.

Definition selfBalance : M uint256 := fun s => Ok (balance s) s.

(** What the account that is sent value does while the contract waits:
    [None] when its frame reverts, otherwise the ledger state it leaves
    (it may have called back into the contract). *)
Definition Callee := State -> option State.

(** The value leaves the contract before the recipient's code runs. *)
Definition debit (s : State) (to : address) (amt : uint256) : State :=
  mkState (calls s) (owner s) (balance s - amt) (logs s)
          ((to, amt) :: transfers s).

(** [(bool success, ) = to.call{value: amt}("")]: a failed call leaves the
    state as it was before the call and returns [false]. *)
Definition call_value (to : address) (amt : uint256) (callee : Callee)
  : M bool :=
  fun s => match callee (debit s to amt) with
           | Some s' => Ok true s'
           | None => Ok false s
           end.

(** *** Modifiers *)

Definition callExists (callId : bytes32) : M unit :=
  c <- load callId ;;
  revert_if (client c =? 0) (CallNotFound callId).

Definition onlyDeveloper (e : Env) (callId : bytes32) : M unit :=
  c <- load callId ;;
  revert_if (negb (developer c =? msg_sender e))
            (Unauthorized (msg_sender e) (developer c)).

(** *** Functions *)

Definition createCall (e : Env) (callId : bytes32) (dev : address)
    (dur : uint256) : M unit :=
  emit (Debug CreatingCall callId) ;;
  revert_if (msg_value e =? 0) (InvalidAmount (msg_value e)) ;;
  revert_if (dur =? 0) (InvalidDuration dur) ;;
  revert_if (dev =? 0) (InvalidDeveloper dev) ;;
  revert_if (msg_sender e =? dev) (SelfBookingNotAllowed (msg_sender e)) ;;
  existingCall <- load callId ;;
  revert_if (negb (client existingCall =? 0)
             && (negb (isCompleted existingCall) || isPaid existingCall))
            (CallAlreadyExists callId) ;;
  store callId (mkCall (msg_sender e) dev (msg_value e) dur 0
                       false false false) ;;
  emit (CallCreated callId (msg_sender e) dev (msg_value e) dur
                    (block_timestamp e)).

Definition startCall (e : Env) (callId : bytes32) : M unit :=
  callExists callId ;;
  emit (Debug StartingCall callId) ;;
  call <- load callId ;;
  revert_if (isActive call) (CallAlreadyStarted callId) ;;
  revert_if (isCompleted call) (CallAlreadyCompleted callId) ;;
  modify callId (set_isActive true) ;;
  modify callId (set_startTime (block_timestamp e)) ;;
  emit (CallStarted callId (block_timestamp e)).

(** [call] is a storage pointer: [call.developer] after the transfer is
    read from storage as the recipient's code has left it. *)
Definition completeCall (e : Env) (callId : bytes32) (callee : Callee)
  : M unit :=
  callExists callId ;;
  onlyDeveloper e callId ;;
  emit (Debug CompletingCall callId) ;;
  call <- load callId ;;
  revert_if (isCompleted call) (CallAlreadyCompleted callId) ;;
  revert_if (isPaid call) (ErrorString "Payment already released") ;;
  let amt := amount call in
  revert_if (amt =? 0) (ErrorString "No payment amount available") ;;
  bal <- selfBalance ;;
  revert_if (bal <? amt) (ErrorString "Insufficient contract balance") ;;
  emit (Debug (CallStatus (client call) (developer call) amt) callId) ;;
  modify callId (set_isCompleted true) ;;
  modify callId (set_isPaid true) ;;
  modify callId (set_amount 0) ;;
  payee <- load callId ;;
  success <- call_value (developer payee) amt callee ;;
  failed <- load callId ;;
  revert_if (negb success) (PaymentFailed (developer failed) amt) ;;
  emit (CallCompleted callId (block_timestamp e)) ;;
  released <- load callId ;;
  emit (PaymentReleased callId (developer released) amt).

Definition getCallDetails (callId : bytes32) : M Call :=
  call <- load callId ;;
  revert_if (client call =? 0) (CallNotFound callId) ;;
  ret call.

Definition doesCallExist (s : State) (callId : bytes32) : bool :=
  negb (client (getCall s callId) =? 0).

(** *** Transactions *)

Inductive Outcome :=
  | Success
  | Reverted (e : Error).

(** A message call: the attached value is credited, the body runs, and a
    revert restores the state the call started from. *)
Definition transact (value : uint256) (body : M unit) (s : State)
  : State * Outcome :=
  match body (mkState (calls s) (owner s) (balance s + value) (logs s)
                      (transfers s)) with
  | Ok _ s' => (s', Success)
  | Revert e => (s, Reverted e)
  end.

(** The calls that change state.  [CompleteCall] says what the paid
    account does on receiving the value: whether its frame accepts it, and
    which calls it makes back into the contract meanwhile. *)
Inductive Op :=
  | CreateCall (sender : address) (value : uint256) (callId : bytes32)
               (dev : address) (dur : uint256)
  | StartCall (sender : address) (callId : bytes32)
  | CompleteCall (sender : address) (callId : bytes32)
                 (accepts : bool) (reentrant : Ops)
with Ops :=
  | Done
  | Then (op : Op) (rest : Ops).

Scheme Op_mut := Induction for Op Sort Prop
  with Ops_mut := Induction for Ops Sort Prop.
Combined Scheme Op_Ops_ind from Op_mut, Ops_mut.

Fixpoint exec (now : uint256) (op : Op) (s : State) : State * Outcome :=
  match op with
  | CreateCall sender value callId dev dur =>
      transact value (createCall (mkEnv sender value now) callId dev dur) s
  | StartCall sender callId =>
      transact 0 (startCall (mkEnv sender 0 now) callId) s
  | CompleteCall sender callId accepts reentrant =>
      transact 0
        (completeCall (mkEnv sender 0 now) callId
           (fun mid => if accepts then Some (exec_all now reentrant mid)
                       else None))
        s
  end
with exec_all (now : uint256) (ops : Ops) (s : State) : State :=
  match ops with
  | Done => s
  | Then op rest => exec_all now rest (fst (exec now op s))
  end.

(** States the contract can be in: after deployment, and after any
    transaction (in a block with any timestamp) from such a state. *)
Inductive reachable : State -> Prop :=
  | reach_init deployer : reachable (init deployer)
  | reach_step s now op :
      reachable s -> reachable (fst (exec now op s)).

(** *** Auxiliary definitions used to state the properties *)

(** The record [completeCall] leaves in the slot before it pays. *)
Definition settle (c : Call) : Call :=
  set_amount 0 (set_isPaid true (set_isCompleted true c)).

(** The record [startCall] leaves in the slot. *)
Definition start_at (now : N) (c : Call) : Call :=
  set_startTime now (set_isActive true c).

(** The state the recipient of the payment is called in: flags set, amount
    cleared, value gone. *)
Definition before_callee (s : State) (callId : N) : State :=
  let c := getCall s callId in
  debit (mkState (<[callId := settle c]> (calls s)) (owner s) (balance s)
           (Debug (CallStatus (client c) (developer c) (amount c)) callId
              :: Debug CompletingCall callId :: logs s)
           (transfers s))
        (developer c) (amount c).

(** The state a successful [completeCall] ends in, from the state [s2] the
    recipient returned. *)
Definition after_callee (now callId amt : N) (s2 : State) : State :=
  mkState (calls s2) (owner s2) (balance s2)
    (PaymentReleased callId (developer (getCall s2 callId)) amt
       :: CallCompleted callId now :: logs s2)
    (transfers s2).


(** A record that exists and has been completed and paid. *)
Definition settled (c : Call) : bool :=
  negb (client c =? 0) && isCompleted c && isPaid c.

(** The guards of [completeCall] that come before the payment. *)
Definition may_complete (sender : N) (callId : N) (s : State) : bool :=
  let c := getCall s callId in
  negb (client c =? 0) && (developer c =? sender)
  && negb (isCompleted c) && negb (isPaid c)
  && negb (amount c =? 0) && negb (balance s <? amount c).

(** Number of [PaymentReleased] events for [callId] in a log. *)
Fixpoint released (callId : N) (l : list Event) : nat :=
  match l with
  | [] => 0%nat
  | PaymentReleased id _ _ :: l' =>
      if id =? callId then S (released callId l') else released callId l'
  | _ :: l' => released callId l'
  end.

(** The payments a log records for [callId]: recipient and amount of
    each of its [PaymentReleased] events, latest first. *)
Fixpoint payments (callId : N) (l : list Event) : list (N * N) :=
  match l with
  | [] => []
  | PaymentReleased id dev amt :: l' =>
      if id =? callId then (dev, amt) :: payments callId l'
      else payments callId l'
  | _ :: l' => payments callId l'
  end.

(** Number of [CallCreated] events for [callId] in a log. *)
Fixpoint created (callId : N) (l : list Event) : nat :=
  match l with
  | [] => 0%nat
  | CallCreated id _ _ _ _ _ :: l' =>
      if id =? callId then S (created callId l') else created callId l'
  | _ :: l' => created callId l'
  end.

(** Value escrowed according to a log: the amounts of its [CallCreated]
    events. *)
Fixpoint escrowed_total (l : list Event) : Z :=
  match l with
  | [] => 0%Z
  | CallCreated _ _ _ amt _ _ :: l' => (Z.of_N amt + escrowed_total l')%Z
  | _ :: l' => escrowed_total l'
  end.

(** Value paid out according to a log: the amounts of its
    [PaymentReleased] events. *)
Fixpoint released_total (l : list Event) : Z :=
  match l with
  | [] => 0%Z
  | PaymentReleased _ _ amt :: l' => (Z.of_N amt + released_total l')%Z
  | _ :: l' => released_total l'
  end.

(** Value that has left the contract. *)
Fixpoint transferred_total (t : list (N * N)) : Z :=
  match t with
  | [] => 0%Z
  | (_, amt) :: t' => (Z.of_N amt + transferred_total t')%Z
  end.

(** A sequence of transactions, each in a block with its own timestamp. *)
Fixpoint run (txs : list (N * Op)) (s : State) : State :=
  match txs with
  | [] => s
  | (now, op) :: rest => run rest (fst (exec now op s))
  end.

(** The checks of [createCall], and the state it leaves when they pass. *)
Definition may_create (sender value callId dev dur : N) (s : State) : bool :=
  let c := getCall s callId in
  negb (value =? 0) && negb (dur =? 0) && negb (dev =? 0)
  && negb (sender =? dev)
  && negb (negb (client c =? 0) && (negb (isCompleted c) || isPaid c)).

Definition after_create (now sender value callId dev dur : N) (s : State)
  : State :=
  mkState (<[callId := mkCall sender dev value dur 0 false false false]>
             (calls s))
          (owner s) (balance s + value)
          (CallCreated callId sender dev value dur now
             :: Debug CreatingCall callId :: logs s)
          (transfers s).

(** The checks of [startCall], and the state it leaves when they pass. *)
Definition may_start (callId : N) (s : State) : bool :=
  let c := getCall s callId in
  negb (client c =? 0) && negb (isActive c) && negb (isCompleted c).

Definition after_start (now callId : N) (s : State) : State :=
  mkState (<[callId := start_at now (getCall s callId)]> (calls s))
          (owner s) (balance s)
          (CallStarted callId now :: Debug StartingCall callId :: logs s)
          (transfers s).

(** Settled records, and the count of their payments, stay as they are. *)
Definition keeps_settled (s s' : State) : Prop :=
  forall id, settled (getCall s id) = true ->
    getCall s' id = getCall s id
    /\ released id (logs s') = released id (logs s)
    /\ payments id (logs s') = payments id (logs s).

(** The invariant of the ledger: in every record the two terminal flags
    agree, and a call id has at most one payment in the log, which its
    record reflects. *)
Definition ledger_inv (s : State) : Prop :=
  forall id,
    isCompleted (getCall s id) = isPaid (getCall s id)
    /\ (released id (logs s) = 0%nat
        \/ (released id (logs s) = 1%nat /\ settled (getCall s id) = true)).

(** An existing record keeps its parties and duration, never returns from
    completed, and keeps its amount until it is completed. *)
Definition keeps_deal (s s' : State) : Prop :=
  forall id, client (getCall s id) <> 0 ->
    client (getCall s' id) = client (getCall s id)
    /\ developer (getCall s' id) = developer (getCall s id)
    /\ duration (getCall s' id) = duration (getCall s id)
    /\ (isCompleted (getCall s' id) = false ->
        isCompleted (getCall s id) = false
        /\ amount (getCall s' id) = amount (getCall s id)).

(** The books: what the contract holds, plus what the log says it paid
    out, minus what the log says was escrowed. *)
Definition books (s : State) : Z :=
  (Z.of_N (balance s) + released_total (logs s) - escrowed_total (logs s))%Z.

(** Value that left the contract and is not yet in the log as released. *)
Definition in_flight (s : State) : Z :=
  (transferred_total (transfers s) - released_total (logs s))%Z.

End Ledger.

(** ** The transaction orchestrator (services/web3Service.ts) *)

Module Orchestrator.

(** What an awaited request comes back with: an exception with its
    message, or a value. *)
Inductive Answer (A : Type) :=
  | Throws (message : string)
  | Returns (a : A).
Arguments Throws {A} message.
Arguments Returns {A} a.

(** How an [async] method settles. *)
Inductive Promise (A : Type) :=
  | Rejected (message : string)
  | Resolved (a : A).
Arguments Rejected {A} message.
Arguments Resolved {A} a.

Definition andThen {A B} (a : Answer A) (k : A -> Answer B) : Answer B :=
  match a with
  | Throws m => Throws m
  | Returns x => k x
  end.

Declare Scope js_scope.
Delimit Scope js_scope with js.
Notation "x <- c1 ;; c2" := (andThen c1 (fun x => c2))
  (at level 100, c1 at next level, right associativity) : js_scope.
Notation "c1 ;; c2" := (andThen c1 (fun _ => c2))
  (at level 100, right associativity) : js_scope.

(** [if (c) throw new Error(m);] *)
Definition throw_if (c : bool) (m : string) : Answer unit :=
  if c then Throws m else Returns tt.

(** The fields of a transaction receipt that [completeCall] reads. *)
Record Receipt := mkReceipt {
  status : bool;
  gasUsed : N;
  blockNumber : N
}.

(** What the provider answers in one pass of the confirmation loop:
    [getTransactionReceipt] ([None] for a transaction not yet mined) and
    the [getCallDetails] read that follows a receipt. *)
Record Poll := mkPoll {
  receiptAnswer : Answer (option Receipt);
  detailsAnswer : Answer Ledger.Call
}.

(** Lines written to the console. *)
Inductive Console :=
  | ConsoleError (what message : string)
  | ConsoleLog (what : string).

(** The variables of the confirmation loop, and what it has printed and
    how often it has slept. *)
Record Loop := mkLoop {
  receipt : option Receipt;
  attempts : nat;
  console : list Console;
  sleeps : nat
}.

Definition maxAttempts : nat := 30.

Definition loop_start : Loop := mkLoop None 0 [] 0.

Definition set_receipt (r : option Receipt) (st : Loop) : Loop :=
  mkLoop r (attempts st) (console st) (sleeps st).

(** The [catch] of the loop: the error is printed, nothing else. *)
Definition caught (message : string) (st : Loop) : Loop :=
  mkLoop (receipt st) (attempts st)
         (ConsoleError "Error checking receipt:" message :: console st)
         (sleeps st).

Definition confirmed (st : Loop) : Loop :=
  mkLoop (receipt st) (attempts st)
         (ConsoleLog "Payment confirmed:" :: console st) (sleeps st).

(** [await new Promise(resolve => setTimeout(resolve, 1000)); attempts++] *)
Definition sleep_and_count (st : Loop) : Loop :=
  mkLoop (receipt st) (S (attempts st)) (console st) (S (sleeps st)).

(** The [try] block of one pass: the state it leaves and whether it took
    the [break].  An exception thrown inside it, by a request or by one of
    the two [throw] statements, lands in the [catch]. *)
Definition try_block (p : Poll) (st : Loop) : Loop * bool :=
  match receiptAnswer p with
  | Throws m => (caught m st, false)
  | Returns None => (set_receipt None st, false)
  | Returns (Some r) =>
      let st := set_receipt (Some r) st in
      if negb (status r) then (caught "Transaction failed" st, false)
      else match detailsAnswer p with
           | Throws m => (caught m st, false)
           | Returns updatedCall =>
               if negb (Ledger.isPaid updatedCall)
               then (caught "Payment not confirmed after transaction" st,
                     false)
               else (confirmed st, true)
           end
  end.

(** [while (!receipt && attempts < maxAttempts) { try {...} catch {...}
    sleep; attempts++ }], the answers of pass [i] being [polls i]. *)
Fixpoint confirmation_loop (fuel : nat) (polls : nat -> Poll) (st : Loop)
  : Loop :=
  match fuel with
  | O => st
  | S fuel' =>
      if match receipt st with None => true | Some _ => false end
         && (attempts st <? maxAttempts)%nat
      then let (st', break) := try_block (polls (attempts st)) st in
           if break then st'
           else confirmation_loop fuel' polls (sleep_and_count st')
      else st
  end.

(** The loop and the check after it. *)
Definition awaitConfirmation (polls : nat -> Poll) (txHash : N) : Answer N :=
  let st := confirmation_loop maxAttempts polls loop_start in
  match receipt st with
  | None => Throws "Transaction not confirmed after 30 seconds"
  | Some _ => Returns txHash
  end.

(** The parameters of the transaction handed to the wallet. *)
Record TxParams := mkTx {
  from : N;
  gas : N;
  gasPrice : N;
  data : N;
  nonce : N
}.

(** Everything outside the service that one [completeCall] talks to. *)
Record Rpc := mkRpc {
  initializeContract : Answer unit;
  validateNetwork : Answer unit;
  connectWallet : Answer (list N);
  getCallDetails : Answer Ledger.Call;
  getBalance : Answer N;
  getTransactionCount : Answer N;
  getGasPrice : Answer N;
  estimateGas : Answer N;
  sendTransaction : Answer N;
  polls : nat -> Poll
}.

Section Service.
(** Supplied by the web3 library and the language: the hash, and the
    conversion of an amount in wei to a floating-point number of CELO
    with the comparison on such numbers. *)
Variable keccak256 : string -> N.
Variable Num : Type.
Variable weiToCelo : N -> Num.
Variable num_lt : Num -> Num -> bool.
(** [getReasonableGasPrice] on a price the network gave: the price capped
    at one gwei, computed in floating point. *)
Variable capped : N -> N.

Local Open Scope js_scope.

Definition convertToBytes32 (str : string) : Answer N :=
  throw_if (String.eqb str "") "Cannot convert empty string to bytes32" ;;
  Returns (keccak256 str).

(** Falls back to 0.1 gwei when the price cannot be fetched. *)
Definition getReasonableGasPrice (rpc : Rpc) : N :=
  match getGasPrice rpc with
  | Returns p => capped p
  | Throws _ => 100000000
  end.

(** [gasLimit = Math.floor(estimate * 1.2)] inside a [try] whose [catch]
    sets 80000.  The estimate web3 returns is a [bigint], and its product
    with the number [1.2] throws a [TypeError] inside the [try]: the
    [catch]'s 80000 is what is sent, whether the estimation itself
    answers or fails. *)
Definition gasLimit (rpc : Rpc) : N :=
  match estimateGas rpc with
  | Returns estimate => 80000
  | Throws _ => 80000
  end.

(** Everything [completeCall] does before it asks the wallet to send. *)
Definition prepare (rpc : Rpc) (callId : string) : Answer TxParams :=
  initializeContract rpc ;;
  validateNetwork rpc ;;
  accounts <- connectWallet rpc ;;
  account <- match accounts with
             | a :: _ => Returns a
             | [] => Throws "Cannot read properties of undefined"
             end ;;
  callIdBytes32 <- convertToBytes32 callId ;;
  callDetails <- getCallDetails rpc ;;
  throw_if (Ledger.isCompleted callDetails)
           "Call has already been completed" ;;
  throw_if (Ledger.isPaid callDetails)
           "Payment has already been released" ;;
  throw_if (Ledger.amount callDetails =? 0)
           "No payment amount available" ;;
  throw_if (negb (Ledger.developer callDetails =? account))
           "Only the developer can complete the call" ;;
  contractBalance <- getBalance rpc ;;
  throw_if (num_lt (weiToCelo contractBalance)
                   (weiToCelo (Ledger.amount callDetails)))
           "Insufficient contract balance" ;;
  txCount <- getTransactionCount rpc ;;
  Returns (mkTx account (gasLimit rpc) (getReasonableGasPrice rpc)
                callIdBytes32 txCount).

(** [completeCall]: how the promise settles, and the transactions the
    wallet was given and sent. *)
Definition completeCall (rpc : Rpc) (callId : string)
  : Promise N * list TxParams :=
  match prepare rpc callId with
  | Throws m => (Rejected ("Failed to complete call: " ++ m), [])
  | Returns txParams =>
      match sendTransaction rpc with
      | Throws m => (Rejected ("Failed to complete call: " ++ m), [])
      | Returns txHash =>
          match awaitConfirmation (polls rpc) txHash with
          | Throws m =>
              (Rejected ("Failed to complete call: " ++ m), [txParams])
          | Returns h => (Resolved h, [txParams])
          end
      end
  end.
End Service.

End Orchestrator.

(** ** The call session coordinator (pages/VideoCall.tsx) *)

Module Coordinator.
Import Orchestrator.
Local Open Scope string_scope.
Local Open Scope list_scope.
Local Open Scope Z_scope.

(** The session document as the component reads it.  [startTime] is the
    instant its ISO string denotes, in milliseconds ([new
    Date(s).getTime()]); of [totalAmount] only its truthiness is used. *)
Record CallData := mkCallData {
  clientId : string;
  developerId : string;
  status : string;
  duration : Z;
  startTime : option Z;
  totalAmount : Z;
  walletAddress : string;
  data_callId : string
}.

(** The values a render of [VideoCall] binds, which the handlers created
    in that render see: route parameter, signed-in user, and React
    state. *)
Record Render := mkRender {
  callId : option string;
  user : option string;
  callData : option CallData;
  timeLeft : option Z;
  error : string;
  isCallEnding : bool
}.

(** The refs, shared by all renders. *)
Record Refs := mkRefs {
  timerInterval : bool;
  callInitialized : bool
}.

(** The component between events: the state the next render will bind,
    and the refs. *)
Record Live := mkLive {
  state : Render;
  refs : Refs
}.

Inductive Field :=
  | FString (s : string)
  | FNumber (z : Z)
  | FBool (b : bool).

(** What the component does to the world outside it. *)
Inductive Effect :=
  | LeaveChannel
  | UpdateDoc (fields : list (string * Field))
  | ClearInterval
  | SetInterval
  | Navigate (path : string)
  | InitializeVideoCall
  | CompleteCall (callId : string) (sent : list TxParams).

(** The time sources of one [getServerTimestamp]: the round trip through
    the store ([addDoc], [getDoc] and [toMillis], [deleteDoc]) and the
    local clock. *)
Inductive RoundTrip :=
  | AddDocThrows
  | GetDocThrows
  | Stamped (timestamp : option Z) (deleteDocThrows : bool).

Record Clock := mkClock {
  roundTrip : RoundTrip;
  dateNow : Z
}.

(** [return timestamp || Date.now()], and [Date.now()] from the [catch]. *)
Definition getServerTimestamp (c : Clock) : Z :=
  match roundTrip c with
  | AddDocThrows => dateNow c
  | GetDocThrows => dateNow c
  | Stamped _ true => dateNow c
  | Stamped None false => dateNow c
  | Stamped (Some t) false => if t =? 0 then dateNow c else t
  end.

(** State setters act on the state the next render binds. *)
Definition setCallData (d : CallData) (l : Live) : Live :=
  let s := state l in
  mkLive (mkRender (callId s) (user s) (Some d) (timeLeft s) (error s)
                   (isCallEnding s)) (refs l).
Definition setTimeLeft (t : Z) (l : Live) : Live :=
  let s := state l in
  mkLive (mkRender (callId s) (user s) (callData s) (Some t) (error s)
                   (isCallEnding s)) (refs l).
Definition setError (e : string) (l : Live) : Live :=
  let s := state l in
  mkLive (mkRender (callId s) (user s) (callData s) (timeLeft s) e
                   (isCallEnding s)) (refs l).
Definition setIsCallEnding (b : bool) (l : Live) : Live :=
  let s := state l in
  mkLive (mkRender (callId s) (user s) (callData s) (timeLeft s) (error s)
                   b) (refs l).
Definition setTimerInterval (b : bool) (l : Live) : Live :=
  mkLive (state l) (mkRefs b (callInitialized (refs l))).
Definition setCallInitialized (b : bool) (l : Live) : Live :=
  mkLive (state l) (mkRefs (timerInterval (refs l)) b).

(** A handler's run: the component it leaves and what it did outside. *)
Definition Run := (Live * list Effect)%type.

Definition startTimer (durationInSeconds : Z) (l : Live) : Run :=
  let stop := if timerInterval (refs l) then [ClearInterval] else [] in
  (setTimerInterval true (setTimeLeft durationInSeconds l),
   stop ++ [SetInterval]).

(** Everything one [processPayment] talks to. *)
Record PayEnv := mkPayEnv {
  rpc : Rpc;
  payClock : Clock;
  updatePaid : Answer unit;
  updateError : Answer unit
}.

(** Everything one [handleCallEnd] talks to. *)
Record EndEnv := mkEndEnv {
  leaveChannel : Answer unit;
  endClock : Clock;
  updateStatus : Answer unit;
  updateDuration : Answer unit;
  payment : PayEnv
}.

Section Component.
Variable keccak256 : string -> N.
Variable Num : Type.
Variable weiToCelo : N -> Num.
Variable num_lt : Num -> Num -> bool.
Variable capped : N -> N.

Definition web3Service_completeCall :=
  Orchestrator.completeCall keccak256 Num weiToCelo num_lt capped.

(** [processPayment].  The run, and the exception that escapes it when
    the store update inside its [catch] throws. *)
Definition processPayment (env : PayEnv) (data : CallData) (l : Live)
  : Run * option string :=
  let l := setError
    "Processing payment... Please confirm the transaction in MetaMask."
    (setError "" l) in
  let (settled, sent) := web3Service_completeCall (rpc env)
                                                  (data_callId data) in
  let request := CompleteCall (data_callId data) sent in
  let failed (message : string) (done : list Effect) :=
    let l := setError
      (if String.eqb message ""
       then "Failed to process payment. Please try again."
       else message) l in
    let update := UpdateDoc [("paymentError", FBool true);
                             ("paymentErrorMessage", FString message)] in
    match updateError env with
    | Throws m => ((l, done ++ [update]), Some m)
    | Returns _ => ((setIsCallEnding false l, done ++ [update]), None)
    end in
  match settled with
  | Rejected message => failed message [request]
  | Resolved txHash =>
      let serverTimestamp := getServerTimestamp (payClock env) in
      let update := UpdateDoc
        [("paymentReleased", FBool true);
         ("paymentReleasedAt", FNumber serverTimestamp);
         ("paymentTransactionHash", FNumber (Z.of_N txHash));
         ("requiresPayment", FBool false)] in
      match updatePaid env with
      | Throws m => failed m [request; update]
      | Returns _ =>
          ((l, [request; update; Navigate "/developer-dashboard"]), None)
      end
  end.

(** The guard that opens [handleCallEnd], on the values of the render
    the handler was created in. *)
Definition returns_at_once (seen : Render) : bool :=
  match callData seen, callId seen with
  | Some _, Some id => String.eqb id "" || isCallEnding seen
  | _, _ => true
  end.

(** The [catch] of [handleCallEnd]. *)
Definition end_failed (r : Run) : Run :=
  (setIsCallEnding false
     (setError "Failed to end call properly. Please try again." (fst r)),
   snd r).

(** [handleCallEnd] past its guard, for a render with call data. *)
Definition end_call (env : EndEnv) (seen : Render) (data : CallData)
    (l : Live) : Run :=
  let l := setIsCallEnding true l in
  match leaveChannel env with
  | Throws _ => end_failed (l, [LeaveChannel])
  | Returns _ =>
  let serverTimestamp := getServerTimestamp (endClock env) in
  let completed := UpdateDoc
    [("status", FString "completed");
     ("endTime", FNumber serverTimestamp);
     ("endedBy", FString (default "" (user seen)));
     ("endReason",
      FString (match timeLeft seen with
               | Some 0 => "timeout"
               | _ => "manual"
               end));
     ("requiresPayment", FBool true)] in
  match updateStatus env with
  | Throws _ => end_failed (l, [LeaveChannel; completed])
  | Returns _ =>
  let lasted :=
    match startTime data with
    | Some start =>
        [UpdateDoc [("actualDuration",
                     FNumber ((serverTimestamp - start) / 1000 / 60))]]
    | None => []
    end in
  match (if match lasted with [] => false | _ => true end
         then updateDuration env else Returns tt) with
  | Throws _ => end_failed (l, [LeaveChannel; completed] ++ lasted)
  | Returns _ =>
  let stop := if timerInterval (refs l) then [ClearInterval] else [] in
  let l := setTimerInterval false l in
  let done := [LeaveChannel; completed] ++ lasted ++ stop in
  let isDeveloper :=
    match user seen with
    | Some uid => String.eqb uid (developerId data)
    | None => false
    end in
  if isDeveloper && negb (String.eqb (walletAddress data) "")
     && negb (totalAmount data =? 0)
     && negb (String.eqb (data_callId data) "")
  then match processPayment (payment env) data l with
       | (r, None) => (fst r, done ++ snd r)
       | (r, Some _) => end_failed (fst r, done ++ snd r)
       end
  else (l, done ++ [Navigate "/client-dashboard"])
  end end end.

(** [handleCallEnd], as created in the render [seen]. *)
Definition handleCallEnd (env : EndEnv) (seen : Render) (l : Live) : Run :=
  if returns_at_once seen then (l, [])
  else match callData seen with
       | Some data => end_call env seen data l
       | None => (l, [])
       end.

(** The handler of the developer's subscription to the session
    document, created in the render [seen] (whose [callData] it passes
    on), for a snapshot with the two flags it reads. *)
Definition onPaymentRequired (env : PayEnv) (seen : Render)
    (requiresPayment paymentReleased : bool) (l : Live) : Run :=
  match callId seen, user seen, callData seen with
  | Some id, Some uid, Some data =>
      if negb (String.eqb id "") && String.eqb uid (developerId data)
         && requiresPayment && negb paymentReleased
         && negb (isCallEnding seen)
      then fst (processPayment env data l)
      else (l, [])
  | _, _, _ => (l, [])
  end.

(** The handler of the subscription made by [fetchCallData], created in
    the render [seen], for a snapshot [data]. *)
Definition onCallSnapshot (clock : Clock) (env : EndEnv) (seen : Render)
    (data : CallData) (l : Live) : Run :=
  let l := setCallData data l in
  match startTime data with
  | Some start =>
      if negb (callInitialized (refs l)) then
        let serverTimestamp := getServerTimestamp clock in
        let elapsedSeconds := (serverTimestamp - start) / 1000 in
        let remainingSeconds := duration data * 60 - elapsedSeconds in
        if 0 <? remainingSeconds then
          let (l, fx) := startTimer remainingSeconds l in
          (setCallInitialized true l, fx)
        else handleCallEnd env seen l
      else (l, [])
  | None => (l, [])
  end.

(** [initializeCall] from the document [data] it has read, created in
    the render [seen], with the local clock reading [now]. *)
Definition initializeCall (now : Z) (env : EndEnv) (seen : Render)
    (data : CallData) (l : Live) : Run :=
  let l := setCallData data l in
  if String.eqb (status data) "active"
     && negb (callInitialized (refs l)) then
    let l := setCallInitialized true l in
    match startTime data with
    | Some start =>
        if negb (duration data =? 0) then
          let currentTime := now in
          let elapsedSeconds := (currentTime - start) / 1000 in
          let totalSeconds := duration data * 60 in
          let remainingSeconds := totalSeconds - elapsedSeconds in
          if 0 <? remainingSeconds then
            let (l, fx) := startTimer remainingSeconds l in
            (l, InitializeVideoCall :: fx)
          else
            let (l, fx) := handleCallEnd env seen l in
            (l, InitializeVideoCall :: fx)
        else (l, [InitializeVideoCall])
    | None => (l, [InitializeVideoCall])
    end
  else (l, []).

(** The seconds the countdown is started with by a run, if it starts
    one. *)
Definition countdown (r : Run) : option Z :=
  if existsb (fun e => match e with SetInterval => true | _ => false end)
             (snd r)
  then timeLeft (state (fst r)) else None.

(** The transactions a run's effects handed to the wallet. *)
Fixpoint submissions (fx : list Effect) : list TxParams :=
  match fx with
  | [] => []
  | CompleteCall _ sent :: fx' => sent ++ submissions fx'
  | _ :: fx' => submissions fx'
  end.

(** End triggers one after the other, each reaching the handler of the
    latest render. *)
Fixpoint end_triggers (envs : list EndEnv) (l : Live) : Run :=
  match envs with
  | [] => (l, [])
  | env :: envs' =>
      let (l1, fx1) := handleCallEnd env (state l) l in
      let (l2, fx2) := end_triggers envs' l1 in
      (l2, fx1 ++ fx2)
  end.
End Component.

(** A run that navigated to [path]. *)
Definition went_to (path : string) (r : Run) : Prop :=
  In (Navigate path) (snd r).

(** The remaining time as the specification words it: the duration in
    minutes times sixty, minus the seconds elapsed between the start and
    the timestamp the server assigned. *)
Definition spec_remaining (durationMinutes start serverTimestamp : Z) : Z :=
  durationMinutes * 60 - (serverTimestamp - start) / 1000.

End Coordinator.

(** ** Sample sessions

    Concrete providers, sessions and environments on which the models
    are run; the hash and the number conversions of the web3 library are
    stood in for by fixed functions. *)

Module Samples.
Import Orchestrator Coordinator.
Local Open Scope string_scope.
Local Open Scope list_scope.

Definition prepare :=
  Orchestrator.prepare (fun _ => 9%N) N (fun w => w) N.ltb (fun p => p).
Definition completeCall :=
  Orchestrator.completeCall (fun _ => 9%N) N (fun w => w) N.ltb (fun p => p).
Definition handleCallEnd :=
  Coordinator.handleCallEnd (fun _ => 9%N) N (fun w => w) N.ltb (fun p => p).
Definition end_triggers :=
  Coordinator.end_triggers (fun _ => 9%N) N (fun w => w) N.ltb (fun p => p).
Definition onCallSnapshot :=
  Coordinator.onCallSnapshot (fun _ => 9%N) N (fun w => w) N.ltb
                             (fun p => p).
Definition initializeCall :=
  Coordinator.initializeCall (fun _ => 9%N) N (fun w => w) N.ltb
                             (fun p => p).

(** The call on the ledger: started, neither completed nor paid. *)
Definition escrowed : Ledger.Call :=
  Ledger.mkCall 1 2 100 1800 15 true false false.

(** A provider for which every check before sending passes, the wallet
    sends, and each pass of the loop is answered by [poll]. *)
Definition provider (poll : nat -> Poll) : Rpc :=
  mkRpc (Returns tt) (Returns tt) (Returns [2%N]) (Returns escrowed)
        (Returns 100%N) (Returns 4%N) (Returns 500000000%N)
        (Returns 50000%N) (Returns 77%N) poll.

Definition mined_but_failed : nat -> Poll :=
  fun _ => mkPoll (Returns (Some (mkReceipt false 30000 12)))
                  (Returns escrowed).

Definition never_mined : nat -> Poll :=
  fun _ => mkPoll (Returns None) (Returns escrowed).

Definition mined_and_paid : nat -> Poll :=
  fun _ => mkPoll (Returns (Some (mkReceipt true 30000 12)))
                  (Returns (Ledger.mkCall 1 2 0 1800 15 true true true)).

Definition session : CallData :=
  mkCallData "client-1" "developer-1" "active" 30 (Some 1700000000000%Z)
             10 "0x0000000000000000000000000000000000000002"
             "client-1_developer-1_1700000000000".

(** The developer's component during the call, the countdown at zero. *)
Definition developer_view : Live :=
  mkLive (mkRender (Some "client-1_developer-1_1700000000000")
                   (Some "developer-1") (Some session) (Some 0%Z) "" false)
         (mkRefs true true).

Definition server_clock (t : Z) : Clock :=
  mkClock (Stamped (Some t) false) (t + 5000)%Z.

Definition end_env (poll : nat -> Poll) : EndEnv :=
  mkEndEnv (Returns tt) (server_clock 1700001800000) (Returns tt)
           (Returns tt)
           (mkPayEnv (provider poll) (server_clock 1700001830000)
                     (Returns tt) (Returns tt)).

Definition unconfirmed_end : EndEnv := end_env never_mined.
Definition confirmed_end : EndEnv := end_env mined_and_paid.

End Samples.

(** ** Further definitions for the ledger *)

Module LedgerMore.
Import Ledger.

(** What the stored records say the contract holds for their calls. *)
Definition owed (m : gmap N Call) : N :=
  map_fold (fun _ c acc => amount c + acc) 0 m.

(** What holds of every record [createCall] writes and the other
    functions keep: a developer other than the zero address and the
    client, a duration, terminal flags that agree, an amount that is
    non-zero until the call is completed and zero afterwards, and no start
    time before the call is started. *)
Definition record_ok (c : Call) : Prop :=
  developer c <> 0
  /\ client c <> developer c
  /\ duration c <> 0
  /\ isCompleted c = isPaid c
  /\ (isCompleted c = false -> amount c <> 0)
  /\ (isCompleted c = true -> amount c = 0)
  /\ (isActive c = false -> startTime c = 0).

(** Every stored record is well formed and the balance covers what the
    records hold. *)
Definition sound (s : State) : Prop :=
  (forall id c, calls s !! id = Some c -> record_ok c)
  /\ owed (calls s) <= balance s.

(** Number of [CallStarted] events for [callId] in a log. *)
Fixpoint started (callId : N) (l : list Event) : nat :=
  match l with
  | [] => 0%nat
  | CallStarted id _ :: l' =>
      if id =? callId then S (started callId l') else started callId l'
  | _ :: l' => started callId l'
  end.

(** A started record stays started, with the start time it was given, and
    a call id has at most one [CallStarted] event in the log, which its
    record reflects. *)
Definition start_inv (s : State) : Prop :=
  forall id,
    started id (logs s) = 0%nat
    \/ (started id (logs s) = 1%nat
        /\ client (getCall s id) <> 0
        /\ isActive (getCall s id) = true).

Definition keeps_started (s s' : State) : Prop :=
  forall id, client (getCall s id) <> 0 ->
    isActive (getCall s id) = true ->
    client (getCall s' id) = client (getCall s id)
    /\ isActive (getCall s' id) = true
    /\ startTime (getCall s' id) = startTime (getCall s id)
    /\ started id (logs s') = started id (logs s).

(** Every stored record is backed by a [CallCreated] event for its id with
    its client, developer and duration, and with its amount while the call
    is not completed. *)
Definition logged (s : State) : Prop :=
  forall id c, calls s !! id = Some c ->
    exists v t,
      In (CallCreated id (client c) (developer c) v (duration c) t) (logs s)
      /\ (isCompleted c = false -> v = amount c).

(** A view call: the value it returns, or the error it reverts with. *)
Definition view {A} (m : M A) (s : State) : Error + A :=
  match m s with
  | Ok a _ => inr a
  | Revert e => inl e
  end.

End LedgerMore.

(** ** Further definitions for the orchestrator *)

Module OrchestratorMore.
Local Open Scope string_scope.
Local Open Scope list_scope.

(** The table of [getCustomErrorName]: the first four bytes of an error's
    data, in hexadecimal, and the error's name. *)
Definition errorSignatures : list (string * string) :=
  [("17c69794", "CallNotFound");
   ("7939f424", "InvalidAmount");
   ("c2d5b4b5", "InvalidDuration");
   ("d1ab6ccd", "InvalidDeveloper");
   ("f47d84c4", "CallAlreadyExists");
   ("3bcc8979", "CallAlreadyStarted");
   ("0de69ddb", "CallAlreadyCompleted");
   ("b5babb70", "Unauthorized");
   ("0c4e4138", "SelfBookingNotAllowed");
   ("f7c3d683", "DurationNotMet");
   ("8a0d5d23", "PaymentFailed")].

Fixpoint property (key : string) (table : list (string * string))
  : option string :=
  match table with
  | [] => None
  | (k, v) :: rest => if String.eqb k key then Some v else property key rest
  end.

(** The keys of at most eight characters that every object inherits from
    [Object.prototype]; reading them yields a function. *)
Definition inherited (key : string) : bool :=
  String.eqb key "toString" || String.eqb key "valueOf".

(** [errorData.slice(2, 10)] *)
Definition slice_2_10 (errorData : string) : string :=
  String.substring 2 8 errorData.

(** [errorSignatures[errorSignature] || 'Unknown error']: the name, or
    [None] when the key is an inherited one and the value read is a
    function, not a string. *)
Definition getCustomErrorName (errorData : string) : option string :=
  let errorSignature := slice_2_10 errorData in
  match property errorSignature errorSignatures with
  | Some name => Some name
  | None => if inherited errorSignature then None else Some "Unknown error"
  end.

(** The [switch] of [getRevertReason] on a name. *)
Definition reason_of_name (errorName : string) : string :=
  if String.eqb errorName "CallNotFound"
  then "Call not found with the given ID"
  else if String.eqb errorName "InvalidAmount"
  then "Invalid payment amount"
  else if String.eqb errorName "InvalidDuration"
  then "Invalid call duration"
  else if String.eqb errorName "InvalidDeveloper"
  then "Invalid developer address"
  else if String.eqb errorName "CallAlreadyExists"
  then "A call with this ID already exists"
  else if String.eqb errorName "CallAlreadyStarted"
  then "Call has already started"
  else if String.eqb errorName "CallAlreadyCompleted"
  then "Call has already been completed"
  else if String.eqb errorName "Unauthorized"
  then "Unauthorized: you are not the client for this call"
  else if String.eqb errorName "SelfBookingNotAllowed"
  then "You cannot book a call with yourself"
  else if String.eqb errorName "DurationNotMet"
  then "Call duration requirement not met"
  else if String.eqb errorName "PaymentFailed"
  then "Payment transfer failed"
  else "Contract error: " ++ errorName.

(** The branch of [getRevertReason] for an error that carries data: the
    text shown to the user, or [None] when the name read is a function
    and the text depends on how the engine prints it. *)
Definition reason_of_data (errorData : string) : option string :=
  option_map reason_of_name (getCustomErrorName errorData).

(** The name under which the contract declares an error. *)
Definition declared_name (e : Ledger.Error) : option string :=
  match e with
  | Ledger.InvalidAmount _ => Some "InvalidAmount"
  | Ledger.InvalidDuration _ => Some "InvalidDuration"
  | Ledger.InvalidDeveloper _ => Some "InvalidDeveloper"
  | Ledger.CallNotFound _ => Some "CallNotFound"
  | Ledger.CallAlreadyExists _ => Some "CallAlreadyExists"
  | Ledger.CallAlreadyStarted _ => Some "CallAlreadyStarted"
  | Ledger.CallAlreadyCompleted _ => Some "CallAlreadyCompleted"
  | Ledger.Unauthorized _ _ => Some "Unauthorized"
  | Ledger.SelfBookingNotAllowed _ => Some "SelfBookingNotAllowed"
  | Ledger.DurationNotMet _ _ => Some "DurationNotMet"
  | Ledger.PaymentFailed _ _ => Some "PaymentFailed"
  | Ledger.ErrorString _ => None
  end.

End OrchestratorMore.

(** ** Further definitions for the coordinator *)

Module CoordinatorMore.
Import Orchestrator Coordinator.
Local Open Scope string_scope.
Local Open Scope list_scope.
Local Open Scope Z_scope.

(** A handler of the session document runs in segments: what it does up
    to an [await], and what it does when it resumes.  Between the two,
    segments of other handlers may run.  [initializeCall] awaits
    [initializeVideoCall] after the document it has read; so does the
    handler of the subscription it makes, for an update; the handler of
    the subscription made by [fetchCallData] awaits [getServerTimestamp]
    after a snapshot.  Each resumption carries the data its handler was
    given and the render it was created in. *)
Inductive Segment :=
  | DocumentRead (data : CallData)
  | DocumentResumed (now : Z) (env : EndEnv) (seen : Render)
                    (data : CallData)
  | UpdateArrived (data : CallData)
  | UpdateResumed (now : Z) (env : EndEnv) (seen : Render)
                  (data : CallData)
  | SnapshotArrived (data : CallData)
  | SnapshotResumed (clock : Clock) (env : EndEnv) (seen : Render)
                    (data : CallData).

Definition is_InitializeVideoCall (e : Effect) : bool :=
  match e with InitializeVideoCall => true | _ => false end.

(** The store update that records a released payment. *)
Definition paid_update (serverTimestamp : Z) (txHash : N) : Effect :=
  UpdateDoc [("paymentReleased", FBool true);
             ("paymentReleasedAt", FNumber serverTimestamp);
             ("paymentTransactionHash", FNumber (Z.of_N txHash));
             ("requiresPayment", FBool false)].

Definition is_error_update (e : Effect) : bool :=
  match e with
  | UpdateDoc (("paymentError", _) :: _) => true
  | _ => false
  end.

Definition is_paid_update (e : Effect) : bool :=
  match e with
  | UpdateDoc (("paymentReleased", _) :: _) => true
  | _ => false
  end.

(** The store update that records a failed payment. *)
Definition error_update (message : string) : Effect :=
  UpdateDoc [("paymentError", FBool true);
             ("paymentErrorMessage", FString message)].

(** What a handler that ends the call leaves alone: the session the
    component shows, the countdown, and the mark that the call was
    initialised. *)
Definition same_session (l l' : Live) : Prop :=
  callId (state l') = callId (state l)
  /\ user (state l') = user (state l)
  /\ callData (state l') = callData (state l)
  /\ timeLeft (state l') = timeLeft (state l)
  /\ callInitialized (refs l') = callInitialized (refs l).

(** Effects that do not start the video. *)
Definition quiet (fx : list Effect) : bool :=
  forallb (fun e => negb (is_InitializeVideoCall e)) fx.

Definition count (p : Effect -> bool) (fx : list Effect) : nat :=
  length (List.filter p fx).

Section Component.
Variable keccak256 : string -> N.
Variable Num : Type.
Variable weiToCelo : N -> Num.
Variable num_lt : Num -> Num -> bool.
Variable capped : N -> N.

(** The callback [startTimer] gives [setInterval], created in the render
    [seen]: the updater of [timeLeft] it passes to [setTimeLeft]. *)
Definition tick (env : EndEnv) (seen : Render) (l : Live) : Run :=
  let expired :=
    let stop := if timerInterval (refs l) then [ClearInterval] else [] in
    let (l1, fx) := handleCallEnd keccak256 Num weiToCelo num_lt capped
                      env seen l in
    (setTimeLeft 0 l1, stop ++ fx) in
  match timeLeft (state l) with
  | Some prev => if prev <=? 0 then expired else (setTimeLeft (prev - 1) l, [])
  | None => expired
  end.

(** Ticks one after the other. *)
Fixpoint ticks (calls : list (EndEnv * Render)) (l : Live) : Run :=
  match calls with
  | [] => (l, [])
  | (env, seen) :: rest =>
      let (l1, fx1) := tick env seen l in
      let (l2, fx2) := ticks rest l1 in
      (l2, fx1 ++ fx2)
  end.

(** The effect on [timeLeft], run after a render that changed it. *)
Definition timeLeft_effect (env : EndEnv) (l : Live) : Run :=
  match timeLeft (state l) with
  | Some 0 => handleCallEnd keccak256 Num weiToCelo num_lt capped
                env (state l) l
  | _ => (l, [])
  end.

(** [if (status === 'active' && !callInitialized.current)
    { callInitialized.current = true; await initializeVideoCall(); ...]
    after [setCallData], as [initializeCall] and the handler of its
    subscription both open. *)
Definition mark_and_initialize (data : CallData) (l : Live) : Run :=
  let l := setCallData data l in
  if String.eqb (status data) "active" && negb (callInitialized (refs l))
  then (setCallInitialized true l, [InitializeVideoCall])
  else (l, []).

(** [if (remainingSeconds > 0) startTimer(remainingSeconds); else
    handleCallEnd();] on the local clock. *)
Definition start_or_end (now start : Z) (env : EndEnv) (seen : Render)
    (data : CallData) (l : Live) : Run :=
  let currentTime := now in
  let elapsedSeconds := (currentTime - start) / 1000 in
  let totalSeconds := duration data * 60 in
  let remainingSeconds := totalSeconds - elapsedSeconds in
  if 0 <? remainingSeconds then startTimer remainingSeconds l
  else handleCallEnd keccak256 Num weiToCelo num_lt capped env seen l.

(** [initializeCall] after its [await initializeVideoCall()]. *)
Definition document_resumed (now : Z) (env : EndEnv) (seen : Render)
    (data : CallData) (l : Live) : Run :=
  match startTime data with
  | Some start =>
      if negb (duration data =? 0) then start_or_end now start env seen data l
      else (l, [])
  | None => (l, [])
  end.

(** The handler of the subscription [initializeCall] makes, after its
    [await initializeVideoCall()]; the start time it writes is kept as
    the instant, as in [CallData]. *)
Definition update_resumed (now : Z) (env : EndEnv) (seen : Render)
    (data : CallData) (l : Live) : Run :=
  match startTime data with
  | None => (l, [UpdateDoc [("startTime", FNumber now)]])
  | Some start =>
      if match timeLeft seen with
         | None => true
         | Some t => t =? 0
         end && negb (duration data =? 0)
      then start_or_end now start env seen data l
      else (l, [])
  end.

(** The handler of the subscription made by [fetchCallData], after its
    [await getServerTimestamp()]. *)
Definition snapshot_resumed (clock : Clock) (env : EndEnv) (seen : Render)
    (data : CallData) (l : Live) : Run :=
  match startTime data with
  | Some start =>
      let serverTimestamp := getServerTimestamp clock in
      let elapsedSeconds := (serverTimestamp - start) / 1000 in
      let remainingSeconds := duration data * 60 - elapsedSeconds in
      if 0 <? remainingSeconds then
        let (l, fx) := startTimer remainingSeconds l in
        (setCallInitialized true l, fx)
      else handleCallEnd keccak256 Num weiToCelo num_lt capped env seen l
  | None => (l, [])
  end.

Definition segment (sg : Segment) (l : Live) : Run :=
  match sg with
  | DocumentRead data => mark_and_initialize data l
  | DocumentResumed now env seen data => document_resumed now env seen data l
  | UpdateArrived data => mark_and_initialize data l
  | UpdateResumed now env seen data => update_resumed now env seen data l
  | SnapshotArrived data => (setCallData data l, [])
  | SnapshotResumed clock env seen data =>
      snapshot_resumed clock env seen data l
  end.

(** Segments in the order they run. *)
Fixpoint segments (sgs : list Segment) (l : Live) : Run :=
  match sgs with
  | [] => (l, [])
  | sg :: rest =>
      let (l1, fx1) := segment sg l in
      let (l2, fx2) := segments rest l1 in
      (l2, fx1 ++ fx2)
  end.
End Component.

End CoordinatorMore.

Module SamplesMore.
Import Orchestrator Coordinator CoordinatorMore.
Local Open Scope string_scope.
Local Open Scope list_scope.

Definition onPaymentRequired :=
  Coordinator.onPaymentRequired (fun _ => 9%N) N (fun w => w) N.ltb
                                (fun p => p).
Definition ticks :=
  CoordinatorMore.ticks (fun _ => 9%N) N (fun w => w) N.ltb (fun p => p).
Definition timeLeft_effect :=
  CoordinatorMore.timeLeft_effect (fun _ => 9%N) N (fun w => w) N.ltb
                                  (fun p => p).
Definition segments :=
  CoordinatorMore.segments (fun _ => 9%N) N (fun w => w) N.ltb
                           (fun p => p).

(** The client's component during the call. *)
Definition client_view : Live :=
  mkLive (mkRender (Some "client-1_developer-1_1700000000000")
                   (Some "client-1") (Some Samples.session) (Some 40%Z) ""
                   false)
         (mkRefs true true).

(** The developer's component before the session document has come. *)
Definition opening_view : Live :=
  mkLive (mkRender (Some "client-1_developer-1_1700000000000")
                   (Some "developer-1") None None "" false)
         (mkRefs false false).

Definition failed_end : EndEnv := Samples.end_env Samples.mined_but_failed.

(** The document is read ten minutes into the session and a snapshot
    arrives while the video is being initialised; an update follows. *)
Definition arrivals : list Segment :=
  [DocumentRead Samples.session;
   SnapshotArrived Samples.session;
   SnapshotResumed (Samples.server_clock 1700000600000)
                   Samples.confirmed_end (state opening_view)
                   Samples.session;
   DocumentResumed 1700000601000 Samples.confirmed_end (state opening_view)
                   Samples.session;
   UpdateArrived Samples.session;
   UpdateResumed 1700000602000 Samples.confirmed_end (state opening_view)
                 Samples.session].

End SamplesMore.

(** ** The string helpers of the ledger (VideoCallEscrow.sol) *)

Module LedgerText.

(** How an internal pure function ends: with a value, or with a panic
    ([0x11] arithmetic overflow or underflow, [0x32] index out of
    bounds); [Unfinished] is a loop cut short by its fuel. *)
Inductive Eval (A : Type) :=
  | Done (a : A)
  | Panic (code : N)
  | Unfinished.
Arguments Done {A} a.
Arguments Panic {A} code.
Arguments Unfinished {A}.

Definition then_ {A B} (e : Eval A) (k : A -> Eval B) : Eval B :=
  match e with
  | Done a => k a
  | Panic code => Panic code
  | Unfinished => Unfinished
  end.

Declare Scope eval_scope.
Delimit Scope eval_scope with eval.
Notation "x <- c1 ;; c2" := (then_ c1 (fun x => c2))
  (at level 100, c1 at next level, right associativity) : eval_scope.
Local Open Scope eval_scope.

(** [bytes memory]: the bytes, each below 256. *)
Abbreviation bytes := (list N) (only parsing).

(** Checked addition on [uint8] and increment on [uint256]. *)
Definition add8 (a b : N) : Eval N :=
  if a + b <=? 255 then Done (a + b) else Panic 0x11.
Definition increment (a : N) : Eval N :=
  if a + 1 <? 2 ^ 256 then Done (a + 1) else Panic 0x11.

(** [buffer[i] = v] *)
Definition write (buffer : bytes) (i v : N) : Eval bytes :=
  if i <? N.of_nat (length buffer)
  then Done (<[N.to_nat i := v]> buffer)
  else Panic 0x32.

Definition toHexChar (b : N) : Eval N :=
  if b <? 10 then add8 b 48 else add8 b 87.

(** [while (temp != 0) { digits++; temp /= 10; }] *)
Fixpoint count_loop (fuel : nat) (temp digits : N) : Eval N :=
  if temp =? 0 then Done digits
  else match fuel with
       | O => Unfinished
       | S fuel' =>
           digits <- increment digits ;;
           count_loop fuel' (temp / 10) digits
       end.

(** [while (value != 0) { digits -= 1; buffer[digits] = ...; value /= 10; }] *)
Fixpoint write_loop (fuel : nat) (value digits : N) (buffer : bytes)
  : Eval bytes :=
  if value =? 0 then Done buffer
  else match fuel with
       | O => Unfinished
       | S fuel' =>
           if digits =? 0 then Panic 0x11
           else
             let digits := digits - 1 in
             buffer <- write buffer digits ((48 + value mod 10) mod 256) ;;
             write_loop fuel' (value / 10) digits buffer
       end.

(** A [uint256] has at most 78 decimal digits. *)
Definition fuel256 : nat := 78.

Definition toString (value : N) : Eval bytes :=
  if value =? 0 then Done [48]
  else
    digits <- count_loop fuel256 value 0 ;;
    write_loop fuel256 value digits (repeat 0 (N.to_nat digits)).

(** The body of [for (uint256 i = 0; i < 20; i++)], [left] passes from
    [i] on. *)
Fixpoint hex_loop (left : nat) (i addr : N) (buffer : bytes) : Eval bytes :=
  match left with
  | O => Done buffer
  | S left' =>
      if 19 <? i then Panic 0x11
      else
        let b := (addr / 2 ^ (8 * (19 - i))) mod 256 in
        hi <- toHexChar (b / 16) ;;
        buffer <- write buffer (2 + i * 2) hi ;;
        lo <- toHexChar (b mod 16) ;;
        buffer <- write buffer (2 + i * 2 + 1) lo ;;
        hex_loop left' (i + 1) addr buffer
  end.

Definition toHexString (addr : N) : Eval bytes :=
  buffer <- write (repeat 0 42%nat) 0 48 ;;
  buffer <- write buffer 1 120 ;;
  hex_loop 20 0 addr buffer.

(** Reading the texts back: the number a string of decimal digits
    denotes, and the number a string of lower-case hexadecimal digits
    denotes. *)
Definition decimal_value (s : bytes) : N :=
  fold_left (fun acc c => acc * 10 + (c - 48)) s 0.
Definition hex_digit (c : N) : N :=
  if c <? 58 then c - 48 else c - 87.
Definition hex_value (s : bytes) : N :=
  fold_left (fun acc c => acc * 16 + hex_digit c) s 0.

Definition is_digit (c : N) : bool := (48 <=? c) && (c <=? 57).
Definition is_hex (c : N) : bool :=
  is_digit c || ((97 <=? c) && (c <=? 102)).

(** The decimal digits of [v], the most significant first. *)
Fixpoint digits_of (fuel : nat) (v : N) : bytes :=
  match fuel with
  | O => []
  | S fuel' =>
      if v =? 0 then [] else digits_of fuel' (v / 10) ++ [48 + v mod 10]
  end.

Definition hex_char (n : N) : N := if n <? 10 then n + 48 else n + 87.

(** The hexadecimal digits of the [left] lowest bytes of [addr], the
    most significant first. *)
Fixpoint hex_chars (left : nat) (addr : N) : bytes :=
  match left with
  | O => []
  | S left' =>
      let b := (addr / 2 ^ (8 * N.of_nat left')) mod 256 in
      hex_char (b / 16) :: hex_char (b mod 16) :: hex_chars left' addr
  end.

End LedgerText.

(** ** Amounts in CELO and in wei (services/web3Service.ts) *)

Module Amounts.

(** A finite, non-negative double-precision number,
    [mantissa * 2 ^ exponent]. *)
Record Double := mkDouble {
  mantissa : N;
  exponent : Z
}.

Definition is_double (d : Double) : Prop :=
  mantissa d < 2 ^ 53 /\ (-1074 <= exponent d <= 971)%Z.

(** The value of a double as a fraction: the denominator is a power of
    two, and one when the exponent is not negative. *)
Definition numerator (d : Double) : N :=
  mantissa d * 2 ^ Z.to_N (exponent d).
Definition denominator (d : Double) : N :=
  2 ^ Z.to_N (- exponent d).

(** The integer nearest to [n / d], the even one of two that are equally
    near. *)
Definition nearest (n d : N) : N :=
  let m := n / d in
  let r := n mod d in
  if 2 * r <? d then m
  else if d <? 2 * r then m + 1
  else if N.even m then m else m + 1.

(** [Number(s)] for a decimal string [s] that denotes [p / q]: the double
    nearest to it, ties to the even mantissa, as the language defines the
    conversion.  The mantissa is brought between [2 ^ 52] and [2 ^ 53] by
    the power of two [k] and rounded; the subnormal range and overflow,
    which no amount of a [uint256] in wei reaches, are not treated. *)
Definition Number_of (p q : N) : Double :=
  if p =? 0 then mkDouble 0 0
  else
    let k0 := (52 + Z.of_N (N.log2 q) - Z.of_N (N.log2 p))%Z in
    let k := if p * 2 ^ Z.to_N k0 <? 2 ^ 52 * (q * 2 ^ Z.to_N (- k0))
             then (k0 + 1)%Z else k0 in
    let m := nearest (p * 2 ^ Z.to_N k) (q * 2 ^ Z.to_N (- k)) in
    if m =? 2 ^ 53 then mkDouble (2 ^ 52) (1 - k) else mkDouble m (- k).

(** [Number(this.web3.utils.fromWei(wei, 'ether'))]: [fromWei] prints
    [wei / 10 ^ 18] exactly, as a decimal string. *)
Definition weiToCelo (wei : N) : Double := Number_of wei (10 ^ 18).

(** An amount as it is typed: the digits before and after the point. *)
Record Decimal := mkDecimal {
  integer : list N;
  fraction : list N
}.

(** [BigInt] of a string of digits. *)
Definition BigInt (digits : list N) : N :=
  fold_left (fun acc d => acc * 10 + d) digits 0.

(** [web3.utils.toWei(amount, 'ether')]: the digits without the point,
    times the denomination, with as many trailing characters cut off as
    there are digits after the point.  The string it returns is kept as
    the number it denotes. *)
Definition toWei (amount : Decimal) : N :=
  let value := BigInt (integer amount ++ fraction amount) in
  let updatedValue := value * 10 ^ 18 in
  let decimals := N.of_nat (length (fraction amount)) in
  if decimals =? 0 then updatedValue else updatedValue / 10 ^ decimals.

(** The amount passed to [createCall] of the service as [getCallDetails]
    of the service returns it once the ledger has stored the call: the
    value attached is [toWei] of the amount, and the amount returned is
    [weiToCelo] of the stored one.  [None] when the ledger reverts. *)
Definition read_back (now sender callId dev dur : N) (amount : Decimal)
    (s : Ledger.State) : option Double :=
  match Ledger.exec now
          (Ledger.CreateCall sender (toWei amount) callId dev dur) s with
  | (s', Ledger.Success) =>
      match Ledger.getCallDetails callId s' with
      | Ledger.Ok c _ => Some (weiToCelo (Ledger.amount c))
      | Ledger.Revert _ => None
      end
  | (_, Ledger.Reverted _) => None
  end.

(** How far the value of [d], in CELO, is from [wei], in wei, times the
    denominator of [d]. *)
Definition off (d : Double) (wei : N) : Z :=
  (Z.of_N (numerator d * 10 ^ 18) - Z.of_N (wei * denominator d))%Z.

(** The value of [d] is within one wei of [wei]. *)
Definition within_one_wei (d : Double) (wei : N) : Prop :=
  (Z.abs (off d wei) <= Z.of_N (denominator d))%Z.

End Amounts.

(** ** Error selectors

    A revert with a custom error carries the first four bytes of the
    Keccak-256 hash of the error's signature, followed by its encoded
    arguments.  The hash is the language's; it is spelled out here so
    that the selectors of the errors the contract declares can be
    computed. *)

Module Selectors.
Local Open Scope string_scope.
Local Open Scope list_scope.
Local Open Scope N_scope.

Definition mask64 : N := 0xFFFFFFFFFFFFFFFF.

(** Rotation of a 64-bit lane to the left. *)
Definition rol (v n : N) : N :=
  N.lor (N.land (N.shiftl v n) mask64) (N.shiftr v (64 - n)).

(** The state: twenty-five lanes, lane [(x, y)] at index [x + 5 * y]. *)
Definition lane (A : list N) (x y : nat) : N := nth (x + 5 * y) A 0.

Definition indices : list nat := seq 0 25.

Definition theta (A : list N) : list N :=
  let C := map (fun x => N.lxor (lane A x 0)
                           (N.lxor (lane A x 1)
                              (N.lxor (lane A x 2)
                                 (N.lxor (lane A x 3) (lane A x 4)))))
               (seq 0 5) in
  let D (x : nat) := N.lxor (nth ((x + 4) mod 5) C 0)
                            (rol (nth ((x + 1) mod 5) C 0) 1) in
  map (fun i => N.lxor (nth i A 0) (D (i mod 5)%nat)) indices.

Definition rotation : list N :=
  [0; 1; 62; 28; 27;
   36; 44; 6; 55; 20;
   3; 10; 43; 25; 39;
   41; 45; 15; 21; 8;
   18; 2; 61; 56; 14].

(** Lane [(x, y)] rotated goes to lane [(y, 2 x + 3 y)]: lane [(X, Y)]
    comes from lane [(X + 3 Y, X)]. *)
Definition rho_pi (A : list N) : list N :=
  map (fun i => let X := (i mod 5)%nat in
                let Y := (i / 5)%nat in
                let x := ((X + 3 * Y) mod 5)%nat in
                rol (lane A x X) (nth (x + 5 * X) rotation 0))
      indices.

Definition chi (B : list N) : list N :=
  map (fun i => let x := (i mod 5)%nat in
                let y := (i / 5)%nat in
                N.lxor (lane B x y)
                  (N.land (N.lxor (lane B ((x + 1) mod 5) y) mask64)
                          (lane B ((x + 2) mod 5) y)))
      indices.

Definition iota (rc : N) (A : list N) : list N :=
  match A with
  | a :: rest => N.lxor a rc :: rest
  | [] => []
  end.

Definition round_constants : list N :=
  [0x0000000000000001; 0x0000000000008082; 0x800000000000808A;
   0x8000000080008000; 0x000000000000808B; 0x0000000080000001;
   0x8000000080008081; 0x8000000000008009; 0x000000000000008A;
   0x0000000000000088; 0x0000000080008009; 0x000000008000000A;
   0x000000008000808B; 0x800000000000008B; 0x8000000000008089;
   0x8000000000008003; 0x8000000000008002; 0x8000000000000080;
   0x000000000000800A; 0x800000008000000A; 0x8000000080008081;
   0x8000000000008080; 0x0000000080000001; 0x8000000080008008].

Definition keccak_f (A : list N) : list N :=
  fold_left (fun A rc => iota rc (chi (rho_pi (theta A))))
            round_constants A.

(** The rate of Keccak-256, in bytes. *)
Definition rate : nat := 136.

Definition bytes_of (s : string) : list N :=
  map Ascii.N_of_ascii (list_ascii_of_string s).

(** Padding: a one bit, zeros, and a one bit that ends the block. *)
Definition pad (message : list N) : list N :=
  let r := (rate - length message mod rate)%nat in
  message ++ match r with
             | 1%nat => [0x81]
             | _ => 0x01 :: repeat 0 (r - 2) ++ [0x80]
             end.

(** A lane from its eight bytes, the lowest first. *)
Definition lane_of (bytes : list N) : N :=
  fold_right (fun b acc => b + 256 * acc) 0 bytes.

Definition absorb_block (block : list N) (A : list N) : list N :=
  map (fun i => if (i <? 17)%nat
                then N.lxor (nth i A 0)
                            (lane_of (firstn 8 (skipn (8 * i) block)))
                else nth i A 0)
      indices.

Fixpoint absorb (blocks : nat) (bytes : list N) (A : list N) : list N :=
  match blocks with
  | O => A
  | S blocks' =>
      absorb blocks' (skipn rate bytes)
             (keccak_f (absorb_block (firstn rate bytes) A))
  end.

(** The bytes of a lane, the lowest first. *)
Definition bytes_of_lane (v : N) : list N :=
  map (fun i => N.shiftr v (8 * N.of_nat i) mod 256) (seq 0 8).

(** The thirty-two bytes of the hash. *)
Definition keccak256 (message : list N) : list N :=
  let padded := pad message in
  let A := absorb (length padded / rate) padded (repeat 0 25%nat) in
  flat_map bytes_of_lane (firstn 4 A).

Definition hex_of_byte (b : N) : string :=
  String (Ascii.ascii_of_N (LedgerText.hex_char (b / 16)))
         (String (Ascii.ascii_of_N (LedgerText.hex_char (b mod 16))) "").

(** The selector of a signature, in hexadecimal. *)
Definition selector (signature : string) : string :=
  String.concat "" (map hex_of_byte (firstn 4 (keccak256 (bytes_of signature)))).

(** The signature under which the contract declares an error. *)
Definition signature (e : Ledger.Error) : option string :=
  match e with
  | Ledger.InvalidAmount _ => Some "InvalidAmount(uint256)"
  | Ledger.InvalidDuration _ => Some "InvalidDuration(uint256)"
  | Ledger.InvalidDeveloper _ => Some "InvalidDeveloper(address)"
  | Ledger.CallNotFound _ => Some "CallNotFound(bytes32)"
  | Ledger.CallAlreadyExists _ => Some "CallAlreadyExists(bytes32)"
  | Ledger.CallAlreadyStarted _ => Some "CallAlreadyStarted(bytes32)"
  | Ledger.CallAlreadyCompleted _ => Some "CallAlreadyCompleted(bytes32)"
  | Ledger.Unauthorized _ _ => Some "Unauthorized(address,address)"
  | Ledger.SelfBookingNotAllowed _ => Some "SelfBookingNotAllowed(address)"
  | Ledger.DurationNotMet _ _ => Some "DurationNotMet(uint256,uint256)"
  | Ledger.PaymentFailed _ _ => Some "PaymentFailed(address,uint256)"
  | Ledger.ErrorString _ => None
  end.

(** The data of a revert with a declared error, as the provider reports
    it: the selector, then the encoded arguments. *)
Definition revert_data (signature arguments : string) : string :=
  "0x" ++ selector signature ++ arguments.

End Selectors.


(** * Properties *)

Module LedgerFacts.
Import Ledger.
Local Open Scope sol_scope.

Lemma credit_zero s :
  mkState (calls s) (owner s) (balance s + 0) (logs s) (transfers s) = s.
Proof. destruct s; cbn. now rewrite N.add_0_r. Qed.

Lemma getCall_insert m o b l t id c :
  getCall (mkState (<[id := c]> m) o b l t) id = c.
Proof. unfold getCall; cbn. now rewrite lookup_insert_eq. Qed.

Lemma getCall_insert_ne m o b l t id id' c :
  id <> id' ->
  getCall (mkState (<[id := c]> m) o b l t) id' = getCall (mkState m o b l t) id'.
Proof. intros H. unfold getCall; cbn. now rewrite lookup_insert_ne. Qed.

(** What a [createCall] transaction does, check by check. *)
Lemma exec_create now sender value callId dev dur s :
  exec now (CreateCall sender value callId dev dur) s =
  if value =? 0 then (s, Reverted (InvalidAmount value))
  else if dur =? 0 then (s, Reverted (InvalidDuration dur))
  else if dev =? 0 then (s, Reverted (InvalidDeveloper dev))
  else if sender =? dev then (s, Reverted (SelfBookingNotAllowed sender))
  else if negb (client (getCall s callId) =? 0)
          && (negb (isCompleted (getCall s callId))
              || isPaid (getCall s callId))
  then (s, Reverted (CallAlreadyExists callId))
  else (mkState
          (<[callId := mkCall sender dev value dur 0 false false false]>
             (calls s))
          (owner s) (balance s + value)
          (CallCreated callId sender dev value dur now
             :: Debug CreatingCall callId :: logs s)
          (transfers s),
        Success).
Proof.
  cbn. unfold transact, createCall, bind, revert_if, emit, load, store,
    modify, revert, ret; cbn.
  destruct (value =? 0); [reflexivity|].
  destruct (dur =? 0); [reflexivity|].
  destruct (dev =? 0); [reflexivity|].
  destruct (sender =? dev); [reflexivity|].
  unfold getCall; cbn.
  destruct (_ && _); reflexivity.
Qed.

(** What a [startCall] transaction does. *)
Lemma exec_start now sender callId s :
  exec now (StartCall sender callId) s =
  let c := getCall s callId in
  if client c =? 0 then (s, Reverted (CallNotFound callId))
  else if isActive c then (s, Reverted (CallAlreadyStarted callId))
  else if isCompleted c then (s, Reverted (CallAlreadyCompleted callId))
  else (mkState (<[callId := start_at now c]> (calls s))
          (owner s) (balance s)
          (CallStarted callId now :: Debug StartingCall callId :: logs s)
          (transfers s),
        Success).
Proof.
  cbn. unfold transact. rewrite credit_zero.
  unfold startCall, callExists, bind, revert_if, emit, load, store,
    modify, revert, ret; cbn.
  destruct (client (getCall s callId) =? 0); [reflexivity|].
  unfold getCall at 1 2; cbn. fold (getCall s callId).
  destruct (isActive (getCall s callId)); [reflexivity|].
  destruct (isCompleted (getCall s callId)); [reflexivity|].
  cbn. unfold getCall at 1 2; cbn. fold (getCall s callId).
  rewrite lookup_insert_eq; cbn. rewrite insert_insert_eq.
  reflexivity.
Qed.

(** What a [completeCall] message call does, for any recipient. *)
Lemma transact_complete now sender callId callee s :
  transact 0 (completeCall (mkEnv sender 0 now) callId callee) s =
  let c := getCall s callId in
  if client c =? 0 then (s, Reverted (CallNotFound callId))
  else if negb (developer c =? sender)
  then (s, Reverted (Unauthorized sender (developer c)))
  else if isCompleted c then (s, Reverted (CallAlreadyCompleted callId))
  else if isPaid c
  then (s, Reverted (ErrorString "Payment already released"))
  else if amount c =? 0
  then (s, Reverted (ErrorString "No payment amount available"))
  else if balance s <? amount c
  then (s, Reverted (ErrorString "Insufficient contract balance"))
  else match callee (before_callee s callId) with
       | None => (s, Reverted (PaymentFailed (developer c) (amount c)))
       | Some s2 => (after_callee now callId (amount c) s2, Success)
       end.
Proof.
  unfold transact. rewrite credit_zero.
  unfold completeCall, callExists, onlyDeveloper, bind, revert_if, emit,
    load, store, modify, selfBalance, call_value, revert, ret,
    before_callee, after_callee, getCall; cbn.
  destruct (client (default zeroCall (calls s !! callId)) =? 0);
    [reflexivity|]; cbn.
  destruct (negb (developer (default zeroCall (calls s !! callId)) =? sender));
    [reflexivity|]; cbn.
  destruct (isCompleted (default zeroCall (calls s !! callId))) eqn:Hc;
    [reflexivity|]; cbn.
  destruct (isPaid (default zeroCall (calls s !! callId))) eqn:Hp;
    [reflexivity|]; cbn.
  destruct (amount (default zeroCall (calls s !! callId)) =? 0);
    [reflexivity|]; cbn.
  destruct (balance s <? amount (default zeroCall (calls s !! callId)));
    [reflexivity|]; cbn.
  rewrite !lookup_insert_eq; cbn. rewrite !insert_insert_eq.
  unfold settle, set_amount, set_isPaid, set_isCompleted; cbn.
  destruct (callee _) as [s2|]; cbn.
  - reflexivity.
  - rewrite lookup_insert_eq; cbn. reflexivity.
Qed.


Lemma transact_reverted value body s s' e :
  transact value body s = (s', Reverted e) -> s' = s.
Proof.
  unfold transact. destruct (body _); intros H; inversion H; reflexivity.
Qed.

(** A reverted call changes nothing: storage, balance, log and transfers
    are those the call started from. *)
Lemma exec_reverted now op s s' e :
  exec now op s = (s', Reverted e) -> s' = s.
Proof. destruct op; cbn; apply transact_reverted. Qed.

Lemma exec_fst_reverted now op s e :
  snd (exec now op s) = Reverted e -> fst (exec now op s) = s.
Proof.
  destruct (exec now op s) as [s' o] eqn:E; cbn. intros ->.
  eapply exec_reverted; eassumption.
Qed.

Lemma may_complete_true sender callId s :
  may_complete sender callId s = true <->
  client (getCall s callId) <> 0 /\ developer (getCall s callId) = sender
  /\ isCompleted (getCall s callId) = false
  /\ isPaid (getCall s callId) = false
  /\ amount (getCall s callId) <> 0
  /\ amount (getCall s callId) <= balance s.
Proof.
  unfold may_complete; cbn.
  rewrite !andb_true_iff, !negb_true_iff, !N.eqb_neq, N.eqb_eq, N.ltb_ge.
  tauto.
Qed.

(** A [completeCall] whose guards pass and whose payment is accepted. *)
Lemma exec_complete_success now sender callId re s :
  may_complete sender callId s = true ->
  exec now (CompleteCall sender callId true re) s =
  (after_callee now callId (amount (getCall s callId))
     (exec_all now re (before_callee s callId)), Success).
Proof.
  intros H. apply may_complete_true in H as (Hc & Hd & Hco & Hp & Ha & Hb).
  cbn. rewrite transact_complete. cbn.
  apply N.eqb_neq in Hc, Ha. apply N.eqb_eq in Hd. apply N.ltb_ge in Hb.
  now rewrite Hc, Hd, Hco, Hp, Ha, Hb.
Qed.

(** Every other [completeCall] reverts. *)
Lemma exec_complete_failure now sender callId accepts re s :
  may_complete sender callId s && accepts = false ->
  exists e, exec now (CompleteCall sender callId accepts re) s
            = (s, Reverted e).
Proof.
  intros H. cbn. rewrite transact_complete. cbn.
  unfold may_complete in H; cbn in H.
  destruct (client (getCall s callId) =? 0); [eauto|].
  destruct (developer (getCall s callId) =? sender); cbn; [|eauto].
  destruct (isCompleted (getCall s callId)); [eauto|].
  destruct (isPaid (getCall s callId)); [eauto|].
  destruct (amount (getCall s callId) =? 0); [eauto|].
  destruct (balance s <? amount (getCall s callId)); [eauto|].
  cbn in H. subst accepts. eauto.
Qed.

(** *** An induction principle for everything a call can set off

    A relation between the state before and after holds of every call,
    and of every sequence of re-entrant calls, when it is reflexive and
    transitive and holds of the three successful bodies; for
    [completeCall] it may be assumed of the recipient's calls. *)
Section ExecInduction.
Variable R : State -> State -> Prop.
Hypothesis R_refl : forall s, R s s.
Hypothesis R_trans : forall s1 s2 s3, R s1 s2 -> R s2 s3 -> R s1 s3.
Hypothesis R_create : forall now sender value callId dev dur s,
  snd (exec now (CreateCall sender value callId dev dur) s) = Success ->
  R s (fst (exec now (CreateCall sender value callId dev dur) s)).
Hypothesis R_start : forall now sender callId s,
  snd (exec now (StartCall sender callId) s) = Success ->
  R s (fst (exec now (StartCall sender callId) s)).
Hypothesis R_complete : forall now sender callId re s,
  may_complete sender callId s = true ->
  R (before_callee s callId) (exec_all now re (before_callee s callId)) ->
  R s (after_callee now callId (amount (getCall s callId))
         (exec_all now re (before_callee s callId))).

Lemma exec_rel :
  (forall op now s, R s (fst (exec now op s)))
  /\ (forall ops now s, R s (exec_all now ops s)).
Proof using R_refl R_trans R_create R_start R_complete.
  apply Op_Ops_ind.
  - intros sender value callId dev dur now s.
    destruct (snd (exec now (CreateCall sender value callId dev dur) s))
      eqn:E.
    + now apply R_create.
    + rewrite (exec_fst_reverted _ _ _ _ E). apply R_refl.
  - intros sender callId now s.
    destruct (snd (exec now (StartCall sender callId) s)) eqn:E.
    + now apply R_start.
    + rewrite (exec_fst_reverted _ _ _ _ E). apply R_refl.
  - intros sender callId accepts re IH now s.
    destruct (may_complete sender callId s && accepts) eqn:E.
    + apply andb_true_iff in E as [Hg ->].
      rewrite exec_complete_success by assumption. cbn.
      apply (R_complete now sender); [assumption|apply IH].
    + destruct (exec_complete_failure now sender callId accepts re s E)
        as [e ->]. apply R_refl.
  - intros now s. apply R_refl.
  - intros op IHop rest IHrest now s. cbn.
    eapply R_trans; [apply IHop|apply IHrest].
Qed.
End ExecInduction.


Lemma exec_create_success now sender value callId dev dur s :
  may_create sender value callId dev dur s = true ->
  exec now (CreateCall sender value callId dev dur) s
  = (after_create now sender value callId dev dur s, Success).
Proof.
  intros H. rewrite exec_create.
  unfold may_create in H; cbn in H.
  rewrite !andb_true_iff, !negb_true_iff in H.
  destruct H as ((((Hv & Hd) & Hz) & Hs) & Hg).
  now rewrite Hv, Hd, Hz, Hs, Hg.
Qed.

Lemma exec_create_failure now sender value callId dev dur s :
  may_create sender value callId dev dur s = false ->
  exists e, exec now (CreateCall sender value callId dev dur) s
            = (s, Reverted e).
Proof.
  rewrite exec_create. unfold may_create; cbn.
  destruct (value =? 0); [eauto|].
  destruct (dur =? 0); [eauto|].
  destruct (dev =? 0); [eauto|].
  destruct (sender =? dev); [eauto|]. cbn.
  destruct (negb (client (getCall s callId) =? 0)
            && (negb (isCompleted (getCall s callId))
                || isPaid (getCall s callId))); [eauto|].
  discriminate.
Qed.

Lemma exec_create_inv now sender value callId dev dur s :
  snd (exec now (CreateCall sender value callId dev dur) s) = Success ->
  may_create sender value callId dev dur s = true
  /\ fst (exec now (CreateCall sender value callId dev dur) s)
     = after_create now sender value callId dev dur s.
Proof.
  destruct (may_create sender value callId dev dur s) eqn:E.
  - rewrite exec_create_success by assumption. auto.
  - destruct (exec_create_failure now _ _ _ _ _ _ E) as [e ->].
    discriminate.
Qed.

Lemma exec_start_success now sender callId s :
  may_start callId s = true ->
  exec now (StartCall sender callId) s = (after_start now callId s, Success).
Proof.
  intros H. rewrite exec_start.
  unfold may_start in H; cbn in H.
  rewrite !andb_true_iff, !negb_true_iff in H.
  destruct H as ((Hc & Ha) & Hd). cbn.
  now rewrite Hc, Ha, Hd.
Qed.

Lemma exec_start_failure now sender callId s :
  may_start callId s = false ->
  exists e, exec now (StartCall sender callId) s = (s, Reverted e).
Proof.
  rewrite exec_start. unfold may_start; cbn.
  destruct (client _ =? 0); [eauto|].
  destruct (isActive _); [eauto|].
  destruct (isCompleted _); [eauto|]. discriminate.
Qed.

Lemma exec_start_inv now sender callId s :
  snd (exec now (StartCall sender callId) s) = Success ->
  may_start callId s = true
  /\ fst (exec now (StartCall sender callId) s) = after_start now callId s.
Proof.
  destruct (may_start callId s) eqn:E.
  - rewrite (exec_start_success now sender) by assumption. auto.
  - destruct (exec_start_failure now sender _ _ E) as [e ->]. discriminate.
Qed.

(** Reading a slot of the states the three bodies build. *)
Lemma getCall_after_create now sender value callId dev dur s id :
  getCall (after_create now sender value callId dev dur s) id =
  if callId =? id then mkCall sender dev value dur 0 false false false
  else getCall s id.
Proof.
  unfold after_create, getCall; cbn.
  destruct (N.eqb_spec callId id) as [->|Hne].
  - now rewrite lookup_insert_eq.
  - now rewrite lookup_insert_ne.
Qed.

Lemma getCall_after_start now callId s id :
  getCall (after_start now callId s) id =
  if callId =? id then start_at now (getCall s callId) else getCall s id.
Proof.
  unfold after_start, getCall; cbn.
  destruct (N.eqb_spec callId id) as [->|Hne].
  - now rewrite lookup_insert_eq.
  - now rewrite lookup_insert_ne.
Qed.

Lemma getCall_before_callee callId s id :
  getCall (before_callee s callId) id =
  if callId =? id then settle (getCall s callId) else getCall s id.
Proof.
  unfold before_callee, debit, getCall; cbn.
  destruct (N.eqb_spec callId id) as [->|Hne].
  - now rewrite lookup_insert_eq.
  - now rewrite lookup_insert_ne.
Qed.

Lemma getCall_after_callee now callId amt s id :
  getCall (after_callee now callId amt s) id = getCall s id.
Proof. reflexivity. Qed.

Lemma settled_true c :
  settled c = true <->
  client c <> 0 /\ isCompleted c = true /\ isPaid c = true.
Proof.
  unfold settled.
  rewrite !andb_true_iff, negb_true_iff, N.eqb_neq. tauto.
Qed.

(** No call touches a settled record or pays for it again. *)
Lemma settled_is_final :
  (forall op now s, keeps_settled s (fst (exec now op s)))
  /\ (forall ops now s, keeps_settled s (exec_all now ops s)).
Proof.
  apply exec_rel.
  - intros s id _. auto.
  - intros s1 s2 s3 H12 H23 id Hs.
    destruct (H12 id Hs) as (E1 & E2 & E3).
    destruct (H23 id) as (F1 & F2 & F3); [now rewrite E1|].
    repeat split; congruence.
  - intros now sender value callId dev dur s Hok id Hs.
    apply exec_create_inv in Hok as [Hg ->].
    rewrite getCall_after_create. cbn.
    destruct (N.eqb_spec callId id) as [->|Hne]; [|auto].
    exfalso. apply settled_true in Hs as (Hc & Hco & Hp).
    unfold may_create in Hg; cbn in Hg.
    apply N.eqb_neq in Hc. rewrite Hc, Hco, Hp in Hg.
    rewrite !andb_false_r in Hg. discriminate.
  - intros now sender callId s Hok id Hs.
    apply exec_start_inv in Hok as [Hg ->].
    rewrite getCall_after_start. cbn.
    destruct (N.eqb_spec callId id) as [->|Hne]; [|auto].
    exfalso. apply settled_true in Hs as (Hc & Hco & Hp).
    unfold may_start in Hg; cbn in Hg. rewrite Hco in Hg.
    rewrite !andb_false_r in Hg. discriminate.
  - intros now sender callId re s Hg IH id Hs.
    apply may_complete_true in Hg as (Hc & Hd & Hco & Hp & Ha & Hb).
    destruct (N.eqb_spec callId id) as [->|Hne].
    { apply settled_true in Hs as (_ & Hco' & _). congruence. }
    destruct (IH id) as (E1 & E2 & E3).
    { rewrite getCall_before_callee.
      apply N.eqb_neq in Hne. now rewrite Hne. }
    rewrite getCall_before_callee in E1.
    apply N.eqb_neq in Hne. rewrite Hne in E1.
    split; [exact E1|].
    cbn. rewrite Hne. split; [exact E2|exact E3].
Qed.

Lemma released_before_callee s callId id :
  released id (logs (before_callee s callId)) = released id (logs s).
Proof. reflexivity. Qed.

Lemma released_after_callee now callId amt s id :
  released id (logs (after_callee now callId amt s)) =
  if callId =? id then S (released id (logs s)) else released id (logs s).
Proof. reflexivity. Qed.

Lemma unsettled_not_released s id :
  ledger_inv s -> isCompleted (getCall s id) = false ->
  released id (logs s) = 0%nat.
Proof.
  intros Hinv Hc. destruct (Hinv id) as [_ [H|[_ H]]]; [exact H|].
  apply settled_true in H as (_ & H & _). congruence.
Qed.

(** Every call keeps the invariant, and keeps the terms of every existing
    record. *)
Lemma exec_keeps_inv :
  (forall op now s,
      ledger_inv s ->
      ledger_inv (fst (exec now op s)) /\ keeps_deal s (fst (exec now op s)))
  /\ (forall ops now s,
      ledger_inv s ->
      ledger_inv (exec_all now ops s) /\ keeps_deal s (exec_all now ops s)).
Proof.
  apply (exec_rel (fun s s' => ledger_inv s -> ledger_inv s' /\ keeps_deal s s')).
  - intros s Hinv. split; [exact Hinv|]. intros id _. auto.
  - intros s1 s2 s3 H12 H23 H1.
    destruct (H12 H1) as [H2 K12]. destruct (H23 H2) as [H3 K23].
    split; [exact H3|]. intros id Hc.
    destruct (K12 id Hc) as (E1 & E2 & E3 & E4).
    destruct (K23 id) as (F1 & F2 & F3 & F4); [congruence|].
    repeat split; try congruence.
    + apply E4, F4, H.
    + destruct (F4 H) as [G1 G2]. destruct (E4 G1) as [_ G3]. congruence.
  - intros now sender value callId dev dur s Hok Hinv.
    apply exec_create_inv in Hok as [Hg ->].
    assert (Hfresh : client (getCall s callId) = 0).
    { unfold may_create in Hg; cbn in Hg.
      destruct (Hinv callId) as [Hfl _].
      destruct (N.eqb_spec (client (getCall s callId)) 0) as [E|E]; [exact E|].
      rewrite Hfl in Hg. cbn in Hg.
      destruct (isPaid (getCall s callId)); cbn in Hg;
        rewrite !andb_false_r in Hg; discriminate. }
    split.
    + intros id. rewrite getCall_after_create. cbn.
      destruct (N.eqb_spec callId id) as [<-|Hne]; [|apply Hinv].
      split; [reflexivity|]. left. cbn.
      destruct (Hinv callId) as [_ [H|[_ H]]]; [exact H|].
      apply settled_true in H as (H & _). congruence.
    + intros id Hc. rewrite getCall_after_create.
      destruct (N.eqb_spec callId id) as [<-|Hne]; [congruence|auto].
  - intros now sender callId s Hok Hinv.
    apply exec_start_inv in Hok as [Hg ->].
    unfold may_start in Hg; cbn in Hg.
    rewrite !andb_true_iff, !negb_true_iff in Hg.
    destruct Hg as ((Hc & Ha) & Hd).
    split.
    + intros id. rewrite getCall_after_start. cbn.
      destruct (N.eqb_spec callId id) as [<-|Hne]; [|apply Hinv].
      destruct (Hinv callId) as [Hfl Hrel]. cbn. split; [exact Hfl|].
      left. now apply unsettled_not_released.
    + intros id _. rewrite getCall_after_start.
      destruct (N.eqb_spec callId id) as [<-|Hne]; cbn; auto.
  - intros now sender callId re s Hg IH Hinv.
    apply may_complete_true in Hg as (Hc & Hd & Hco & Hp & Ha & Hb).
    set (mid := before_callee s callId) in *.
    set (s2 := exec_all now re mid) in *.
    assert (Hmid : ledger_inv mid).
    { intros id. unfold mid. rewrite getCall_before_callee.
      rewrite released_before_callee.
      destruct (N.eqb_spec callId id) as [<-|Hne]; [|apply Hinv].
      cbn. split; [reflexivity|]. left.
      now apply unsettled_not_released. }
    destruct (IH Hmid) as [H2 K2].
    assert (Hset : settled (getCall mid callId) = true).
    { unfold mid. rewrite getCall_before_callee, N.eqb_refl.
      apply settled_true. cbn. auto. }
    destruct (proj2 settled_is_final re now mid callId Hset)
      as (Efr & Erel & _).
    fold s2 in Efr, Erel.
    assert (Erel0 : released callId (logs s2) = 0%nat).
    { rewrite Erel. unfold mid. rewrite released_before_callee.
      now apply unsettled_not_released. }
    split.
    + intros id. rewrite getCall_after_callee, released_after_callee.
      destruct (H2 id) as [Hfl Hrel]. split; [exact Hfl|].
      destruct (N.eqb_spec callId id) as [<-|Hne]; [|exact Hrel].
      right. rewrite Erel0. split; [reflexivity|]. now rewrite Efr.
    + intros id Hex. rewrite getCall_after_callee.
      assert (Hexm : client (getCall mid id) <> 0).
      { unfold mid. rewrite getCall_before_callee.
        destruct (callId =? id); [exact Hc|exact Hex]. }
      destruct (K2 id Hexm) as (E1 & E2 & E3 & E4).
      unfold mid in E1, E2, E3, E4. rewrite getCall_before_callee in *.
      destruct (N.eqb_spec callId id) as [<-|Hne].
      * cbn in E1, E2, E3.
        split; [exact E1|]. split; [exact E2|]. split; [exact E3|].
        intros Hn. destruct (E4 Hn) as [Hn' _]. discriminate Hn'.
      * auto.
Qed.


Lemma released_payments id l : released id l = length (payments id l).
Proof.
  induction l as [|ev l IH]; [reflexivity|].
  destruct ev; cbn; try exact IH.
  destruct (callId =? id); cbn; congruence.
Qed.

Lemma books_before_callee s callId :
  amount (getCall s callId) <= balance s ->
  books (before_callee s callId)
  = (books s - Z.of_N (amount (getCall s callId)))%Z.
Proof.
  intros Hb. unfold books, before_callee, debit.
  cbn [logs balance escrowed_total released_total].
  rewrite N2Z.inj_sub by exact Hb. lia.
Qed.

Lemma in_flight_before_callee s callId :
  in_flight (before_callee s callId)
  = (in_flight s + Z.of_N (amount (getCall s callId)))%Z.
Proof.
  unfold in_flight, before_callee, debit.
  cbn [logs transfers released_total transferred_total]. lia.
Qed.

Lemma books_after_callee now callId amt s :
  books (after_callee now callId amt s) = (books s + Z.of_N amt)%Z.
Proof.
  unfold books, after_callee.
  cbn [logs balance escrowed_total released_total]. lia.
Qed.

Lemma in_flight_after_callee now callId amt s :
  in_flight (after_callee now callId amt s) = (in_flight s - Z.of_N amt)%Z.
Proof.
  unfold in_flight, after_callee.
  cbn [logs transfers released_total transferred_total]. lia.
Qed.

(** Every call keeps the books balanced. *)
Lemma exec_keeps_books :
  (forall op now s,
      books (fst (exec now op s)) = books s
      /\ in_flight (fst (exec now op s)) = in_flight s)
  /\ (forall ops now s,
      books (exec_all now ops s) = books s
      /\ in_flight (exec_all now ops s) = in_flight s).
Proof.
  apply (exec_rel (fun s s' => books s' = books s
                               /\ in_flight s' = in_flight s)).
  - auto.
  - intros s1 s2 s3 [A1 A2] [B1 B2]. split; congruence.
  - intros now sender value callId dev dur s Hok.
    apply exec_create_inv in Hok as [_ ->].
    unfold books, in_flight, after_create;
      cbn [logs balance transfers escrowed_total released_total
      transferred_total]. split; lia.
  - intros now sender callId s Hok.
    apply exec_start_inv in Hok as [_ ->].
    unfold books, in_flight, after_start;
      cbn [logs balance transfers escrowed_total released_total
      transferred_total]. split; lia.
  - intros now sender callId re s Hg [IH1 IH2].
    apply may_complete_true in Hg as (_ & _ & _ & _ & _ & Hb).
    rewrite books_before_callee in IH1 by exact Hb.
    rewrite in_flight_before_callee in IH2.
    rewrite books_after_callee, in_flight_after_callee. split; lia.
Qed.

Lemma run_app txs1 txs2 s : run (txs1 ++ txs2) s = run txs2 (run txs1 s).
Proof.
  revert s. induction txs1 as [|[now op] txs1 IH]; intros s; cbn; auto.
Qed.

Lemma reachable_run txs s : reachable s -> reachable (run txs s).
Proof.
  revert s. induction txs as [|[now op] txs IH]; intros s Hs; cbn.
  - exact Hs.
  - apply IH. now constructor.
Qed.

Lemma run_keeps_settled txs s : keeps_settled s (run txs s).
Proof.
  revert s. induction txs as [|[now op] txs IH]; intros s id Hs; cbn.
  - auto.
  - destruct (proj1 settled_is_final op now s id Hs) as (E1 & E2 & E3).
    destruct (IH (fst (exec now op s)) id) as (F1 & F2 & F3);
      [now rewrite E1|].
    repeat split; congruence.
Qed.

Lemma run_keeps_inv txs s :
  ledger_inv s -> ledger_inv (run txs s) /\ keeps_deal s (run txs s).
Proof.
  revert s. induction txs as [|[now op] txs IH]; intros s Hinv; cbn.
  - split; [exact Hinv|]. intros id _. auto.
  - destruct (proj1 exec_keeps_inv op now s Hinv) as [H1 K1].
    destruct (IH _ H1) as [H2 K2]. split; [exact H2|].
    intros id Hc.
    destruct (K1 id Hc) as (E1 & E2 & E3 & E4).
    destruct (K2 id) as (F1 & F2 & F3 & F4); [congruence|].
    repeat split; try congruence.
    + apply E4, F4, H.
    + destruct (F4 H) as [G1 G2]. destruct (E4 G1) as [_ G3]. congruence.
Qed.

Lemma init_inv deployer : ledger_inv (init deployer).
Proof. intros id. cbn. auto. Qed.

(** The invariant holds in every reachable state. *)
Lemma reachable_inv s : reachable s -> ledger_inv s.
Proof.
  induction 1 as [deployer|s now op _ IH].
  - apply init_inv.
  - apply (proj1 exec_keeps_inv op now s IH).
Qed.

(** In every reachable state the balance is what was escrowed minus what
    was released, and nothing is in flight. *)
Lemma reachable_books s :
  reachable s -> books s = 0%Z /\ in_flight s = 0%Z.
Proof.
  induction 1 as [deployer|s now op _ [IH1 IH2]].
  - split; reflexivity.
  - destruct (proj1 exec_keeps_books op now s) as [E1 E2].
    split; congruence.
Qed.


(** Calls only add to the record of transfers. *)
Lemma exec_extends_transfers :
  (forall op now s,
      exists more, transfers (fst (exec now op s)) = more ++ transfers s)
  /\ (forall ops now s,
      exists more, transfers (exec_all now ops s) = more ++ transfers s).
Proof.
  apply (exec_rel (fun s s' => exists more, transfers s' = more ++ transfers s)).
  - intros s. now exists [].
  - intros s1 s2 s3 [m1 E1] [m2 E2]. exists (m2 ++ m1).
    rewrite E2, E1. apply app_assoc.
  - intros now sender value callId dev dur s Hok.
    apply exec_create_inv in Hok as [_ ->]. now exists [].
  - intros now sender callId s Hok.
    apply exec_start_inv in Hok as [_ ->]. now exists [].
  - intros now sender callId re s _ [m E].
    exists (m ++ [(developer (getCall s callId), amount (getCall s callId))]).
    cbn [after_callee transfers]. rewrite E. cbn.
    now rewrite <- app_assoc.
Qed.

(** A [completeCall] that succeeded had its guards pass and its payment
    accepted. *)
Lemma exec_complete_inv now sender callId accepts re s s' :
  exec now (CompleteCall sender callId accepts re) s = (s', Success) ->
  may_complete sender callId s = true /\ accepts = true
  /\ s' = after_callee now callId (amount (getCall s callId))
            (exec_all now re (before_callee s callId)).
Proof.
  intros H.
  destruct (may_complete sender callId s && accepts) eqn:E.
  - apply andb_true_iff in E as [Hg ->].
    rewrite exec_complete_success in H by exact Hg.
    inversion H. auto.
  - destruct (exec_complete_failure now sender callId accepts re s E)
      as [e He]. congruence.
Qed.

(** On a settled record [completeCall] fails, whoever calls. *)
Lemma exec_complete_settled now sender callId accepts re s :
  settled (getCall s callId) = true ->
  exec now (CompleteCall sender callId accepts re) s =
  (s, Reverted (if developer (getCall s callId) =? sender
                then CallAlreadyCompleted callId
                else Unauthorized sender (developer (getCall s callId)))).
Proof.
  intros Hs. apply settled_true in Hs as (Hc & Hco & Hp).
  cbn. rewrite transact_complete. cbn.
  apply N.eqb_neq in Hc. rewrite Hc.
  destruct (developer (getCall s callId) =? sender); cbn; [|reflexivity].
  now rewrite Hco.
Qed.

End LedgerFacts.

Module OrchestratorFacts.
Import Orchestrator.

Lemma try_block_attempts p st :
  attempts (fst (try_block p st)) = attempts st.
Proof.
  unfold try_block.
  destruct (receiptAnswer p) as [m|[r|]]; cbn; try reflexivity.
  destruct (status r); cbn; [|reflexivity].
  destruct (detailsAnswer p) as [m|d]; cbn; [reflexivity|].
  destruct (Ledger.isPaid d); reflexivity.
Qed.

(** The loop needs no more passes than the attempts that are left: with
    that much fuel or more it ends by its own test. *)
Lemma confirmation_loop_enough fuel polls st :
  (maxAttempts - attempts st <= fuel)%nat ->
  confirmation_loop fuel polls st
  = confirmation_loop (maxAttempts - attempts st) polls st.
Proof.
  revert st. induction fuel as [|fuel IH]; intros st Hle.
  - replace (maxAttempts - attempts st)%nat with 0%nat by lia. reflexivity.
  - destruct (maxAttempts - attempts st)%nat as [|m] eqn:Em.
    + cbn [confirmation_loop].
      replace (attempts st <? maxAttempts)%nat with false
        by (symmetry; apply Nat.ltb_ge; lia).
      now rewrite andb_false_r.
    + cbn [confirmation_loop]. destruct (receipt st); [reflexivity|].
      cbn [andb].
      destruct (attempts st <? maxAttempts)%nat; [|reflexivity].
      pose proof (try_block_attempts (polls (attempts st)) st) as Ha.
      destruct (try_block (polls (attempts st)) st) as [st' brk].
      cbn in Ha. destruct brk; [reflexivity|].
      assert (Hm : (maxAttempts - attempts (sleep_and_count st') = m)%nat)
        by (unfold sleep_and_count; cbn [attempts]; lia).
      rewrite IH by lia. now rewrite Hm.
Qed.

(** The loop leaves a receipt exactly when some pass within the ceiling
    was answered with one; whether that receipt reports success, and what
    the re-read of the call says, make no difference. *)
Lemma confirmation_loop_receipt fuel polls st :
  receipt st = None ->
  (attempts st + fuel = maxAttempts)%nat ->
  (receipt (confirmation_loop fuel polls st) <> None
   <-> exists k r, (attempts st <= k < maxAttempts)%nat
                   /\ receiptAnswer (polls k) = Returns (Some r)).
Proof.
  revert st. induction fuel as [|fuel IH]; intros st Hr Ha.
  - cbn [confirmation_loop]. rewrite Hr. split; [congruence|].
    intros (k & r & Hk & _). lia.
  - cbn [confirmation_loop]. rewrite Hr. cbn [andb].
    replace (attempts st <? maxAttempts)%nat with true
      by (symmetry; apply Nat.ltb_lt; lia).
    unfold try_block.
    destruct (receiptAnswer (polls (attempts st))) as [m|[r|]] eqn:Ea.
    + rewrite IH by (unfold sleep_and_count, caught, set_receipt;
                     cbn [attempts receipt]; auto; lia).
      unfold sleep_and_count, caught, set_receipt; cbn [attempts]. split.
      * intros (k & r & Hk & E). exists k, r. split; [lia|exact E].
      * intros (k & r & Hk & E). exists k, r. split; [|exact E].
        destruct (Nat.eq_dec k (attempts st)) as [->|]; [congruence|lia].
    + assert (Hgot : forall st',
                receipt st' = Some r ->
                receipt (confirmation_loop fuel polls st') <> None).
      { intros st' E. destruct fuel; cbn; rewrite E; cbn; congruence. }
      split; [|intros _].
      * intros _. exists (attempts st), r. split; [lia|exact Ea].
      * destruct (status r); cbn; [|now apply Hgot].
        destruct (detailsAnswer (polls (attempts st))) as [m|d]; cbn;
          [now apply Hgot|].
        destruct (Ledger.isPaid d); cbn; [congruence|now apply Hgot].
    + rewrite IH by (unfold sleep_and_count, caught, set_receipt;
                     cbn [attempts receipt]; auto; lia).
      unfold sleep_and_count, caught, set_receipt; cbn [attempts]. split.
      * intros (k & r & Hk & E). exists k, r. split; [lia|exact E].
      * intros (k & r & Hk & E). exists k, r. split; [|exact E].
        destruct (Nat.eq_dec k (attempts st)) as [->|]; [congruence|lia].
Qed.

(** [awaitConfirmation] returns the hash exactly when a receipt came
    within the ceiling, and throws otherwise. *)
Lemma awaitConfirmation_returns polls txHash :
  (exists k r, (k < maxAttempts)%nat
               /\ receiptAnswer (polls k) = Returns (Some r)) ->
  awaitConfirmation polls txHash = Returns txHash.
Proof.
  intros (k & r & Hk & E). unfold awaitConfirmation.
  destruct (receipt (confirmation_loop maxAttempts polls loop_start))
    eqn:Er; [reflexivity|].
  exfalso. revert Er.
  apply (confirmation_loop_receipt maxAttempts polls loop_start);
    [reflexivity|reflexivity|].
  exists k, r. cbn. split; [lia|exact E].
Qed.

Lemma awaitConfirmation_throws polls txHash :
  (forall k r, (k < maxAttempts)%nat ->
               receiptAnswer (polls k) <> Returns (Some r)) ->
  awaitConfirmation polls txHash
  = Throws "Transaction not confirmed after 30 seconds".
Proof.
  intros Hno. unfold awaitConfirmation.
  destruct (receipt (confirmation_loop maxAttempts polls loop_start))
    eqn:Er; [|reflexivity].
  exfalso.
  assert (H : receipt (confirmation_loop maxAttempts polls loop_start)
              <> None) by congruence.
  apply (confirmation_loop_receipt maxAttempts polls loop_start) in H;
    [|reflexivity|reflexivity].
  destruct H as (k & r' & Hk & E). apply (Hno k r'); [lia|exact E].
Qed.

End OrchestratorFacts.

Module CoordinatorFacts.
Import Orchestrator Coordinator.
Local Open Scope string_scope.
Local Open Scope list_scope.

Section Component.
Variable keccak256 : string -> N.
Variable Num : Type.
Variable weiToCelo : N -> Num.
Variable num_lt : Num -> Num -> bool.
Variable capped : N -> N.

Let completeCall := web3Service_completeCall keccak256 Num weiToCelo
                      num_lt capped.
Let processPayment := processPayment keccak256 Num weiToCelo num_lt capped.
Let end_call := end_call keccak256 Num weiToCelo num_lt capped.
Let handleCallEnd := handleCallEnd keccak256 Num weiToCelo num_lt capped.
Let end_triggers := end_triggers keccak256 Num weiToCelo num_lt capped.

(** One [completeCall] of the service hands the wallet at most one
    transaction, and exactly one when its promise resolves. *)
Lemma completeCall_sent rpc id :
  (length (snd (completeCall rpc id)) <= 1)%nat
  /\ (forall h, fst (completeCall rpc id) = Resolved h ->
                length (snd (completeCall rpc id)) = 1%nat).
Proof.
  unfold completeCall, web3Service_completeCall, Orchestrator.completeCall.
  destruct (prepare _ _ _ _ _ rpc id) as [m|tx]; cbn.
  { split; [lia|discriminate]. }
  destruct (sendTransaction rpc) as [m|h]; cbn.
  { split; [lia|discriminate]. }
  destruct (awaitConfirmation (polls rpc) h); cbn; split; auto.
Qed.

Lemma submissions_app fx1 fx2 :
  submissions (fx1 ++ fx2) = submissions fx1 ++ submissions fx2.
Proof.
  induction fx1 as [|e fx1 IH]; [reflexivity|].
  destruct e; cbn; try exact IH. now rewrite IH, app_assoc.
Qed.

(** What one [processPayment] leaves: the transactions are those of its
    one [completeCall]; it navigates to the developer's dashboard
    exactly when the payment resolved and the store took the update,
    and then it leaves the flag as it found it; when it fails and
    returns, it has cleared the flag. *)
Lemma processPayment_run env data l :
  let r := fst (processPayment env data l) in
  submissions (snd r) = snd (completeCall (rpc env) (data_callId data))
  /\ (In (Navigate "/developer-dashboard") (snd r) ->
      (exists h, fst (completeCall (rpc env) (data_callId data))
                 = Resolved h)
      /\ snd (processPayment env data l) = None
      /\ isCallEnding (state (fst r)) = isCallEnding (state l))
  /\ (~ In (Navigate "/developer-dashboard") (snd r) ->
      snd (processPayment env data l) = None ->
      isCallEnding (state (fst r)) = false)
  /\ ~ In (Navigate "/client-dashboard") (snd r).
Proof.
  unfold processPayment, Coordinator.processPayment. fold completeCall.
  destruct (completeCall (rpc env) (data_callId data)) as [settled sent].
  cbn [fst snd].
  destruct settled as [m|h].
  - destruct (updateError env); cbn; rewrite app_nil_r.
    all: split; [reflexivity|].
    all: split; [intros [H|[H|[]]]; discriminate|].
    all: split; [|intuition congruence].
    all: intros _ H; try discriminate; reflexivity.
  - destruct (updatePaid env) as [m|[]].
    + destruct (updateError env); cbn; rewrite app_nil_r.
      all: split; [reflexivity|].
      all: split; [intros [H|[H|[H|[]]]]; discriminate|].
      all: split; [|intuition congruence].
      all: intros _ H; try discriminate; reflexivity.
    + cbn. rewrite app_nil_r.
      split; [reflexivity|]. split.
      { intros _. split; [now exists h|]. split; reflexivity. }
      split; [|intuition congruence].
      intros H. exfalso. apply H. auto.
Qed.

Ltac in_cases :=
  exfalso;
  repeat match goal with
         | H : False |- _ => destruct H
         | H : _ \/ _ |- _ => destruct H
         | H : @eq Effect _ _ |- _ => discriminate H
         | H : In _ _ |- _ => progress cbn in H
         end.

Lemma not_in_done (stop lasted : list Effect) path c :
  (forall e, In e lasted -> exists f, e = UpdateDoc f) ->
  (forall e, In e stop -> e = ClearInterval) ->
  ~ In (Navigate path) ([LeaveChannel; UpdateDoc c] ++ lasted ++ stop).
Proof.
  intros Hl Hs. cbn [app]. intros [H|[H|H]]; try discriminate.
  apply in_app_or in H as [H|H].
  - destruct (Hl _ H). discriminate.
  - specialize (Hs _ H). discriminate.
Qed.

Lemma submissions_done (stop lasted : list Effect) c :
  (forall e, In e lasted -> exists f, e = UpdateDoc f) ->
  (forall e, In e stop -> e = ClearInterval) ->
  submissions ([LeaveChannel; UpdateDoc c] ++ lasted ++ stop) = [].
Proof.
  intros Hl Hs. cbn. rewrite submissions_app.
  assert (A : submissions lasted = []).
  { induction lasted as [|e ls IH]; [reflexivity|].
    destruct (Hl e (or_introl eq_refl)) as [f ->]. cbn.
    apply IH. intros e' He'. apply Hl. now right. }
  assert (B : submissions stop = []).
  { induction stop as [|e ls IH]; [reflexivity|].
    rewrite (Hs e (or_introl eq_refl)). cbn.
    apply IH. intros e' He'. apply Hs. now right. }
  now rewrite A, B.
Qed.

(** One run of the end routine past its guard.  It hands the wallet at
    most one transaction, and none unless the user is the developer of
    the call.  It ends in one of three ways: on the developer's
    dashboard, with one transaction sent and the flag still set; on the
    client's dashboard, with none sent and the flag still set; or
    failed, staying on the page with the flag cleared. *)
Lemma end_call_run env seen data l :
  let r := end_call env seen data l in
  (length (submissions (snd r)) <= 1)%nat
  /\ (user seen <> Some (developerId data) -> submissions (snd r) = [])
  /\ (went_to "/developer-dashboard" r ->
      length (submissions (snd r)) = 1%nat
      /\ isCallEnding (state (fst r)) = true)
  /\ (went_to "/client-dashboard" r ->
      submissions (snd r) = []
      /\ isCallEnding (state (fst r)) = true)
  /\ (~ went_to "/developer-dashboard" r ->
      ~ went_to "/client-dashboard" r ->
      isCallEnding (state (fst r)) = false).
Proof.
  unfold end_call, Coordinator.end_call, went_to.
  fold processPayment.
  set (T := getServerTimestamp (endClock env)).
  set (completed := UpdateDoc _).
  destruct (leaveChannel env) as [m|[]].
  { cbn. repeat split; intros; try lia; try reflexivity; in_cases. }
  destruct (updateStatus env) as [m|[]].
  { cbn. repeat split; intros; try lia; try reflexivity; in_cases. }
  set (lasted := match startTime data with Some _ => _ | None => _ end).
  assert (Hl : forall e, In e lasted -> exists f, e = UpdateDoc f).
  { unfold lasted. destruct (startTime data); cbn; [|tauto].
    intros e [<-|[]]. eauto. }
  set (stop := if timerInterval _ then _ else _).
  assert (Hs : forall e, In e stop -> e = ClearInterval).
  { unfold stop. destruct (timerInterval _); cbn; [|tauto].
    intros e [<-|[]]. reflexivity. }
  destruct (if match lasted with [] => false | _ => true end
            then updateDuration env else Returns tt) as [m|[]].
  { cbn [end_failed fst snd].
    assert (A : submissions ([LeaveChannel; completed] ++ lasted) = []).
    { generalize (submissions_done [] lasted
                    [("x", FBool true)] Hl ltac:(cbn; tauto)).
      cbn. rewrite !submissions_app. cbn. now rewrite app_nil_r. }
    assert (B : forall p, ~ In (Navigate p)
                             ([LeaveChannel; completed] ++ lasted)).
    { intros p [H|[H|H]]; try discriminate.
      destruct (Hl _ H). discriminate. }
    rewrite A. cbn. repeat split; intros; try lia; try reflexivity.
    all: exfalso; match goal with H : _ \/ _ |- _ => exact (B _ H) end. }
  set (done := [LeaveChannel; completed] ++ lasted ++ stop).
  assert (Hdone : submissions done = [])
    by (apply submissions_done; assumption).
  assert (Hnav : forall p, ~ In (Navigate p) done)
    by (intros p; apply not_in_done; assumption).
  set (l1 := setTimerInterval false (setIsCallEnding true l)).
  destruct (match user seen with
            | Some uid => String.eqb uid (developerId data)
            | None => false
            end && negb (String.eqb (walletAddress data) "")
            && negb (totalAmount data =? 0)%Z
            && negb (String.eqb (data_callId data) "")) eqn:Hdev.
  - pose proof (processPayment_run (payment env) data l1)
      as (P1 & P2 & P3 & P4).
    pose proof (completeCall_sent (rpc (payment env)) (data_callId data))
      as [S1 S2].
    destruct (processPayment (payment env) data l1) as [[l2 fx] [m|]];
      cbn [fst snd] in *.
    + (* the store update in its catch threw *)
      unfold end_failed; cbn [fst snd].
      rewrite submissions_app, Hdone, P1. cbn [app].
      split; [exact S1|]. split.
      { intros Hu. exfalso.
        destruct (user seen) as [uid|]; [|discriminate].
        rewrite !andb_true_iff in Hdev. destruct Hdev as (((E & _) & _) & _).
        apply String.eqb_eq in E. congruence. }
      split.
      { intros H. apply in_app_or in H as [H|H]; [now apply Hnav in H|].
        destruct (P2 H) as (_ & E & _). discriminate. }
      split.
      { intros H. apply in_app_or in H as [H|H]; [now apply Hnav in H|].
        now apply P4 in H. }
      reflexivity.
    + rewrite submissions_app, Hdone, P1. cbn [app].
      split; [exact S1|]. split.
      { intros Hu. exfalso.
        destruct (user seen) as [uid|]; [|discriminate].
        rewrite !andb_true_iff in Hdev. destruct Hdev as (((E & _) & _) & _).
        apply String.eqb_eq in E. congruence. }
      split.
      { intros H. apply in_app_or in H as [H|H]; [now apply Hnav in H|].
        destruct (P2 H) as ((h & Eh) & _ & E). split; [now apply (S2 h)|].
        rewrite E. reflexivity. }
      split.
      { intros H. apply in_app_or in H as [H|H]; [now apply Hnav in H|].
        now apply P4 in H. }
      intros Hn _. apply P3; [|reflexivity].
      intros H. apply Hn. apply in_or_app. now right.
  - cbn [fst snd]. rewrite submissions_app, Hdone.
    cbn [submissions app length].
    split; [lia|]. split; [reflexivity|]. split.
    { intros H. apply in_app_or in H as [H|[H|[]]];
        [now apply Hnav in H|discriminate]. }
    split; [auto|].
    intros _ H. exfalso. apply H. apply in_or_app. right. now left.
Qed.

(** A handler created in a render that saw the flag set returns at once:
    it changes nothing and does nothing. *)
Lemma handleCallEnd_in_flight env seen l :
  isCallEnding seen = true -> handleCallEnd env seen l = (l, []).
Proof.
  intros H. unfold handleCallEnd, Coordinator.handleCallEnd, returns_at_once.
  destruct (callData seen), (callId seen); try reflexivity.
  now rewrite H, orb_true_r.
Qed.

Lemma handleCallEnd_cases env seen l :
  handleCallEnd env seen l = (l, [])
  \/ exists data, callData seen = Some data
                  /\ returns_at_once seen = false
                  /\ handleCallEnd env seen l = end_call env seen data l.
Proof.
  unfold handleCallEnd, Coordinator.handleCallEnd.
  destruct (returns_at_once seen) eqn:E; [now left|].
  destruct (callData seen) as [data|]; [|now left].
  right. exists data. auto.
Qed.

(** Triggers that find the flag set add nothing. *)
Lemma end_triggers_in_flight envs l :
  isCallEnding (state l) = true -> end_triggers envs l = (l, []).
Proof.
  intros H. induction envs as [|env envs IH]; [reflexivity|].
  cbn. fold handleCallEnd end_triggers.
  rewrite handleCallEnd_in_flight by exact H. now rewrite IH.
Qed.

End Component.

End CoordinatorFacts.

(** * The claims about the ledger *)

Module LedgerClaims.
Import Ledger LedgerFacts.

(** C1.  [completeCall] pays a call at most once.  Take a call that an
    account [cl] escrowed [v] for, with developer [dev], in a reachable
    state, and let any transactions follow.  The first [completeCall] for
    its id that succeeds was sent by [dev]; it leaves the record with
    [isCompleted] and [isPaid] set and [amount] zero; the log, which had no
    payment for the id, has exactly the payment of [v] to [dev]; the
    transfer of [v] to [dev] is the first the call makes (a recipient that
    makes no calls back leaves it the only one, and the balance lower by
    exactly [v]).  After that, whatever transactions follow, every
    [completeCall] for the id reverts: with [CallAlreadyCompleted] when
    [dev] sends it (the check of [isCompleted] comes before that of
    [isPaid], so the text "Payment already released" is never reached), and
    with [Unauthorized] for any other sender; the log keeps its single
    payment for the id, and the balance stays what the log says was
    escrowed minus what it says was released. *)
Theorem completeCall_pays_once
    s0 t0 cl v id dev dur s1 txs t1 sender accepts re s3 :
  reachable s0 ->
  cl <> 0 ->
  exec t0 (CreateCall cl v id dev dur) s0 = (s1, Success) ->
  exec t1 (CompleteCall sender id accepts re) (run txs s1) = (s3, Success) ->
  sender = dev
  /\ isCompleted (getCall s3 id) = true
  /\ isPaid (getCall s3 id) = true
  /\ amount (getCall s3 id) = 0
  /\ payments id (logs (run txs s1)) = []
  /\ payments id (logs s3) = [(dev, v)]
  /\ (exists nested,
        transfers s3 = nested ++ (dev, v) :: transfers (run txs s1))
  /\ (re = Done ->
      transfers s3 = (dev, v) :: transfers (run txs s1)
      /\ v <= balance (run txs s1)
      /\ balance s3 = balance (run txs s1) - v)
  /\ (forall txs' t2 sender' accepts' re',
        exec t2 (CompleteCall sender' id accepts' re') (run txs' s3)
        = (run txs' s3,
           Reverted (if dev =? sender' then CallAlreadyCompleted id
                     else Unauthorized sender' dev))
        /\ payments id (logs (run txs' s3)) = [(dev, v)]
        /\ Z.of_N (balance (run txs' s3))
           = (escrowed_total (logs (run txs' s3))
              - released_total (logs (run txs' s3)))%Z).
Proof.
  intros Hreach Hcl Hcreate Hcomplete.
  set (s2 := run txs s1) in *.
  (* the record as created *)
  assert (Hs1 : s1 = fst (exec t0 (CreateCall cl v id dev dur) s0))
    by now rewrite Hcreate.
  assert (Hr1 : reachable s1) by (rewrite Hs1; now constructor).
  assert (Hc1 : getCall s1 id = mkCall cl dev v dur 0 false false false).
  { destruct (exec_create_inv t0 cl v id dev dur s0) as [_ E];
      [now rewrite Hcreate|].
    rewrite Hs1, E, getCall_after_create, N.eqb_refl. reflexivity. }
  (* the record when it is completed *)
  assert (Hr2 : reachable s2) by now apply reachable_run.
  pose proof (reachable_inv _ Hr1) as Hi1.
  destruct (run_keeps_inv txs s1 Hi1) as [Hi2 K12]. fold s2 in Hi2, K12.
  destruct (K12 id) as (E1 & E2 & E3 & E4); [now rewrite Hc1|].
  rewrite Hc1 in E1, E2, E3, E4. cbn in E1, E2, E3, E4.
  apply exec_complete_inv in Hcomplete as (Hg & -> & Hs3).
  pose proof Hg as Hg'.
  apply may_complete_true in Hg' as (G1 & G2 & G3 & G4 & G5 & G6).
  destruct (E4 G3) as [_ Ev].
  set (mid := before_callee s2 id) in *.
  assert (Hmid : settled (getCall mid id) = true).
  { unfold mid. rewrite getCall_before_callee, N.eqb_refl.
    apply settled_true. cbn. auto. }
  destruct (proj2 settled_is_final re t1 mid id Hmid) as (F1 & F2 & F3).
  unfold mid in F1 at 2. rewrite getCall_before_callee, N.eqb_refl in F1.
  assert (Hp2 : payments id (logs s2) = []).
  { pose proof (unsettled_not_released s2 id Hi2 G3) as H0.
    rewrite released_payments in H0.
    now destruct (payments id (logs s2)). }
  assert (Hp3 : payments id (logs s3) = [(dev, v)]).
  { rewrite Hs3. cbn [after_callee logs payments]. rewrite N.eqb_refl.
    fold mid. rewrite F3. unfold mid at 2. cbn [before_callee debit logs payments].
    rewrite Hp2, F1. cbn. now rewrite E2, Ev. }
  assert (Hset3 : settled (getCall s3 id) = true).
  { rewrite Hs3, getCall_after_callee. fold mid. rewrite F1.
    apply settled_true. cbn. auto. }
  assert (Hr3 : reachable s3).
  { replace s3 with (fst (exec t1 (CompleteCall sender id true re) s2)).
    - now constructor.
    - rewrite exec_complete_success by exact Hg. now rewrite Hs3. }
  assert (Hd3 : developer (getCall s3 id) = dev).
  { rewrite Hs3, getCall_after_callee. fold mid. rewrite F1. cbn. exact E2. }
  split; [congruence|].
  split; [now apply settled_true in Hset3 as (_ & H & _)|].
  split; [now apply settled_true in Hset3 as (_ & _ & H)|].
  split; [rewrite Hs3, getCall_after_callee; fold mid; now rewrite F1|].
  split; [exact Hp2|]. split; [exact Hp3|].
  split.
  { destruct (proj2 exec_extends_transfers re t1 mid) as [m Em].
    exists m. rewrite Hs3. cbn [after_callee transfers]. fold mid.
    rewrite Em. unfold mid. cbn [before_callee debit transfers].
    now rewrite E2, Ev. }
  split.
  { intros ->. rewrite Hs3. cbn. rewrite E2, Ev. rewrite Ev in G6. auto. }
  intros txs' t2 sender' accepts' re'.
  destruct (run_keeps_settled txs' s3 id Hset3) as (H1 & _ & H3).
  split; [|split].
  - rewrite exec_complete_settled by now rewrite H1.
    now rewrite H1, Hd3.
  - now rewrite H3.
  - pose proof (reachable_run txs' s3 Hr3) as Hr4.
    destruct (reachable_books _ Hr4) as [Hb _]. unfold books in Hb. lia.
Qed.


Lemma completeCall_pays_once_witness :
  let s1 := fst (exec 10 (CreateCall 1 100 7 2 1800) (init 9)) in
  let txs := [(15, StartCall 3 7); (16, CreateCall 4 50 8 2 600)] in
  let again := Then (CompleteCall 2 7 true Done) Done in
  let s3 := fst (exec 20 (CompleteCall 2 7 true again) (run txs s1)) in
  reachable (init 9) /\ 1 <> 0
  /\ exec 10 (CreateCall 1 100 7 2 1800) (init 9) = (s1, Success)
  /\ exec 20 (CompleteCall 2 7 true again) (run txs s1) = (s3, Success)
  /\ payments 7 (logs s3) = [(2, 100)]
  /\ exec 30 (CompleteCall 2 7 true Done) s3
     = (s3, Reverted (CallAlreadyCompleted 7)).
Proof.
  intros s1 txs again s3.
  assert (H0 : reachable (init 9)) by constructor.
  assert (H1 : 1 <> 0) by discriminate.
  assert (H2 : exec 10 (CreateCall 1 100 7 2 1800) (init 9) = (s1, Success))
    by (vm_compute; reflexivity).
  assert (H3 : exec 20 (CompleteCall 2 7 true again) (run txs s1)
               = (s3, Success)) by (vm_compute; reflexivity).
  destruct (completeCall_pays_once _ _ _ _ _ _ _ _ _ _ _ _ _ _ H0 H1 H2 H3)
    as (_ & _ & _ & _ & _ & Hp & _ & _ & Hlater).
  split; [exact H0|]. split; [exact H1|]. split; [exact H2|].
  split; [exact H3|]. split; [exact Hp|].
  exact (proj1 (Hlater [] 30 2 true Done)).
Defined.

(** C10.  In every state reachable from deployment by [createCall],
    [startCall] and [completeCall] (re-entrant calls included), every
    record has [isCompleted] equal to [isPaid]; so the one case in which
    [createCall] goes on when a record exists ([isCompleted] and not
    [isPaid]) never arises: a [createCall] for an id whose record exists
    reverts, and a [createCall] that succeeds found no record. *)
Theorem flags_agree_and_no_reuse s :
  reachable s ->
  (forall id c, calls s !! id = Some c -> isCompleted c = isPaid c)
  /\ (forall id,
        client (getCall s id) <> 0 ->
        isCompleted (getCall s id) && negb (isPaid (getCall s id)) = false)
  /\ (forall id now sender value dev dur,
        client (getCall s id) <> 0 ->
        exists e, exec now (CreateCall sender value id dev dur) s
                  = (s, Reverted e))
  /\ (forall id now sender value dev dur s',
        exec now (CreateCall sender value id dev dur) s = (s', Success) ->
        client (getCall s id) = 0 /\ doesCallExist s id = false).
Proof.
  intros Hr. pose proof (reachable_inv s Hr) as Hinv.
  assert (Hfl : forall id, isCompleted (getCall s id) = isPaid (getCall s id))
    by (intros id; apply Hinv).
  assert (Hno : forall id sender value dev dur,
             client (getCall s id) <> 0 ->
             may_create sender value id dev dur s = false).
  { intros id sender value dev dur Hc. unfold may_create; cbn.
    apply N.eqb_neq in Hc. rewrite Hc, (Hfl id).
    destruct (isPaid (getCall s id)); cbn; now rewrite !andb_false_r. }
  split; [|split; [|split]].
  - intros id c Hl. specialize (Hfl id). unfold getCall in Hfl.
    now rewrite Hl in Hfl.
  - intros id _. rewrite (Hfl id). now destruct (isPaid (getCall s id)).
  - intros id now sender value dev dur Hc.
    apply exec_create_failure. now apply Hno.
  - intros id now sender value dev dur s' Hok.
    assert (Hz : client (getCall s id) = 0).
    { destruct (N.eq_dec (client (getCall s id)) 0) as [E|E]; [exact E|].
      destruct (exec_create_failure now sender value id dev dur s
                  (Hno id sender value dev dur E)) as [e He].
      congruence. }
    split; [exact Hz|]. unfold doesCallExist. now rewrite Hz.
Qed.

Lemma flags_agree_and_no_reuse_witness :
  let s := run [(10, CreateCall 1 100 7 2 1800);
                (20, CompleteCall 2 7 true Done)] (init 9) in
  reachable s
  /\ isCompleted (getCall s 7) = isPaid (getCall s 7)
  /\ exists e, exec 30 (CreateCall 1 100 7 2 1800) s = (s, Reverted e).
Proof.
  intros s.
  assert (Hr : reachable s) by (apply reachable_run; constructor).
  destruct (flags_agree_and_no_reuse s Hr) as (H1 & _ & H3 & _).
  split; [exact Hr|]. split.
  - apply (H1 7). vm_compute. reflexivity.
  - apply (H3 7). vm_compute. discriminate.
Defined.


(** C2, as stated, fails.  After a call has been created and then
    completed, its record exists with [isCompleted] and [isPaid] both
    set; the claim says [createCall] may then reuse the id, but it reverts
    with [CallAlreadyExists]. *)
Lemma recreate_after_payment_reverts :
  let s := run [(10, CreateCall 1 100 7 2 1800);
                (20, CompleteCall 2 7 true Done)] (init 9) in
  client (getCall s 7) <> 0
  /\ isCompleted (getCall s 7) && isPaid (getCall s 7) = true
  /\ exec 30 (CreateCall 1 100 7 2 1800) s
     = (s, Reverted (CallAlreadyExists 7)).
Proof.
  cbv zeta. split; [|split].
  - vm_compute. discriminate.
  - vm_compute. reflexivity.
  - vm_compute. reflexivity.
Qed.

(** C2, amended.  Where a record exists for [callId] and the four input
    checks pass, [createCall] reverts with [CallAlreadyExists] unless the
    record has [isCompleted] set and [isPaid] clear; in that one case it
    succeeds and replaces the record. *)
Theorem createCall_on_existing_record now sender value callId dev dur s :
  client (getCall s callId) <> 0 ->
  value <> 0 -> dur <> 0 -> dev <> 0 -> sender <> dev ->
  exec now (CreateCall sender value callId dev dur) s =
  if isCompleted (getCall s callId) && negb (isPaid (getCall s callId))
  then (after_create now sender value callId dev dur s, Success)
  else (s, Reverted (CallAlreadyExists callId)).
Proof.
  intros Hc Hv Hd Hz Hs. rewrite exec_create.
  apply N.eqb_neq in Hc, Hv, Hd, Hz, Hs. rewrite Hc, Hv, Hd, Hz, Hs. cbn.
  destruct (isCompleted (getCall s callId)), (isPaid (getCall s callId));
    reflexivity.
Qed.

Lemma createCall_on_existing_record_witness :
  let s := fst (exec 10 (CreateCall 1 100 7 2 1800) (init 9)) in
  client (getCall s 7) <> 0
  /\ exec 11 (CreateCall 3 40 7 2 600) s = (s, Reverted (CallAlreadyExists 7)).
Proof.
  intros s.
  assert (Hc : client (getCall s 7) <> 0) by (vm_compute; discriminate).
  split; [exact Hc|].
  rewrite (createCall_on_existing_record 11 3 40 7 2 600 s Hc);
    [vm_compute; reflexivity|discriminate..].
Defined.

(** C3.  [completeCall] is all-or-nothing around the payment.  When its
    guards pass, the recipient's code runs in one state [mid], in which
    the record already has [isCompleted] and [isPaid] set and [amount]
    zero, and the value has left the balance.  If the recipient's frame
    fails there, the call reverts with [PaymentFailed] for the developer
    and the amount, and the state is the one the call started from:
    record, balance, log and transfers. *)
Theorem completeCall_failed_transfer_reverts now sender callId s :
  may_complete sender callId s = true ->
  exists mid,
    isCompleted (getCall mid callId) = true
    /\ isPaid (getCall mid callId) = true
    /\ amount (getCall mid callId) = 0
    /\ balance mid = balance s - amount (getCall s callId)
    /\ transfers mid
       = (developer (getCall s callId), amount (getCall s callId))
           :: transfers s
    /\ (forall callee,
          transact 0 (completeCall (mkEnv sender 0 now) callId callee) s =
          match callee mid with
          | None =>
              (s, Reverted (PaymentFailed (developer (getCall s callId))
                                          (amount (getCall s callId))))
          | Some s2 =>
              (after_callee now callId (amount (getCall s callId)) s2,
               Success)
          end)
    /\ (forall re,
          exec now (CompleteCall sender callId false re) s =
          (s, Reverted (PaymentFailed (developer (getCall s callId))
                                      (amount (getCall s callId))))).
Proof.
  intros Hg. apply may_complete_true in Hg as (Hc & Hd & Hco & Hp & Ha & Hb).
  apply N.eqb_neq in Hc, Ha. apply N.eqb_eq in Hd. apply N.ltb_ge in Hb.
  exists (before_callee s callId).
  rewrite getCall_before_callee, N.eqb_refl. cbn.
  repeat split.
  - intros callee. rewrite transact_complete. cbn.
    now rewrite Hc, Hd, Hco, Hp, Ha, Hb.
  - intros re. rewrite transact_complete. cbn.
    now rewrite Hc, Hd, Hco, Hp, Ha, Hb.
Qed.

Lemma completeCall_failed_transfer_reverts_witness :
  let s := fst (exec 10 (CreateCall 1 100 7 2 1800) (init 9)) in
  may_complete 2 7 s = true
  /\ exec 20 (CompleteCall 2 7 false Done) s
     = (s, Reverted (PaymentFailed 2 100)).
Proof.
  intros s.
  assert (Hg : may_complete 2 7 s = true) by (vm_compute; reflexivity).
  split; [exact Hg|].
  destruct (completeCall_failed_transfer_reverts 20 2 7 s Hg)
    as (mid & _ & _ & _ & _ & _ & _ & H).
  exact (H Done).
Defined.

(** C4.  A [createCall] with no value attached, a zero duration, the zero
    address as developer, or the sender as developer reverts, and the
    state is the one the call started from: storage, balance and log (the
    [Debug] event emitted before the checks goes with the revert).  The
    checks run in that order, so the error is that of the first one the
    input fails. *)
Theorem createCall_rejects_bad_input now sender value callId dev dur s :
  value = 0 \/ dur = 0 \/ dev = 0 \/ sender = dev ->
  exists e,
    exec now (CreateCall sender value callId dev dur) s = (s, Reverted e)
    /\ (value = 0 -> e = InvalidAmount value)
    /\ (value <> 0 -> dur = 0 -> e = InvalidDuration dur)
    /\ (value <> 0 -> dur <> 0 -> dev = 0 -> e = InvalidDeveloper dev)
    /\ (value <> 0 -> dur <> 0 -> dev <> 0 -> sender = dev ->
        e = SelfBookingNotAllowed sender).
Proof.
  intros H. rewrite exec_create.
  destruct (N.eqb_spec value 0) as [Hv|Hv].
  { eexists. split; [reflexivity|]. repeat split; congruence. }
  destruct (N.eqb_spec dur 0) as [Hd|Hd].
  { eexists. split; [reflexivity|]. repeat split; congruence. }
  destruct (N.eqb_spec dev 0) as [Hz|Hz].
  { eexists. split; [reflexivity|]. repeat split; congruence. }
  destruct (N.eqb_spec sender dev) as [Hs|Hs].
  { eexists. split; [reflexivity|]. repeat split; congruence. }
  exfalso. destruct H as [H|[H|[H|H]]]; congruence.
Qed.

Lemma createCall_rejects_bad_input_witness :
  (0 = 0 \/ 1800 = 0 \/ 2 = 0 \/ 1 = 2)
  /\ exec 10 (CreateCall 1 0 7 2 1800) (init 9)
     = (init 9, Reverted (InvalidAmount 0)).
Proof.
  assert (H : 0 = 0 \/ 1800 = 0 \/ 2 = 0 \/ 1 = 2) by (left; reflexivity).
  split; [exact H|].
  destruct (createCall_rejects_bad_input 10 1 0 7 2 1800 (init 9) H)
    as (e & He & Hv & _).
  rewrite He, (Hv eq_refl). reflexivity.
Defined.

(** C6.  [startCall] reverts with [CallNotFound] when no record exists,
    with [CallAlreadyStarted] when the record has [isActive] set, and with
    [CallAlreadyCompleted] when it has [isCompleted] set (the checks run
    in that order).  Otherwise it succeeds, whoever the sender is: it sets
    [isActive], sets [startTime] to the block time, leaves the other six
    fields, every other record and the balance as they were.  The sender
    plays no part in the outcome. *)
Theorem startCall_behaviour now sender callId s :
  (client (getCall s callId) = 0 ->
   exec now (StartCall sender callId) s = (s, Reverted (CallNotFound callId)))
  /\ (client (getCall s callId) <> 0 ->
      isActive (getCall s callId) = true ->
      exec now (StartCall sender callId) s
      = (s, Reverted (CallAlreadyStarted callId)))
  /\ (client (getCall s callId) <> 0 ->
      isActive (getCall s callId) = false ->
      isCompleted (getCall s callId) = true ->
      exec now (StartCall sender callId) s
      = (s, Reverted (CallAlreadyCompleted callId)))
  /\ (client (getCall s callId) <> 0 ->
      isActive (getCall s callId) = false ->
      isCompleted (getCall s callId) = false ->
      exists s',
        exec now (StartCall sender callId) s = (s', Success)
        /\ isActive (getCall s' callId) = true
        /\ startTime (getCall s' callId) = now
        /\ client (getCall s' callId) = client (getCall s callId)
        /\ developer (getCall s' callId) = developer (getCall s callId)
        /\ amount (getCall s' callId) = amount (getCall s callId)
        /\ duration (getCall s' callId) = duration (getCall s callId)
        /\ isCompleted (getCall s' callId) = isCompleted (getCall s callId)
        /\ isPaid (getCall s' callId) = isPaid (getCall s callId)
        /\ (forall id, id <> callId -> getCall s' id = getCall s id)
        /\ balance s' = balance s)
  /\ (forall sender',
        exec now (StartCall sender' callId) s
        = exec now (StartCall sender callId) s).
Proof.
  split; [|split; [|split; [|split]]];
    [..|intros sender'; now rewrite !exec_start]; rewrite exec_start; cbn.
  - intros Hc. apply N.eqb_eq in Hc. now rewrite Hc.
  - intros Hc Ha. apply N.eqb_neq in Hc. now rewrite Hc, Ha.
  - intros Hc Ha Hd. apply N.eqb_neq in Hc. now rewrite Hc, Ha, Hd.
  - intros Hc Ha Hd. apply N.eqb_neq in Hc. rewrite Hc, Ha, Hd.
    eexists. split; [reflexivity|].
    fold (after_start now callId s).
    rewrite getCall_after_start, N.eqb_refl. cbn.
    repeat split; try congruence.
    intros id Hne. rewrite getCall_after_start.
    apply not_eq_sym, N.eqb_neq in Hne. now rewrite Hne.
Qed.

Lemma startCall_behaviour_witness :
  let s := fst (exec 10 (CreateCall 1 100 7 2 1800) (init 9)) in
  client (getCall s 7) <> 0
  /\ isActive (getCall s 7) = false
  /\ isCompleted (getCall s 7) = false
  /\ exists s', exec 15 (StartCall 3 7) s = (s', Success)
                /\ isActive (getCall s' 7) = true
                /\ startTime (getCall s' 7) = 15.
Proof.
  intros s.
  assert (Hc : client (getCall s 7) <> 0) by (vm_compute; discriminate).
  assert (Ha : isActive (getCall s 7) = false) by (vm_compute; reflexivity).
  assert (Hd : isCompleted (getCall s 7) = false)
    by (vm_compute; reflexivity).
  split; [exact Hc|]. split; [exact Ha|]. split; [exact Hd|].
  destruct (startCall_behaviour 15 3 7 s) as (_ & _ & _ & H & _).
  destruct (H Hc Ha Hd) as (s' & E & E1 & E2 & _).
  exists s'. auto.
Defined.

End LedgerClaims.

(** * The claims about the orchestrator *)

Module OrchestratorClaims.
Import Orchestrator OrchestratorFacts.

Section Service.
Variable keccak256 : string -> N.
Variable Num : Type.
Variable weiToCelo : N -> Num.
Variable num_lt : Num -> Num -> bool.
Variable capped : N -> N.

(** C5 does not hold of the code.  Let the transaction be sent and let
    some pass of the confirmation loop, within its thirty, be answered
    with a receipt.  If that receipt reports failure, or if it reports
    success and the record read back has [isPaid] false, the [throw] that
    the loop makes lands in the loop's own [catch], which prints it; the
    receipt has been stored by then, so the loop ends, the check after it
    passes, and [completeCall] resolves with the transaction hash. *)
Theorem failed_confirmation_resolves rpc callId txParams txHash k r :
  prepare keccak256 Num weiToCelo num_lt capped rpc callId
  = Returns txParams ->
  sendTransaction rpc = Returns txHash ->
  (k < maxAttempts)%nat ->
  receiptAnswer (polls rpc k) = Returns (Some r) ->
  status r = false
  \/ (exists updatedCall, detailsAnswer (polls rpc k) = Returns updatedCall
                          /\ Ledger.isPaid updatedCall = false) ->
  completeCall keccak256 Num weiToCelo num_lt capped rpc callId
  = (Resolved txHash, [txParams]).
Proof.
  intros Hp Hs Hk Hr _. unfold completeCall. rewrite Hp, Hs.
  rewrite awaitConfirmation_returns; [reflexivity|].
  exists k, r. auto.
Qed.

End Service.

Lemma failed_confirmation_resolves_witness :
  let rpc := Samples.provider Samples.mined_but_failed in
  let txParams := mkTx 2 80000 500000000 9 4 in
  Samples.prepare rpc "call-1" = Returns txParams
  /\ status (mkReceipt false 30000 12) = false
  /\ Samples.completeCall rpc "call-1" = (Resolved 77%N, [txParams])
  /\ console (confirmation_loop maxAttempts (polls rpc) loop_start)
     = [ConsoleError "Error checking receipt:" "Transaction failed"].
Proof.
  intros rpc txParams.
  assert (Hp : Samples.prepare rpc "call-1" = Returns txParams)
    by (vm_compute; reflexivity).
  split; [exact Hp|]. split; [reflexivity|]. split.
  - apply (failed_confirmation_resolves _ _ _ _ _ rpc "call-1" txParams 77%N
             0%nat (mkReceipt false 30000 12) Hp).
    + reflexivity.
    + unfold maxAttempts. lia.
    + reflexivity.
    + left. reflexivity.
  - vm_compute. reflexivity.
Defined.

End OrchestratorClaims.

(** * The claims about the coordinator *)

Module CoordinatorClaims.
Import Orchestrator Coordinator CoordinatorFacts.
Local Open Scope string_scope.
Local Open Scope list_scope.

Section Component.
Variable keccak256 : string -> N.
Variable Num : Type.
Variable weiToCelo : N -> Num.
Variable num_lt : Num -> Num -> bool.
Variable capped : N -> N.

Let handleCallEnd := handleCallEnd keccak256 Num weiToCelo num_lt capped.

(** C7 does not hold of the code.  The developer ends the call once.
    The end routine sets the flag and writes [requiresPayment: true] to
    the store, and the store delivers that write to the handler of the
    payment subscription.  The handler tests the flag, but the flag it
    tests is that of the render it was created in: the effect that
    subscribes depends on the call id, the user and the call data only,
    so setting the flag does not renew the handler, and the handler does
    not set the flag itself.  It passes its test while the end is in
    flight and asks the service to complete the call; the end routine
    asks the service too.  One trigger, two completion transactions
    handed to the wallet.  A second end trigger arriving in flight, by
    contrast, is turned away by the routine's own test of the flag. *)
Theorem payment_subscription_ignores_the_flag
    env penv seen subscribed data l tx1 h1 tx2 h2 :
  returns_at_once seen = false ->
  callData seen = Some data ->
  user seen = Some (developerId data) ->
  walletAddress data <> "" ->
  totalAmount data <> 0%Z ->
  data_callId data <> "" ->
  callId subscribed = callId seen ->
  user subscribed = user seen ->
  callData subscribed = callData seen ->
  isCallEnding subscribed = false ->
  leaveChannel env = Returns tt ->
  updateStatus env = Returns tt ->
  updateDuration env = Returns tt ->
  prepare keccak256 Num weiToCelo num_lt capped (rpc (payment env))
          (data_callId data) = Returns tx1 ->
  sendTransaction (rpc (payment env)) = Returns h1 ->
  prepare keccak256 Num weiToCelo num_lt capped (rpc penv)
          (data_callId data) = Returns tx2 ->
  sendTransaction (rpc penv) = Returns h2 ->
  let in_flight := setIsCallEnding true l in
  (exists fields,
      In (UpdateDoc fields) (snd (handleCallEnd env seen l))
      /\ In ("requiresPayment", FBool true) fields)
  /\ callId (state in_flight) = callId (state l)
  /\ user (state in_flight) = user (state l)
  /\ callData (state in_flight) = callData (state l)
  /\ isCallEnding (state in_flight) = true
  /\ submissions
       (snd (onPaymentRequired keccak256 Num weiToCelo num_lt capped
               penv subscribed true false in_flight)) = [tx2]
  /\ (forall l', submissions (snd (handleCallEnd env seen l')) = [tx1])
  /\ (forall env', handleCallEnd env' (state in_flight) in_flight
                   = (in_flight, [])).
Proof.
  intros Hg Hd Hu Hw Ht Hi Sc Su Sd Sf Hleave Hstatus Hdur Hp1 Hs1 Hp2 Hs2
         in_flight.
  assert (C1 : web3Service_completeCall keccak256 Num weiToCelo num_lt
                 capped (rpc (payment env)) (data_callId data)
               = (match awaitConfirmation (polls (rpc (payment env))) h1 with
                  | Throws m => Rejected ("Failed to complete call: " ++ m)
                  | Returns h => Resolved h
                  end, [tx1])).
  { unfold web3Service_completeCall, Orchestrator.completeCall.
    rewrite Hp1, Hs1.
    now destruct (awaitConfirmation (polls (rpc (payment env))) h1). }
  assert (C2 : web3Service_completeCall keccak256 Num weiToCelo num_lt
                 capped (rpc penv) (data_callId data)
               = (match awaitConfirmation (polls (rpc penv)) h2 with
                  | Throws m => Rejected ("Failed to complete call: " ++ m)
                  | Returns h => Resolved h
                  end, [tx2])).
  { unfold web3Service_completeCall, Orchestrator.completeCall.
    rewrite Hp2, Hs2.
    now destruct (awaitConfirmation (polls (rpc penv)) h2). }
  assert (E : forall l',
             handleCallEnd env seen l'
             = Coordinator.end_call keccak256 Num weiToCelo num_lt capped
                 env seen data l').
  { intros l'. unfold handleCallEnd, Coordinator.handleCallEnd.
    now rewrite Hg, Hd. }
  apply String.eqb_neq in Hw, Hi. apply Z.eqb_neq in Ht.
  split; [|split; [reflexivity|split; [reflexivity|split; [reflexivity|
           split; [reflexivity|split; [|split]]]]]].
  - rewrite E. unfold Coordinator.end_call. rewrite Hleave, Hstatus.
    eexists. split.
    + destruct (startTime data); cbn [app]; rewrite ?Hdur;
        destruct (_ && _ && _ && _);
        try destruct (Coordinator.processPayment _ _ _ _ _ _ _ _)
          as [[l2 fx] [m|]];
        cbn; right; left; reflexivity.
    + cbn. tauto.
  - unfold onPaymentRequired.
    unfold returns_at_once in Hg. rewrite Hd in Hg.
    destruct (callId seen) as [id|] eqn:Hid; [|discriminate].
    apply orb_false_iff in Hg as [Hne _].
    rewrite Sc, Su, Sd, Hu, Hd, Hne, String.eqb_refl, Sf. cbn [andb negb].
    unfold Coordinator.processPayment. rewrite C2.
    destruct (awaitConfirmation (polls (rpc penv)) h2);
      [|destruct (updatePaid penv) as [m|[]]];
      try destruct (updateError penv); reflexivity.
  - intros l'. rewrite E. unfold Coordinator.end_call.
    rewrite Hleave, Hstatus, Hu, String.eqb_refl, Hw, Hi, Ht.
    cbn [andb negb]. unfold Coordinator.processPayment. rewrite C1.
    destruct (startTime data); cbn [app]; rewrite ?Hdur;
      destruct (timerInterval _);
      (destruct (awaitConfirmation (polls (rpc (payment env))) h1);
       [|destruct (updatePaid (payment env)) as [m|[]]]);
      try destruct (updateError (payment env)); reflexivity.
  - intros env'. now apply handleCallEnd_in_flight.
Qed.

(** C8, amended.  For a session with a recorded start time, the handler
    of the session subscription, when it finds the call not yet marked
    initialised, computes the remaining seconds as the duration times
    sixty minus the seconds elapsed since the start, the elapsed time
    being measured against the timestamp the store's server assigned in
    a round trip when the round trip yields one, and against the local
    clock when the round trip fails or yields none.  With time remaining
    it starts the countdown at that many seconds; with none it calls the
    end routine.  When it finds the call marked initialised it computes
    no remaining time and starts no countdown. *)
Theorem snapshot_countdown clock env seen data l start :
  startTime data = Some start ->
  let now := getServerTimestamp clock in
  let run := onCallSnapshot keccak256 Num weiToCelo num_lt capped
               clock env seen data l in
  (callInitialized (refs l) = false ->
   (0 < spec_remaining (duration data) start now)%Z ->
   countdown run = Some (spec_remaining (duration data) start now))
  /\ (callInitialized (refs l) = false ->
      (spec_remaining (duration data) start now <= 0)%Z ->
      run = handleCallEnd env seen (setCallData data l))
  /\ (callInitialized (refs l) = true ->
      run = (setCallData data l, []) /\ countdown run = None)
  /\ (forall t, roundTrip clock = Stamped (Some t) false -> t <> 0%Z ->
                now = t)
  /\ (roundTrip clock = AddDocThrows
      \/ roundTrip clock = GetDocThrows
      \/ (exists ts, roundTrip clock = Stamped ts true)
      \/ roundTrip clock = Stamped None false
      \/ roundTrip clock = Stamped (Some 0%Z) false ->
      now = dateNow clock).
Proof.
  intros Hs now run. subst run. unfold onCallSnapshot, spec_remaining.
  rewrite Hs. cbn [setCallData refs]. fold now.
  split; [|split; [|split; [|split]]].
  - intros Hi Hpos. rewrite Hi. cbn [negb].
    apply Z.ltb_lt in Hpos. rewrite Hpos.
    unfold startTimer, countdown. cbn.
    destruct (timerInterval (refs l)); reflexivity.
  - intros Hi Hneg. rewrite Hi. cbn [negb].
    apply Z.ltb_ge in Hneg. now rewrite Hneg.
  - intros Hi. rewrite Hi. cbn [negb]. split; reflexivity.
  - intros t Ht Hnz. unfold now, getServerTimestamp. rewrite Ht.
    apply Z.eqb_neq in Hnz. now rewrite Hnz.
  - unfold now, getServerTimestamp.
    intros [H|[H|[[ts H]|[H|H]]]]; rewrite H; try reflexivity.
    now destruct ts.
Qed.

End Component.

Lemma payment_subscription_ignores_the_flag_witness :
  let seen := state Samples.developer_view in
  let in_flight := setIsCallEnding true Samples.developer_view in
  let tx := mkTx 2 80000 500000000 9 4 in
  returns_at_once seen = false
  /\ isCallEnding (state in_flight) = true
  /\ submissions
       (snd (SamplesMore.onPaymentRequired (payment Samples.unconfirmed_end)
               seen true false in_flight)) = [tx]
  /\ submissions
       (snd (Samples.handleCallEnd Samples.confirmed_end seen
               Samples.developer_view)) = [tx]
  /\ Samples.handleCallEnd Samples.confirmed_end (state in_flight) in_flight
     = (in_flight, []).
Proof.
  intros seen in_flight tx.
  assert (Hg : returns_at_once seen = false) by reflexivity.
  assert (Hp1 : Samples.prepare (rpc (payment Samples.confirmed_end))
                  (data_callId Samples.session) = Returns tx)
    by (vm_compute; reflexivity).
  assert (Hp2 : Samples.prepare (rpc (payment Samples.unconfirmed_end))
                  (data_callId Samples.session) = Returns tx)
    by (vm_compute; reflexivity).
  destruct (payment_subscription_ignores_the_flag
              (fun _ => 9%N) N (fun w => w) N.ltb (fun p => p)
              Samples.confirmed_end (payment Samples.unconfirmed_end)
              seen seen Samples.session Samples.developer_view
              tx 77%N tx 77%N
              Hg eq_refl eq_refl
              ltac:(discriminate) ltac:(discriminate) ltac:(discriminate)
              eq_refl eq_refl eq_refl eq_refl eq_refl eq_refl eq_refl
              Hp1 eq_refl Hp2 eq_refl)
    as (_ & _ & _ & _ & F & S2 & S1 & G).
  split; [exact Hg|]. split; [exact F|]. split; [exact S2|].
  split; [exact (S1 Samples.developer_view)|exact (G Samples.confirmed_end)].
Defined.

(** C8, as stated, fails.  When the round trip through the store fails,
    the remaining time is measured against the local clock: two clients
    whose clocks differ by nine minutes, shown the same session, start
    their countdowns nine minutes apart. *)
Lemma countdown_follows_local_clock :
  let view := setCallInitialized false Samples.developer_view in
  countdown (Samples.onCallSnapshot
               (mkClock AddDocThrows 1700000060000) Samples.confirmed_end
               (state view) Samples.session view) = Some 1740%Z
  /\ countdown (Samples.onCallSnapshot
                  (mkClock AddDocThrows 1700000600000) Samples.confirmed_end
                  (state view) Samples.session view) = Some 1200%Z.
Proof. cbv zeta. split; vm_compute; reflexivity. Qed.

Lemma snapshot_countdown_witness :
  let view := setCallInitialized false Samples.developer_view in
  let clock := Samples.server_clock 1700000090000 in
  startTime Samples.session = Some 1700000000000%Z
  /\ callInitialized (refs view) = false
  /\ countdown (Samples.onCallSnapshot clock Samples.confirmed_end
                  (state view) Samples.session view) = Some 1710%Z
  /\ callInitialized (refs Samples.developer_view) = true
  /\ countdown (Samples.onCallSnapshot clock Samples.confirmed_end
                  (state view) Samples.session Samples.developer_view)
     = None.
Proof.
  intros view clock.
  assert (Hs : startTime Samples.session = Some 1700000000000%Z)
    by reflexivity.
  assert (Hi : callInitialized (refs view) = false) by reflexivity.
  assert (Hm : callInitialized (refs Samples.developer_view) = true)
    by reflexivity.
  split; [exact Hs|]. split; [exact Hi|].
  destruct (snapshot_countdown (fun _ => 9%N) N (fun w => w) N.ltb
              (fun p => p) clock Samples.confirmed_end (state view)
              Samples.session view _ Hs) as (H & _).
  destruct (snapshot_countdown (fun _ => 9%N) N (fun w => w) N.ltb
              (fun p => p) clock Samples.confirmed_end (state view)
              Samples.session Samples.developer_view _ Hs)
    as (_ & _ & H3 & _).
  split; [apply (H Hi); vm_compute; reflexivity|].
  split; [exact Hm|exact (proj2 (H3 Hm))].
Defined.

End CoordinatorClaims.

Module AmountFacts.
Import Amounts.

(** The nearest integer is at most half a unit away. *)
Lemma nearest_half n d :
  0 < d ->
  (2 * Z.abs (Z.of_N (nearest n d * d) - Z.of_N n) <= Z.of_N d)%Z.
Proof.
  intros Hd. unfold nearest.
  pose proof (N.div_mod n d ltac:(lia)) as E.
  pose proof (N.mod_lt n d ltac:(lia)) as Hr.
  revert E Hr. generalize (n / d) (n mod d). intros m r E Hr. subst n.
  destruct (N.ltb_spec (2 * r) d); [nia|].
  destruct (N.ltb_spec d (2 * r)); [nia|].
  destruct (N.even m); nia.
Qed.

(** The two scalings by a power of two: one of them is by one. *)
Lemma scaling_cases (k : Z) :
  ((0 <= k)%Z /\ Z.to_N (- k) = 0 /\ Z.of_N (Z.to_N k) = k)
  \/ ((k < 0)%Z /\ Z.to_N k = 0 /\ Z.of_N (Z.to_N (- k)) = (- k)%Z).
Proof. destruct (Z_le_gt_dec 0 k); [left|right]; lia. Qed.

(** Raising [k] by one doubles the scaled ratio. *)
Lemma scaling_step p q (k : Z) :
  (p * 2 ^ Z.to_N (k + 1)) * (q * 2 ^ Z.to_N (- k))
  = 2 * (p * 2 ^ Z.to_N k) * (q * 2 ^ Z.to_N (- (k + 1))).
Proof.
  destruct (Z_le_gt_dec 0 k).
  - replace (Z.to_N (k + 1)) with (N.succ (Z.to_N k)) by lia.
    replace (Z.to_N (- k)) with 0 by lia.
    replace (Z.to_N (- (k + 1))) with 0 by lia.
    rewrite N.pow_succ_r'. lia.
  - replace (Z.to_N (k + 1)) with 0 by lia.
    replace (Z.to_N k) with 0 by lia.
    replace (Z.to_N (- k)) with (N.succ (Z.to_N (- (k + 1)))) by lia.
    rewrite N.pow_succ_r'. lia.
Qed.

(** The first power of two brings the ratio between [2 ^ 51] and
    [2 ^ 53]. *)
Lemma first_scaling p q :
  0 < p -> 0 < q ->
  let k0 := (52 + Z.of_N (N.log2 q) - Z.of_N (N.log2 p))%Z in
  2 ^ 51 * (q * 2 ^ Z.to_N (- k0)) < p * 2 ^ Z.to_N k0
  /\ p * 2 ^ Z.to_N k0 < 2 ^ 53 * (q * 2 ^ Z.to_N (- k0)).
Proof.
  intros Hp Hq k0.
  destruct (N.log2_spec p Hp) as [Pl Pu].
  destruct (N.log2_spec q Hq) as [Ql Qu].
  rewrite N.pow_succ_r' in Pu, Qu.
  destruct (Z_le_gt_dec 0 k0).
  - replace (Z.to_N (- k0)) with 0 by lia.
    assert (E : 2 ^ Z.to_N k0 * 2 ^ N.log2 p = 2 ^ 52 * 2 ^ N.log2 q).
    { rewrite <- !N.pow_add_r. f_equal. lia. }
    revert E Pl Pu Ql Qu.
    generalize (2 ^ Z.to_N k0) (2 ^ N.log2 p) (2 ^ N.log2 q).
    intros P A B E Pl Pu Ql Qu. cbn [N.pow]. nia.
  - replace (Z.to_N k0) with 0 by lia.
    assert (E : 2 ^ Z.to_N (- k0) * (2 ^ 52 * 2 ^ N.log2 q) = 2 ^ N.log2 p).
    { rewrite <- !N.pow_add_r. f_equal. lia. }
    assert (M : 0 < 2 ^ Z.to_N (- k0)) by (apply N.neq_0_lt_0, N.pow_nonzero; lia).
    revert E M Pl Pu Ql Qu.
    generalize (2 ^ Z.to_N (- k0)) (2 ^ N.log2 p) (2 ^ N.log2 q).
    intros P A B E M Pl Pu Ql Qu. nia.
Qed.

(** The power of two [Number_of] settles on brings the ratio between
    [2 ^ 52] and [2 ^ 53]. *)
Lemma chosen_scaling p q :
  0 < p -> 0 < q ->
  let k0 := (52 + Z.of_N (N.log2 q) - Z.of_N (N.log2 p))%Z in
  let k := if p * 2 ^ Z.to_N k0 <? 2 ^ 52 * (q * 2 ^ Z.to_N (- k0))
           then (k0 + 1)%Z else k0 in
  2 ^ 52 * (q * 2 ^ Z.to_N (- k)) <= p * 2 ^ Z.to_N k
  /\ p * 2 ^ Z.to_N k < 2 ^ 53 * (q * 2 ^ Z.to_N (- k)).
Proof.
  intros Hp Hq k0 k. destruct (first_scaling p q Hp Hq) as [L U].
  fold k0 in L, U. subst k.
  destruct (N.ltb_spec (p * 2 ^ Z.to_N k0)
                       (2 ^ 52 * (q * 2 ^ Z.to_N (- k0)))) as [H|H];
    [|split; assumption].
  pose proof (scaling_step p q k0) as S.
  assert (D0 : 0 < q * 2 ^ Z.to_N (- k0))
    by (apply N.mul_pos_pos; [|apply N.neq_0_lt_0, N.pow_nonzero]; lia).
  assert (D1 : 0 < q * 2 ^ Z.to_N (- (k0 + 1)))
    by (apply N.mul_pos_pos; [|apply N.neq_0_lt_0, N.pow_nonzero]; lia).
  revert L U H S D0 D1.
  generalize (p * 2 ^ Z.to_N k0) (q * 2 ^ Z.to_N (- k0))
             (p * 2 ^ Z.to_N (k0 + 1)) (q * 2 ^ Z.to_N (- (k0 + 1))).
  intros n0 d0 n d L U H S D0 D1. cbn [N.pow] in *. nia.
Qed.

(** A ratio between [2 ^ 52] and [2 ^ 53] is rounded to a mantissa in
    that range, within one part in [2 ^ 53]. *)
Lemma nearest_mantissa n d :
  0 < d -> 2 ^ 52 * d <= n -> n < 2 ^ 53 * d ->
  2 ^ 52 <= nearest n d <= 2 ^ 53
  /\ (Z.abs (Z.of_N (nearest n d * d) - Z.of_N n) * 2 ^ 53 <= Z.of_N n)%Z.
Proof.
  intros Hd L U. pose proof (nearest_half n d Hd) as H.
  revert H. generalize (nearest n d). intros m H.
  cbn [N.pow Z.pow] in *. change (Z.pow_pos 2 53) with 9007199254740992%Z.
  nia.
Qed.

(** The error of [Number_of]: the double it gives is within one part in
    [2 ^ 53] of the ratio, and its mantissa has fifty-three bits. *)
Lemma Number_of_error p q :
  0 < p -> 0 < q ->
  let d := Number_of p q in
  2 ^ 52 <= mantissa d < 2 ^ 53
  /\ (Z.abs (Z.of_N (numerator d * q) - Z.of_N (p * denominator d)) * 2 ^ 53
      <= Z.of_N (p * denominator d))%Z
  /\ (Z.of_N (N.log2 p) - Z.of_N (N.log2 q) - 1 <= exponent d + 52
      <= Z.of_N (N.log2 p) - Z.of_N (N.log2 q) + 1)%Z.
Proof.
  intros Hp Hq. unfold Number_of.
  replace (p =? 0) with false by (symmetry; apply N.eqb_neq; lia).
  pose proof (chosen_scaling p q Hp Hq) as R. cbv zeta in R |- *.
  set (k0 := (52 + Z.of_N (N.log2 q) - Z.of_N (N.log2 p))%Z) in *.
  set (low := p * 2 ^ Z.to_N k0 <? 2 ^ 52 * (q * 2 ^ Z.to_N (- k0))) in *.
  assert (K : (k0 <= (if low then k0 + 1 else k0) <= k0 + 1)%Z)
    by (destruct low; lia).
  revert R K. generalize (if low then (k0 + 1)%Z else k0).
  intros k [L U] K. unfold k0 in K. clear low.
  assert (D : 0 < q * 2 ^ Z.to_N (- k))
    by (apply N.mul_pos_pos; [|apply N.neq_0_lt_0, N.pow_nonzero]; lia).
  destruct (nearest_mantissa _ _ D L U) as [[Ml Mu] E].
  revert Ml Mu E.
  generalize (nearest (p * 2 ^ Z.to_N k) (q * 2 ^ Z.to_N (- k))).
  intros m Ml Mu E.
  destruct (N.eqb_spec m (2 ^ 53)) as [->|Hm];
    unfold numerator, denominator; cbn [mantissa exponent].
  - split; [cbn [N.pow]; lia|]. split; [|lia].
    destruct (scaling_cases k) as [(Hk & Z1 & Z2)|(Hk & Z1 & Z2)].
    + rewrite Z1, N.pow_0_r, N.mul_1_r in *.
      destruct (Z.eq_dec k 0%Z) as [->|Hk0].
      * change (Z.to_N (1 - 0)) with 1. change (Z.to_N (- (1 - 0))) with 0.
        change (Z.to_N 0) with 0 in *.
        rewrite N.pow_0_r, N.mul_1_r in *. cbn [N.pow] in *. nia.
      * replace (Z.to_N (1 - k)) with 0 by lia.
        replace (Z.to_N k) with (N.succ (Z.to_N (- (1 - k)))) in * by lia.
        rewrite N.pow_succ_r' in *.
        revert E L U. generalize (2 ^ Z.to_N (- (1 - k))). intros P E L U.
        cbn [N.pow] in *. nia.
    + rewrite Z1, N.pow_0_r, N.mul_1_r in *.
      replace (Z.to_N (- (1 - k))) with 0 by lia.
      replace (Z.to_N (1 - k)) with (N.succ (Z.to_N (- k))) by lia.
      rewrite N.pow_succ_r', N.pow_0_r.
      revert E L U D. generalize (2 ^ Z.to_N (- k)). intros P E L U D.
      cbn [N.pow] in *. nia.
  - split; [cbn [N.pow] in *; lia|]. split; [|lia].
    rewrite Z.opp_involutive.
    destruct (scaling_cases k) as [(Hk & Z1 & Z2)|(Hk & Z1 & Z2)];
      rewrite Z1, N.pow_0_r, ?N.mul_1_r in *.
    + revert E. generalize (2 ^ Z.to_N k). intros P E.
      replace (m * q) with (m * 1 * q) in E |- * by lia.
      rewrite ?N.mul_1_r in *. exact E.
    + revert E. generalize (2 ^ Z.to_N (- k)). intros P E.
      replace (m * P * q) with (m * (q * P)) by lia. exact E.
Qed.

End AmountFacts.

Module AmountClaims.
Import Amounts AmountFacts.
Local Open Scope list_scope.

(** For an amount with at most eighteen digits after the point, [toWei]
    is exact. *)
Lemma toWei_exact amount :
  (length (fraction amount) <= 18)%nat ->
  toWei amount * 10 ^ N.of_nat (length (fraction amount))
  = BigInt (integer amount ++ fraction amount) * 10 ^ 18.
Proof.
  intros H. unfold toWei.
  generalize (BigInt (integer amount ++ fraction amount)). intros value.
  destruct (N.eqb_spec (N.of_nat (length (fraction amount))) 0) as [->|Hn].
  { now rewrite N.pow_0_r, N.mul_1_r. }
  set (n := N.of_nat (length (fraction amount))) in *.
  assert (E : 10 ^ 18 = 10 ^ (18 - n) * 10 ^ n).
  { rewrite <- N.pow_add_r. f_equal. lia. }
  rewrite E, N.mul_assoc, N.div_mul by (apply N.pow_nonzero; lia).
  reflexivity.
Qed.

(** What [read_back] returns is [weiToCelo] of the value attached, which
    the ledger has accepted and is therefore not zero. *)
Lemma read_back_some now sender callId dev dur amount s d :
  read_back now sender callId dev dur amount s = Some d ->
  d = weiToCelo (toWei amount) /\ toWei amount <> 0.
Proof.
  unfold read_back.
  pose proof (LedgerFacts.exec_create_inv now sender (toWei amount)
                callId dev dur s) as I.
  destruct (Ledger.exec now _ s) as [s' [|e]]; [|discriminate].
  destruct (I eq_refl) as [Hm E]. cbn [fst] in E. subst s'.
  unfold Ledger.getCallDetails, Ledger.bind, Ledger.load.
  rewrite LedgerFacts.getCall_after_create, N.eqb_refl.
  cbn [Ledger.client]. unfold Ledger.revert_if.
  destruct (sender =? 0); cbn; [discriminate|].
  intros [= <-]. split; [reflexivity|].
  unfold Ledger.may_create in Hm. rewrite !andb_true_iff in Hm.
  destruct Hm as ((((Hv & _) & _) & _) & _).
  apply negb_true_iff, N.eqb_neq in Hv. exact Hv.
Qed.

(** No double is within one wei of 1.000000000000000002 CELO. *)
Lemma no_double_near d :
  mantissa d < 2 ^ 53 -> ~ within_one_wei d (10 ^ 18 + 2).
Proof.
  intros Hm. unfold within_one_wei, off, numerator, denominator.
  destruct (AmountFacts.scaling_cases (exponent d))
    as [(Hk & Z1 & _)|(Hk & Z1 & _)]; rewrite Z1, N.pow_0_r.
  - generalize (mantissa d * 2 ^ Z.to_N (exponent d)). intros x.
    cbn [N.pow]. lia.
  - assert (P : 0 < 2 ^ Z.to_N (- exponent d))
      by (apply N.neq_0_lt_0, N.pow_nonzero; lia).
    revert P Hm. generalize (2 ^ Z.to_N (- exponent d)) (mantissa d).
    intros D m P Hm. cbn [N.pow] in *. lia.
Qed.

(** C9, as stated, fails.  The amount 1.000000000000000002 CELO is
    submitted as 1000000000000000002 wei and stored as that; read back
    it is the number 1, two wei less; and no double-precision number at
    all lies within one wei of the amount. *)
Lemma two_wei_are_lost :
  let amount := mkDecimal [1] [0; 0; 0; 0; 0; 0; 0; 0; 0;
                               0; 0; 0; 0; 0; 0; 0; 0; 2] in
  toWei amount = 1000000000000000002
  /\ read_back 0 1 7 2 1800 amount (Ledger.init 9)
     = Some (mkDouble (2 ^ 52) (-52))
  /\ off (mkDouble (2 ^ 52) (-52)) (toWei amount)
     = (-2 * Z.of_N (denominator (mkDouble (2 ^ 52) (-52))))%Z
  /\ ~ within_one_wei (mkDouble (2 ^ 52) (-52)) (toWei amount)
  /\ ~ (exists d, is_double d /\ within_one_wei d (toWei amount)).
Proof.
  cbv zeta.
  split; [vm_compute; reflexivity|].
  split; [vm_compute; reflexivity|].
  split; [vm_compute; reflexivity|].
  assert (E : toWei (mkDecimal [1] [0; 0; 0; 0; 0; 0; 0; 0; 0;
                                    0; 0; 0; 0; 0; 0; 0; 0; 2])
              = 10 ^ 18 + 2) by (vm_compute; reflexivity).
  rewrite E. split.
  - apply no_double_near. cbn. lia.
  - intros (d & [Hm _] & H). exact (no_double_near d Hm H).
Qed.

(** C9, amended.  An amount with at most eighteen digits after the point
    is submitted as exactly that many wei; once the ledger has stored
    the call, the amount read back is a double-precision number that
    differs from the amount entered by at most one part in [2 ^ 53] of
    it, and so by at most one wei when the amount is at most [2 ^ 53]
    wei. *)
Theorem amount_is_read_back_rounded now sender callId dev dur amount s d :
  (length (fraction amount) <= 18)%nat ->
  toWei amount < 2 ^ 256 ->
  read_back now sender callId dev dur amount s = Some d ->
  let wei := toWei amount in
  wei * 10 ^ N.of_nat (length (fraction amount))
  = BigInt (integer amount ++ fraction amount) * 10 ^ 18
  /\ 0 < wei
  /\ d = weiToCelo wei
  /\ is_double d
  /\ (Z.abs (off d wei) * 2 ^ 53 <= Z.of_N (wei * denominator d))%Z
  /\ (wei <= 2 ^ 53 -> within_one_wei d wei).
Proof.
  intros Hf Hw Hr wei.
  destruct (read_back_some _ _ _ _ _ _ _ _ Hr) as [-> Hne]. fold wei in Hne.
  assert (Hp : 0 < wei) by lia.
  destruct (Number_of_error wei (10 ^ 18) Hp ltac:(cbn; lia))
    as ([Ml Mu] & E & X).
  fold (weiToCelo wei) in Ml, Mu, E, X.
  change (N.log2 (10 ^ 18)) with 59 in X.
  assert (Hl : N.log2 wei < 256) by (apply N.log2_lt_pow2; assumption).
  split; [now apply toWei_exact|]. split; [exact Hp|].
  change (toWei amount) with wei.
  split; [reflexivity|]. split; [split; [exact Mu|lia]|].
  split; [exact E|].
  intros Hs. unfold within_one_wei. unfold off in *.
  revert E. generalize (Z.of_N (numerator (weiToCelo wei) * 10 ^ 18)).
  intros a E.
  assert (B : (Z.of_N (wei * denominator (weiToCelo wei))
               <= 2 ^ 53 * Z.of_N (denominator (weiToCelo wei)))%Z).
  { rewrite N2Z.inj_mul. apply Z.mul_le_mono_nonneg_r; [lia|].
    change (2 ^ 53)%Z with (Z.of_N (2 ^ 53)). lia. }
  revert E B. generalize (Z.of_N (wei * denominator (weiToCelo wei)))
                         (Z.of_N (denominator (weiToCelo wei))).
  intros b c E B. change (2 ^ 53)%Z with 9007199254740992%Z in *. lia.
Qed.

Lemma amount_is_read_back_rounded_witness :
  let amount := mkDecimal [0] [0; 0; 5] in
  (length (fraction amount) <= 18)%nat
  /\ toWei amount = 5000000000000000
  /\ read_back 0 1 7 2 1800 amount (Ledger.init 9)
     = Some (mkDouble 5764607523034235 (-60))
  /\ within_one_wei (mkDouble 5764607523034235 (-60)) (toWei amount).
Proof.
  intros amount.
  assert (Hf : (length (fraction amount) <= 18)%nat) by (cbn; lia).
  assert (Hw : toWei amount < 2 ^ 256) by now apply N.ltb_lt.
  assert (Hr : read_back 0 1 7 2 1800 amount (Ledger.init 9)
               = Some (mkDouble 5764607523034235 (-60)))
    by (vm_compute; reflexivity).
  split; [exact Hf|]. split; [vm_compute; reflexivity|].
  split; [exact Hr|].
  destruct (amount_is_read_back_rounded 0 1 7 2 1800 amount (Ledger.init 9)
              _ Hf Hw Hr) as (_ & _ & _ & _ & _ & H).
  apply H. now apply N.leb_le.
Defined.

End AmountClaims.

(** * Further properties of the ledger *)

Module LedgerMoreFacts.
Import Ledger LedgerFacts LedgerMore.

Lemma owed_insert_fresh m id c :
  m !! id = None -> owed (<[id := c]> m) = amount c + owed m.
Proof.
  intros H. unfold owed. rewrite map_fold_insert_L; [reflexivity| |exact H].
  intros; lia.
Qed.

Lemma owed_lookup m id c :
  m !! id = Some c -> owed m = amount c + owed (delete id m).
Proof.
  intros H. unfold owed.
  rewrite (map_fold_delete_L _ _ id c m); [reflexivity| |exact H].
  intros; lia.
Qed.

(** Writing a record changes what is owed by the difference of the
    amounts. *)
Lemma owed_insert m id c :
  owed (<[id := c]> m) + amount (default zeroCall (m !! id))
  = owed m + amount c.
Proof.
  destruct (m !! id) as [c0|] eqn:E; cbn.
  - rewrite <- insert_delete_eq.
    rewrite owed_insert_fresh by apply lookup_delete_eq.
    rewrite (owed_lookup m id c0 E). lia.
  - rewrite owed_insert_fresh by exact E. lia.
Qed.

Lemma owed_covers m id c : m !! id = Some c -> amount c <= owed m.
Proof. intros H. rewrite (owed_lookup m id c H). lia. Qed.


(** An existing record is the one stored under its id. *)
Lemma existing_is_stored s id :
  client (getCall s id) <> 0 -> calls s !! id = Some (getCall s id).
Proof.
  unfold getCall. destruct (calls s !! id); cbn; [reflexivity|congruence].
Qed.

Lemma sound_record s id :
  sound s -> client (getCall s id) <> 0 -> record_ok (getCall s id).
Proof. intros [H _] Hc. apply (H id). now apply existing_is_stored. Qed.

Lemma sound_covers s id :
  sound s -> amount (getCall s id) <= balance s.
Proof.
  intros [_ H]. unfold getCall.
  destruct (calls s !! id) as [c|] eqn:E; cbn; [|lia].
  pose proof (owed_covers _ _ _ E). lia.
Qed.

(** Every call keeps the records well formed and the balance sufficient. *)
Lemma exec_keeps_sound :
  (forall op now s, sound s -> sound (fst (exec now op s)))
  /\ (forall ops now s, sound s -> sound (exec_all now ops s)).
Proof.
  apply (exec_rel (fun s s' => sound s -> sound s')).
  - auto.
  - auto.
  - intros now sender value callId dev dur s Hok [Hrec Hbal].
    apply exec_create_inv in Hok as [Hg ->].
    unfold may_create in Hg; cbn in Hg.
    rewrite !andb_true_iff, !negb_true_iff in Hg.
    destruct Hg as ((((Hv & Hd) & Hz) & Hs) & _).
    apply N.eqb_neq in Hv, Hd, Hz, Hs.
    split; cbn.
    + intros id c. destruct (decide (callId = id)) as [<-|Hne].
      * rewrite lookup_insert_eq. intros [= <-].
        repeat split; cbn; auto; discriminate.
      * rewrite lookup_insert_ne by exact Hne. apply Hrec.
    + pose proof (owed_insert (calls s) callId
                    (mkCall sender dev value dur 0 false false false)) as E.
      cbn in E. lia.
  - intros now sender callId s Hok [Hrec Hbal].
    apply exec_start_inv in Hok as [Hg ->].
    unfold may_start in Hg; cbn in Hg.
    rewrite !andb_true_iff, !negb_true_iff in Hg.
    destruct Hg as ((Hc & Ha) & Hd). apply N.eqb_neq in Hc.
    pose proof (existing_is_stored s callId Hc) as Hst.
    split; cbn.
    + intros id c. destruct (decide (callId = id)) as [<-|Hne].
      * rewrite lookup_insert_eq. intros [= <-].
        destruct (Hrec _ _ Hst) as (R1 & R2 & R3 & R4 & R5 & R6 & R7).
        repeat split; cbn; auto; discriminate.
      * rewrite lookup_insert_ne by exact Hne. apply Hrec.
    + pose proof (owed_insert (calls s) callId
                    (start_at now (getCall s callId))) as E.
      rewrite Hst in E. cbn in E. lia.
  - intros now sender callId re s Hg IH [Hrec Hbal].
    apply may_complete_true in Hg as (Hc & Hd & Hco & Hp & Ha & Hb).
    pose proof (existing_is_stored s callId Hc) as Hst.
    assert (Hmid : sound (before_callee s callId)).
    { split; cbn.
      - intros id c. destruct (decide (callId = id)) as [<-|Hne].
        + rewrite lookup_insert_eq. intros [= <-].
          destruct (Hrec _ _ Hst) as (R1 & R2 & R3 & R4 & R5 & R6 & R7).
          repeat split; cbn; auto; discriminate.
        + rewrite lookup_insert_ne by exact Hne. apply Hrec.
      - pose proof (owed_insert (calls s) callId
                      (settle (getCall s callId))) as E.
        rewrite Hst in E. cbn in E.
        pose proof (owed_covers _ _ _ Hst). lia. }
    destruct (IH Hmid) as [Hrec2 Hbal2]. split; assumption.
Qed.

Lemma init_sound deployer : sound (init deployer).
Proof.
  split; cbn.
  - intros id c H. rewrite lookup_empty in H. discriminate.
  - unfold owed. rewrite map_fold_empty. lia.
Qed.

Lemma reachable_sound s : reachable s -> sound s.
Proof.
  induction 1 as [deployer|s now op _ IH].
  - apply init_sound.
  - now apply exec_keeps_sound.
Qed.


(** The invariant of the ledger holds when the recipient is called. *)
Lemma ledger_inv_before_callee sender callId s :
  ledger_inv s -> may_complete sender callId s = true ->
  ledger_inv (before_callee s callId).
Proof.
  intros Hinv Hg.
  apply may_complete_true in Hg as (Hc & Hd & Hco & Hp & Ha & Hb).
  intros id. rewrite getCall_before_callee, released_before_callee.
  destruct (N.eqb_spec callId id) as [<-|Hne]; [|apply Hinv].
  cbn. split; [reflexivity|]. left. now apply unsettled_not_released.
Qed.

Lemma start_inv_le s id : start_inv s -> (started id (logs s) <= 1)%nat.
Proof. intros H. destruct (H id) as [E|[E _]]; lia. Qed.

(** Every call keeps a started record started, and the log of starts in
    step with the records. *)
Lemma exec_keeps_started :
  (forall op now s,
      ledger_inv s -> start_inv s ->
      start_inv (fst (exec now op s))
      /\ keeps_started s (fst (exec now op s)))
  /\ (forall ops now s,
      ledger_inv s -> start_inv s ->
      start_inv (exec_all now ops s)
      /\ keeps_started s (exec_all now ops s)).
Proof.
  cut ((forall op now s,
           ledger_inv s -> start_inv s ->
           ledger_inv (fst (exec now op s))
           /\ start_inv (fst (exec now op s))
           /\ keeps_started s (fst (exec now op s)))
       /\ (forall ops now s,
           ledger_inv s -> start_inv s ->
           ledger_inv (exec_all now ops s)
           /\ start_inv (exec_all now ops s)
           /\ keeps_started s (exec_all now ops s))).
  { intros [A B]. split; intros x now s Hi Hs.
    - now destruct (A x now s Hi Hs) as (_ & ? & ?).
    - now destruct (B x now s Hi Hs) as (_ & ? & ?). }
  apply (exec_rel (fun s s' =>
           ledger_inv s -> start_inv s ->
           ledger_inv s' /\ start_inv s' /\ keeps_started s s')).
  - intros s Hi Hs. split; [exact Hi|]. split; [exact Hs|].
    intros id _ Ha. auto.
  - intros s1 s2 s3 H12 H23 Hi Hs.
    destruct (H12 Hi Hs) as (Hi2 & Hs2 & K12).
    destruct (H23 Hi2 Hs2) as (Hi3 & Hs3 & K23).
    split; [exact Hi3|]. split; [exact Hs3|].
    intros id Hc Ha.
    destruct (K12 id Hc Ha) as (A0 & A1 & A2 & A3).
    destruct (K23 id) as (B0 & B1 & B2 & B3); [congruence|exact A1|].
    repeat split; congruence.
  - intros now sender value callId dev dur s Hok Hi Hs.
    split; [now apply exec_keeps_inv|].
    apply exec_create_inv in Hok as [Hg ->].
    assert (Hfresh : client (getCall s callId) = 0).
    { unfold may_create in Hg; cbn in Hg.
      destruct (Hi callId) as [Hfl _].
      destruct (N.eqb_spec (client (getCall s callId)) 0) as [E|E]; [exact E|].
      rewrite Hfl in Hg. cbn in Hg.
      destruct (isPaid (getCall s callId)); cbn in Hg;
        rewrite !andb_false_r in Hg; discriminate. }
    split.
    + intros id. rewrite getCall_after_create. cbn.
      destruct (N.eqb_spec callId id) as [<-|Hne]; [|apply Hs].
      left. destruct (Hs callId) as [E|(_ & E & _)]; [exact E|congruence].
    + intros id Hc Ha. rewrite getCall_after_create. cbn.
      destruct (N.eqb_spec callId id) as [<-|Hne]; [congruence|auto].
  - intros now sender callId s Hok Hi Hs.
    split; [now apply exec_keeps_inv|].
    apply exec_start_inv in Hok as [Hg ->].
    unfold may_start in Hg; cbn in Hg.
    rewrite !andb_true_iff, !negb_true_iff in Hg.
    destruct Hg as ((Hc & Ha) & Hd). apply N.eqb_neq in Hc.
    split.
    + intros id. rewrite getCall_after_start. cbn.
      destruct (N.eqb_spec callId id) as [<-|Hne].
      * right. destruct (Hs callId) as [E|(_ & _ & E)]; [|congruence].
        rewrite E. cbn. auto.
      * apply Hs.
    + intros id Hex Hact. rewrite getCall_after_start. cbn.
      destruct (N.eqb_spec callId id) as [<-|Hne]; [congruence|].
      auto.
  - intros now sender callId re s Hg IH Hi Hs.
    split.
    { pose proof (proj1 exec_keeps_inv (CompleteCall sender callId true re)
                    now s Hi) as [H _].
      now rewrite exec_complete_success in H by exact Hg. }
    pose proof (ledger_inv_before_callee sender callId s Hi Hg) as Him.
    pose proof Hg as Hg'.
    apply may_complete_true in Hg' as (Hc & Hd & Hco & Hp & Ha & Hb).
    assert (Hsm : start_inv (before_callee s callId)).
    { intros id. rewrite getCall_before_callee.
      change (started id (logs (before_callee s callId)))
        with (started id (logs s)).
      destruct (N.eqb_spec callId id) as [<-|Hne]; [|apply Hs].
      destruct (Hs callId) as [E|(E1 & E2 & E3)]; [now left|].
      right. cbn. auto. }
    destruct (IH Him Hsm) as (_ & Hs2 & K2).
    split.
    + intros id. rewrite getCall_after_callee.
      change (started id (logs (after_callee now callId
                                  (amount (getCall s callId))
                                  (exec_all now re (before_callee s callId)))))
        with (started id (logs (exec_all now re (before_callee s callId)))).
      apply Hs2.
    + intros id Hex Hact. rewrite getCall_after_callee.
      change (started id (logs (after_callee now callId
                                  (amount (getCall s callId))
                                  (exec_all now re (before_callee s callId)))))
        with (started id (logs (exec_all now re (before_callee s callId)))).
      destruct (K2 id) as (B0 & B1 & B2 & B3).
      * rewrite getCall_before_callee.
        destruct (callId =? id); [exact Hc|exact Hex].
      * rewrite getCall_before_callee.
        destruct (N.eqb_spec callId id) as [<-|Hne]; [exact Hact|exact Hact].
      * rewrite getCall_before_callee in B0, B2.
        change (started id (logs (before_callee s callId)))
          with (started id (logs s)) in B3.
        destruct (N.eqb_spec callId id) as [<-|Hne]; cbn in B0, B2; auto.
Qed.


Lemma run_keeps_started txs s :
  ledger_inv s -> start_inv s ->
  start_inv (run txs s) /\ keeps_started s (run txs s).
Proof.
  revert s. induction txs as [|[now op] txs IH]; intros s Hi Hs; cbn.
  - split; [exact Hs|]. intros id _ Ha. auto.
  - destruct (proj1 exec_keeps_started op now s Hi Hs) as [Hs1 K1].
    destruct (proj1 exec_keeps_inv op now s Hi) as [Hi1 _].
    destruct (IH _ Hi1 Hs1) as [Hs2 K2]. split; [exact Hs2|].
    intros id Hc Ha.
    destruct (K1 id Hc Ha) as (A0 & A1 & A2 & A3).
    destruct (K2 id) as (B0 & B1 & B2 & B3); [congruence|exact A1|].
    repeat split; congruence.
Qed.

Lemma reachable_start_inv s : reachable s -> start_inv s.
Proof.
  induction 1 as [deployer|s now op Hr IH].
  - intros id. now left.
  - apply (proj1 exec_keeps_started op now s (reachable_inv s Hr) IH).
Qed.

(** The log only grows, and every call keeps the records backed by it. *)
Lemma exec_keeps_logged :
  (forall op now s,
      (forall ev, In ev (logs s) -> In ev (logs (fst (exec now op s))))
      /\ (logged s -> logged (fst (exec now op s))))
  /\ (forall ops now s,
      (forall ev, In ev (logs s) -> In ev (logs (exec_all now ops s)))
      /\ (logged s -> logged (exec_all now ops s))).
Proof.
  apply (exec_rel (fun s s' =>
           (forall ev, In ev (logs s) -> In ev (logs s'))
           /\ (logged s -> logged s'))).
  - intros s. split; auto.
  - intros s1 s2 s3 [A1 A2] [B1 B2]. split; auto.
  - intros now sender value callId dev dur s Hok.
    apply exec_create_inv in Hok as [_ ->].
    split; [intros ev H; cbn; auto|].
    intros Hl id c. cbn [after_create calls logs].
    destruct (decide (callId = id)) as [<-|Hne].
    + rewrite lookup_insert_eq. intros [= <-]. cbn.
      exists value, now. split; [now left|reflexivity].
    + rewrite lookup_insert_ne by exact Hne. intros H.
      destruct (Hl id c H) as (v & t & Hin & Hv).
      exists v, t. split; [cbn; auto|exact Hv].
  - intros now sender callId s Hok.
    apply exec_start_inv in Hok as [Hg ->].
    split; [intros ev H; cbn; auto|].
    unfold may_start in Hg; cbn in Hg.
    rewrite !andb_true_iff, !negb_true_iff in Hg.
    destruct Hg as ((Hc & _) & _). apply N.eqb_neq in Hc.
    pose proof (existing_is_stored s callId Hc) as Hst.
    intros Hl id c. cbn [after_start calls logs].
    destruct (decide (callId = id)) as [<-|Hne].
    + rewrite lookup_insert_eq. intros [= <-].
      destruct (Hl callId _ Hst) as (v & t & Hin & Hv).
      exists v, t. split; [cbn; auto|exact Hv].
    + rewrite lookup_insert_ne by exact Hne. intros H.
      destruct (Hl id c H) as (v & t & Hin & Hv).
      exists v, t. split; [cbn; auto|exact Hv].
  - intros now sender callId re s Hg [IH1 IH2].
    apply may_complete_true in Hg as (Hc & _).
    pose proof (existing_is_stored s callId Hc) as Hst.
    split.
    { intros ev H. cbn [after_callee logs]. right. right.
      apply IH1. cbn. auto. }
    intros Hl.
    assert (Hmid : logged (before_callee s callId)).
    { intros id c. cbn [before_callee debit calls logs].
      destruct (decide (callId = id)) as [<-|Hne].
      - rewrite lookup_insert_eq. intros [= <-].
        destruct (Hl callId _ Hst) as (v & t & Hin & Hv).
        exists v, t. split; [cbn; auto|discriminate].
      - rewrite lookup_insert_ne by exact Hne. intros H.
        destruct (Hl id c H) as (v & t & Hin & Hv).
        exists v, t. split; [cbn; auto|exact Hv]. }
    intros id c H. cbn [after_callee calls] in H.
    destruct (IH2 Hmid id c H) as (v & t & Hin & Hv).
    exists v, t. split; [cbn; auto|exact Hv].
Qed.

Lemma reachable_logged s : reachable s -> logged s.
Proof.
  induction 1 as [deployer|s now op _ IH].
  - intros id c H. cbn in H. rewrite lookup_empty in H. discriminate.
  - now apply exec_keeps_logged.
Qed.

End LedgerMoreFacts.

Module LedgerExtras.
Import Ledger LedgerFacts LedgerMore LedgerMoreFacts.

(** X1.  Every record the contract holds, in any reachable state, has a
    developer that is neither the zero address nor the client, a non-zero
    duration, terminal flags that agree, an amount that is non-zero
    exactly while the call is not completed, and a zero start time while
    the call has not been started. *)
Theorem records_keep_data_model s id c :
  reachable s -> calls s !! id = Some c ->
  developer c <> 0
  /\ client c <> developer c
  /\ duration c <> 0
  /\ isCompleted c = isPaid c
  /\ (isCompleted c = false <-> amount c <> 0)
  /\ (isActive c = false -> startTime c = 0).
Proof.
  intros Hr Hl. destruct (reachable_sound s Hr) as [Hrec _].
  destruct (Hrec id c Hl) as (R1 & R2 & R3 & R4 & R5 & R6 & R7).
  repeat split; auto.
  intros Ha. destruct (isCompleted c); [|reflexivity].
  exfalso. now apply Ha, R6.
Qed.

Lemma records_keep_data_model_witness :
  let s := run [(10, CreateCall 1 100 7 2 1800); (12, StartCall 5 7)]
               (init 9) in
  let c := mkCall 1 2 100 1800 12 true false false in
  reachable s /\ calls s !! 7 = Some c /\ client c <> developer c.
Proof.
  intros s c.
  assert (Hr : reachable s) by (apply reachable_run; constructor).
  assert (Hl : calls s !! 7 = Some c) by (vm_compute; reflexivity).
  split; [exact Hr|]. split; [exact Hl|].
  exact (proj1 (proj2 (records_keep_data_model s 7 c Hr Hl))).
Defined.

(** X2.  The escrow is always covered: in any reachable state the amounts
    of all stored records together are at most the contract's balance, so
    the amount of each call is; and the developer of an existing call that
    is not completed can complete it, whatever has happened before and
    whatever calls the developer's account makes back into the contract
    while it is paid. *)
Theorem escrow_is_covered s :
  reachable s ->
  owed (calls s) <= balance s
  /\ (forall id, amount (getCall s id) <= balance s)
  /\ (forall id now re,
        client (getCall s id) <> 0 ->
        isCompleted (getCall s id) = false ->
        snd (exec now (CompleteCall (developer (getCall s id)) id true re) s)
        = Success).
Proof.
  intros Hr. pose proof (reachable_sound s Hr) as Hs.
  split; [apply Hs|]. split; [intros id; now apply sound_covers|].
  intros id now re Hc Hco.
  destruct (sound_record s id Hs Hc) as (_ & _ & _ & R4 & R5 & _).
  rewrite exec_complete_success; [reflexivity|].
  apply may_complete_true. repeat split; auto.
  - congruence.
  - now apply sound_covers.
Qed.

Lemma escrow_is_covered_witness :
  let s := run [(10, CreateCall 1 100 7 2 1800);
                (11, CreateCall 3 40 8 2 600);
                (20, CompleteCall 2 7 true Done)] (init 9) in
  reachable s /\ owed (calls s) = 40 /\ balance s = 40
  /\ snd (exec 30 (CompleteCall 2 8 true Done) s) = Success.
Proof.
  intros s.
  assert (Hr : reachable s) by (apply reachable_run; constructor).
  destruct (escrow_is_covered s Hr) as (_ & _ & H).
  split; [exact Hr|]. split; [vm_compute; reflexivity|].
  split; [vm_compute; reflexivity|].
  apply (H 8 30 Done); vm_compute; [discriminate|reflexivity].
Defined.

(** X3.  In a reachable state [completeCall] has five outcomes and no
    other: [CallNotFound] when there is no record, [Unauthorized] when
    the sender is not the record's developer, [CallAlreadyCompleted] when
    the call is completed, [PaymentFailed] when the developer's account
    refuses the value, and success otherwise.  The three reverts with a
    text, "Payment already released", "No payment amount available" and
    "Insufficient contract balance", never happen. *)
Theorem completeCall_outcomes s now sender id accepts re :
  reachable s ->
  exec now (CompleteCall sender id accepts re) s =
  if client (getCall s id) =? 0 then (s, Reverted (CallNotFound id))
  else if negb (developer (getCall s id) =? sender)
  then (s, Reverted (Unauthorized sender (developer (getCall s id))))
  else if isCompleted (getCall s id)
  then (s, Reverted (CallAlreadyCompleted id))
  else if accepts
  then (after_callee now id (amount (getCall s id))
          (exec_all now re (before_callee s id)), Success)
  else (s, Reverted (PaymentFailed (developer (getCall s id))
                                   (amount (getCall s id)))).
Proof.
  intros Hr. pose proof (reachable_sound s Hr) as Hs.
  cbn [exec]. rewrite transact_complete. cbv zeta.
  destruct (N.eqb_spec (client (getCall s id)) 0) as [Hc|Hc]; [reflexivity|].
  destruct (negb (developer (getCall s id) =? sender)); [reflexivity|].
  destruct (isCompleted (getCall s id)) eqn:Hco; [reflexivity|].
  destruct (sound_record s id Hs Hc) as (_ & _ & _ & R4 & R5 & _).
  rewrite <- R4, Hco.
  apply R5 in Hco. apply N.eqb_neq in Hco. rewrite Hco.
  pose proof (sound_covers s id Hs) as Hb. apply N.ltb_ge in Hb. rewrite Hb.
  now destruct accepts.
Qed.

Lemma completeCall_outcomes_witness :
  let s := run [(10, CreateCall 1 100 7 2 1800)] (init 9) in
  reachable s
  /\ exec 20 (CompleteCall 1 7 true Done) s = (s, Reverted (Unauthorized 1 2)).
Proof.
  intros s.
  assert (Hr : reachable s) by (apply reachable_run; constructor).
  split; [exact Hr|].
  rewrite (completeCall_outcomes s 20 1 7 true Done Hr).
  vm_compute. reflexivity.
Defined.

(** X4.  Funds are conserved: in any reachable state the balance is the
    sum of the amounts of the [CallCreated] events minus the sum of the
    amounts of the [PaymentReleased] events, and the transfers the
    contract has made add up to what the [PaymentReleased] events say. *)
Theorem funds_conserved s :
  reachable s ->
  Z.of_N (balance s)
  = (escrowed_total (logs s) - released_total (logs s))%Z
  /\ transferred_total (transfers s) = released_total (logs s).
Proof.
  intros Hr. destruct (reachable_books s Hr) as [Hb Hf].
  unfold books in Hb. unfold in_flight in Hf. split; lia.
Qed.

Lemma funds_conserved_witness :
  let s := run [(10, CreateCall 1 100 7 2 1800);
                (11, CreateCall 3 40 8 2 600);
                (20, CompleteCall 2 7 true
                       (Then (CreateCall 2 5 9 4 60) Done))] (init 9) in
  reachable s /\ balance s = 45
  /\ escrowed_total (logs s) = 145%Z /\ released_total (logs s) = 100%Z.
Proof.
  intros s.
  assert (Hr : reachable s) by (apply reachable_run; constructor).
  destruct (funds_conserved s Hr) as [_ _].
  split; [exact Hr|]. repeat split; vm_compute; reflexivity.
Defined.

(** X5.  A call is started at most once.  In any reachable state the log
    has at most one [CallStarted] event for an id, and none while its
    record is not active, whose start time is then zero.  Once a record
    is active it stays active with the start time it was given, whatever
    transactions follow, and every further [startCall] for it reverts
    with [CallAlreadyStarted]. *)
Theorem startCall_once s id :
  reachable s ->
  (started id (logs s) <= 1)%nat
  /\ (isActive (getCall s id) = false ->
      started id (logs s) = 0%nat /\ startTime (getCall s id) = 0)
  /\ (forall txs now sender,
        client (getCall s id) <> 0 ->
        isActive (getCall s id) = true ->
        isActive (getCall (run txs s) id) = true
        /\ startTime (getCall (run txs s) id) = startTime (getCall s id)
        /\ started id (logs (run txs s)) = started id (logs s)
        /\ exec now (StartCall sender id) (run txs s)
           = (run txs s, Reverted (CallAlreadyStarted id))).
Proof.
  intros Hr. pose proof (reachable_start_inv s Hr) as Hs.
  pose proof (reachable_inv s Hr) as Hi.
  split; [now apply start_inv_le|]. split.
  - intros Ha. split.
    + destruct (Hs id) as [E|(_ & _ & E)]; [exact E|congruence].
    + destruct (N.eq_dec (client (getCall s id)) 0) as [Hc|Hc].
      * unfold getCall in *. destruct (calls s !! id) as [c|] eqn:E;
          cbn in *; [|reflexivity].
        now apply (records_keep_data_model s id c Hr E).
      * apply (sound_record s id (reachable_sound s Hr) Hc). exact Ha.
  - intros txs now sender Hc Ha.
    destruct (run_keeps_started txs s Hi Hs) as [_ K].
    destruct (K id Hc Ha) as (B0 & B1 & B2 & B3).
    split; [exact B1|]. split; [exact B2|]. split; [exact B3|].
    rewrite exec_start. cbv zeta.
    rewrite B0, B1. apply N.eqb_neq in Hc. now rewrite Hc.
Qed.

Lemma startCall_once_witness :
  let s := run [(10, CreateCall 1 100 7 2 1800); (12, StartCall 5 7)]
               (init 9) in
  let later := [(13, CreateCall 3 40 8 2 600);
                (20, CompleteCall 2 7 true Done)] in
  reachable s /\ client (getCall s 7) <> 0 /\ isActive (getCall s 7) = true
  /\ startTime (getCall (run later s) 7) = 12
  /\ exec 30 (StartCall 1 7) (run later s)
     = (run later s, Reverted (CallAlreadyStarted 7)).
Proof.
  intros s later.
  assert (Hr : reachable s) by (apply reachable_run; constructor).
  assert (Hc : client (getCall s 7) <> 0) by (vm_compute; discriminate).
  assert (Ha : isActive (getCall s 7) = true) by (vm_compute; reflexivity).
  destruct (startCall_once s 7 Hr) as (_ & _ & H).
  destruct (H later 30 1 Hc Ha) as (_ & H2 & _ & H4).
  split; [exact Hr|]. split; [exact Hc|]. split; [exact Ha|].
  split; [|exact H4]. rewrite H2. vm_compute. reflexivity.
Defined.

(** X6.  What [createCall] stores can be read back.  After a successful
    [createCall] from a sender other than the zero address,
    [doesCallExist] is true for the id and [getCallDetails] returns the
    sender, the developer, the value attached and the duration, with a
    zero start time and the three flags clear; the balance has grown by
    the value; and what the two views return for every other id is what
    they returned before. *)
Theorem created_call_is_readable now sender value callId dev dur s s' :
  sender <> 0 ->
  exec now (CreateCall sender value callId dev dur) s = (s', Success) ->
  doesCallExist s' callId = true
  /\ view (getCallDetails callId) s'
     = inr (mkCall sender dev value dur 0 false false false)
  /\ balance s' = balance s + value
  /\ (forall id, id <> callId ->
        doesCallExist s' id = doesCallExist s id
        /\ view (getCallDetails id) s' = view (getCallDetails id) s).
Proof.
  intros Hs Hok.
  destruct (exec_create_inv now sender value callId dev dur s) as [_ E];
    [now rewrite Hok|].
  rewrite Hok in E. cbn in E. subst s'.
  apply N.eqb_neq in Hs.
  unfold doesCallExist, view, getCallDetails, bind, load, revert_if, ret,
    revert.
  rewrite getCall_after_create, N.eqb_refl. cbn. rewrite Hs. cbn.
  split; [reflexivity|]. split; [reflexivity|]. split; [reflexivity|].
  intros id Hne. unfold after_create, getCall; cbn.
  rewrite lookup_insert_ne by congruence. split; [reflexivity|].
  now destruct (client (default zeroCall (calls s !! id)) =? 0).
Qed.

Lemma created_call_is_readable_witness :
  let s' := fst (exec 10 (CreateCall 1 100 7 2 1800) (init 9)) in
  1 <> 0
  /\ exec 10 (CreateCall 1 100 7 2 1800) (init 9) = (s', Success)
  /\ view (getCallDetails 7) s'
     = inr (mkCall 1 2 100 1800 0 false false false)
  /\ view (getCallDetails 8) s' = inl (CallNotFound 8).
Proof.
  intros s'.
  assert (H1 : 1 <> 0) by discriminate.
  assert (H2 : exec 10 (CreateCall 1 100 7 2 1800) (init 9) = (s', Success))
    by (vm_compute; reflexivity).
  destruct (created_call_is_readable _ _ _ _ _ _ _ _ H1 H2)
    as (_ & H & _ & _).
  split; [exact H1|]. split; [exact H2|]. split; [exact H|].
  vm_compute. reflexivity.
Defined.

(** X7.  The log backs the records.  In any reachable state every
    existing record has a [CallCreated] event for its id in the log that
    carries the record's client, developer and duration, and, while the
    call is not completed, its amount; and no transaction ever removes an
    event from the log. *)
Theorem records_are_logged s id :
  reachable s ->
  (doesCallExist s id = true ->
   exists v t,
     In (CallCreated id (client (getCall s id)) (developer (getCall s id))
                     v (duration (getCall s id)) t) (logs s)
     /\ (isCompleted (getCall s id) = false -> v = amount (getCall s id)))
  /\ (forall txs ev, In ev (logs s) -> In ev (logs (run txs s))).
Proof.
  intros Hr. split.
  - unfold doesCallExist. rewrite negb_true_iff, N.eqb_neq. intros Hc.
    apply (reachable_logged s Hr id). now apply existing_is_stored.
  - intros txs. clear Hr. revert s.
    induction txs as [|[now op] txs IH]; intros s ev H; cbn; [exact H|].
    apply IH. now apply exec_keeps_logged.
Qed.

Lemma records_are_logged_witness :
  let s := run [(10, CreateCall 1 100 7 2 1800); (12, StartCall 5 7)]
               (init 9) in
  reachable s /\ doesCallExist s 7 = true
  /\ In (CallCreated 7 1 2 100 1800 10) (logs s).
Proof.
  intros s.
  assert (Hr : reachable s) by (apply reachable_run; constructor).
  assert (He : doesCallExist s 7 = true) by (vm_compute; reflexivity).
  destruct (records_are_logged s 7 Hr) as [H _].
  destruct (H He) as (v & t & _ & _).
  split; [exact Hr|]. split; [exact He|]. vm_compute. auto.
Defined.

End LedgerExtras.

(** * Further properties of the orchestrator *)

Module OrchestratorExtras.
Import Orchestrator OrchestratorFacts.

Lemma try_block_sleeps p st : sleeps (fst (try_block p st)) = sleeps st.
Proof.
  unfold try_block.
  destruct (receiptAnswer p) as [m|[r|]]; cbn; try reflexivity.
  destruct (status r); cbn; [|reflexivity].
  destruct (detailsAnswer p) as [m|d]; cbn; [reflexivity|].
  destruct (Ledger.isPaid d); reflexivity.
Qed.

(** What the loop keeps true of its counters. *)
Lemma confirmation_loop_counters fuel polls st :
  (attempts st <= maxAttempts)%nat ->
  sleeps st = attempts st ->
  let st' := confirmation_loop fuel polls st in
  (attempts st' <= maxAttempts)%nat /\ sleeps st' = attempts st'
  /\ (attempts st <= attempts st')%nat.
Proof.
  revert st. induction fuel as [|fuel IH]; intros st Hle Hs; cbn zeta.
  - cbn. auto.
  - cbn [confirmation_loop].
    destruct (receipt st); cbn [andb]; [auto|].
    destruct (Nat.ltb_spec (attempts st) maxAttempts) as [Hlt|Hge]; [|auto].
    pose proof (try_block_attempts (polls (attempts st)) st) as Ha.
    pose proof (try_block_sleeps (polls (attempts st)) st) as Hsl.
    destruct (try_block (polls (attempts st)) st) as [st1 brk].
    cbn [fst] in Ha, Hsl. destruct brk.
    + rewrite Ha, Hsl. auto.
    + destruct (IH (sleep_and_count st1)) as (A & B & C).
      * cbn. lia.
      * cbn. congruence.
      * cbn in C. split; [exact A|]. split; [exact B|]. lia.
Qed.

(** While no receipt has come the loop goes on to the ceiling. *)
Lemma confirmation_loop_exhausts fuel polls st :
  receipt st = None ->
  (attempts st + fuel = maxAttempts)%nat ->
  receipt (confirmation_loop fuel polls st) = None ->
  attempts (confirmation_loop fuel polls st) = maxAttempts.
Proof.
  revert st. induction fuel as [|fuel IH]; intros st Hr Ha Hn.
  - cbn. lia.
  - cbn [confirmation_loop] in *. rewrite Hr in *. cbn [andb] in *.
    destruct (Nat.ltb_spec (attempts st) maxAttempts) as [Hlt|Hge]; [|lia].
    pose proof (try_block_attempts (polls (attempts st)) st) as Hat.
    unfold try_block in *.
    destruct (receiptAnswer (polls (attempts st))) as [m|[r|]].
    + apply IH; [auto
               |unfold sleep_and_count, caught, set_receipt;
                cbn [attempts]; lia
               |exact Hn].
    + exfalso.
      assert (Hgot : forall st', receipt st' = Some r ->
                receipt (confirmation_loop fuel polls st') <> None).
      { intros st' E. destruct fuel; cbn; rewrite E; cbn; congruence. }
      clear Hat.
      destruct (status r); cbn [negb] in Hn;
        [|revert Hn; now apply Hgot].
      destruct (detailsAnswer (polls (attempts st))) as [m|d];
        [revert Hn; now apply Hgot|].
      destruct (Ledger.isPaid d); cbn [negb] in Hn;
        [discriminate|revert Hn; now apply Hgot].
    + apply IH; [auto
               |unfold sleep_and_count, caught, set_receipt;
                cbn [attempts]; lia
               |exact Hn].
Qed.

(** Passes that bring no receipt are slept through, one second each. *)
Lemma confirmation_loop_waits n polls st fuel :
  receipt st = None ->
  (attempts st + n < maxAttempts)%nat ->
  (attempts st + fuel = maxAttempts)%nat ->
  (forall i r, (attempts st <= i < attempts st + n)%nat ->
               receiptAnswer (polls i) <> Returns (Some r)) ->
  exists st',
    confirmation_loop fuel polls st
    = confirmation_loop (fuel - n) polls st'
    /\ receipt st' = None
    /\ attempts st' = (attempts st + n)%nat
    /\ sleeps st' = (sleeps st + n)%nat.
Proof.
  revert st fuel. induction n as [|n IH]; intros st fuel Hr Hlt Hf Hno.
  - exists st. rewrite Nat.sub_0_r, !Nat.add_0_r. auto.
  - destruct fuel as [|fuel]; [lia|].
    cbn [confirmation_loop]. rewrite Hr. cbn [andb].
    replace (attempts st <? maxAttempts)%nat with true
      by (symmetry; apply Nat.ltb_lt; lia).
    assert (Hnow : exists st1,
               try_block (polls (attempts st)) st = (st1, false)
               /\ receipt st1 = None /\ attempts st1 = attempts st
               /\ sleeps st1 = sleeps st).
    { unfold try_block.
      destruct (receiptAnswer (polls (attempts st))) as [m|[r|]] eqn:E.
      - eexists. split; [reflexivity|]. cbn. auto.
      - exfalso. apply (Hno (attempts st) r); [lia|exact E].
      - eexists. split; [reflexivity|]. cbn. auto. }
    destruct Hnow as (st1 & -> & R1 & A1 & S1).
    destruct (IH (sleep_and_count st1) fuel) as (st' & E & R' & A' & S').
    + exact R1.
    + cbn. lia.
    + cbn. lia.
    + intros i r Hi. apply Hno. cbn in Hi. lia.
    + exists st'. cbn [Nat.sub]. split; [exact E|].
      cbn in A', S'. repeat split; auto; lia.
Qed.

Section Service.
Variable keccak256 : string -> N.
Variable Num : Type.
Variable weiToCelo : N -> Num.
Variable num_lt : Num -> Num -> bool.
Variable capped : N -> N.

(** X8.  Waiting rides out a provider that has no receipt yet or that
    fails: when the first [k] passes are answered with errors or with no
    receipt and pass [k], within the thirty, brings a successful receipt
    and a record that reads back as paid, the loop has slept exactly [k]
    times, prints "Payment confirmed:" and [completeCall] resolves with
    the hash of the one transaction it sent. *)
Theorem confirmed_after_waiting rpc callId txParams txHash k r paid :
  prepare keccak256 Num weiToCelo num_lt capped rpc callId
  = Returns txParams ->
  sendTransaction rpc = Returns txHash ->
  (k < 30)%nat ->
  (forall i r', (i < k)%nat ->
                receiptAnswer (polls rpc i) <> Returns (Some r')) ->
  receiptAnswer (polls rpc k) = Returns (Some r) ->
  status r = true ->
  detailsAnswer (polls rpc k) = Returns paid ->
  Ledger.isPaid paid = true ->
  let st := confirmation_loop maxAttempts (polls rpc) loop_start in
  receipt st = Some r
  /\ sleeps st = k
  /\ attempts st = k
  /\ head (console st) = Some (ConsoleLog "Payment confirmed:")
  /\ completeCall keccak256 Num weiToCelo num_lt capped rpc callId
     = (Resolved txHash, [txParams]).
Proof.
  intros Hp Hs Hk Hno Hr Hst Hd Hpaid st.
  destruct (confirmation_loop_waits k (polls rpc) loop_start maxAttempts)
    as (st' & E & R' & A' & S'); try reflexivity.
  { cbn [attempts loop_start]. unfold maxAttempts. lia. }
  { intros i r' Hi. apply Hno. cbn in Hi. lia. }
  cbn [attempts sleeps loop_start] in A', S'. cbn in A', S'.
  assert (Hst' : st = confirmed (set_receipt (Some r) st')).
  { unfold st. rewrite E.
    destruct (maxAttempts - k)%nat as [|f] eqn:Ef;
      [unfold maxAttempts in Ef; lia|].
    cbn [confirmation_loop]. rewrite R'. cbn [andb].
    replace (attempts st' <? maxAttempts)%nat with true
      by (symmetry; apply Nat.ltb_lt; unfold maxAttempts; lia).
    unfold try_block. rewrite A', Hr, Hst, Hd, Hpaid. reflexivity. }
  rewrite Hst'. cbn.
  split; [reflexivity|]. split; [exact S'|]. split; [exact A'|].
  split; [reflexivity|].
  unfold completeCall. rewrite Hp, Hs.
  rewrite awaitConfirmation_returns; [reflexivity|].
  exists k, r. split; [unfold maxAttempts; lia|exact Hr].
Qed.

(** X9.  The checks [completeCall] makes before sending mirror the
    guards of the ledger.  Let the provider report the ledger's record of
    the call and the contract's balance as they are, for the wallet's
    first account, and let the conversion of wei to CELO be monotone.
    Whenever the ledger's guards would let that account complete the
    call, the checks pass and the transaction is prepared, from that
    account and for the hash of the call id.  Whenever the checks pass,
    the call is neither completed nor paid, its amount is not zero and
    the account is its developer; and a completed call, a paid one, a
    zero amount and a foreign account are each turned away with their own
    message. *)
Theorem prechecks_mirror_guards rpc callId s account others txCount :
  (forall a b, a <= b -> num_lt (weiToCelo b) (weiToCelo a) = false) ->
  callId <> ""%string ->
  initializeContract rpc = Returns tt ->
  validateNetwork rpc = Returns tt ->
  connectWallet rpc = Returns (account :: others) ->
  getCallDetails rpc = Returns (Ledger.getCall s (keccak256 callId)) ->
  getBalance rpc = Returns (Ledger.balance s) ->
  getTransactionCount rpc = Returns txCount ->
  let c := Ledger.getCall s (keccak256 callId) in
  let prepared := prepare keccak256 Num weiToCelo num_lt capped rpc callId in
  (Ledger.may_complete account (keccak256 callId) s = true ->
   exists tx, prepared = Returns tx
              /\ from tx = account /\ data tx = keccak256 callId
              /\ nonce tx = txCount)
  /\ (forall tx, prepared = Returns tx ->
                 Ledger.isCompleted c = false /\ Ledger.isPaid c = false
                 /\ Ledger.amount c <> 0 /\ Ledger.developer c = account)
  /\ (Ledger.isCompleted c = true ->
      prepared = Throws "Call has already been completed")
  /\ (Ledger.isCompleted c = false -> Ledger.isPaid c = true ->
      prepared = Throws "Payment has already been released")
  /\ (Ledger.isCompleted c = false -> Ledger.isPaid c = false ->
      Ledger.amount c = 0 ->
      prepared = Throws "No payment amount available")
  /\ (Ledger.isCompleted c = false -> Ledger.isPaid c = false ->
      Ledger.amount c <> 0 -> Ledger.developer c <> account ->
      prepared = Throws "Only the developer can complete the call").
Proof.
  intros Hmono Hid Hi Hv Hw Hd Hb Ht c prepared.
  assert (Hne : String.eqb callId "" = false) by now apply String.eqb_neq.
  assert (E : prepared =
    andThen (throw_if (Ledger.isCompleted c)
                      "Call has already been completed") (fun _ =>
    andThen (throw_if (Ledger.isPaid c)
                      "Payment has already been released") (fun _ =>
    andThen (throw_if (Ledger.amount c =? 0)
                      "No payment amount available") (fun _ =>
    andThen (throw_if (negb (Ledger.developer c =? account))
                      "Only the developer can complete the call") (fun _ =>
    andThen (throw_if (num_lt (weiToCelo (Ledger.balance s))
                              (weiToCelo (Ledger.amount c)))
                      "Insufficient contract balance") (fun _ =>
    Returns (mkTx account (gasLimit rpc)
                  (getReasonableGasPrice capped rpc)
                  (keccak256 callId) txCount))))))).
  { unfold prepared, prepare, convertToBytes32.
    rewrite Hi, Hv, Hw, Hd, Hb, Ht, Hne. reflexivity. }
  rewrite E. clear E. unfold c.
  set (c0 := Ledger.getCall s (keccak256 callId)).
  split; [|split; [|split; [|split; [|split]]]].
  - intros Hg.
    apply LedgerFacts.may_complete_true in Hg
      as (Hc & Hdev & Hco & Hp & Ha & Hbal).
    fold c0 in Hc, Hdev, Hco, Hp, Ha, Hbal.
    apply N.eqb_neq in Ha. apply N.eqb_eq in Hdev.
    rewrite Hco, Hp, Ha, Hdev. cbn.
    rewrite (Hmono _ _ Hbal). cbn. eexists. repeat split.
  - intros tx.
    destruct (Ledger.isCompleted c0); [discriminate|].
    destruct (Ledger.isPaid c0); [discriminate|].
    destruct (N.eqb_spec (Ledger.amount c0) 0); [discriminate|].
    destruct (N.eqb_spec (Ledger.developer c0) account); [|discriminate].
    auto.
  - intros ->. reflexivity.
  - intros -> ->. reflexivity.
  - intros -> -> ->. reflexivity.
  - intros -> -> Ha Hdev.
    apply N.eqb_neq in Ha, Hdev. now rewrite Ha, Hdev.
Qed.

(** X10.  Waiting for confirmation is bounded.  Whatever the provider
    answers, the loop ends by its own test within thirty passes, having
    slept once per pass counted; more fuel changes nothing.  When no pass
    is answered with a receipt, it has made all thirty passes and slept
    thirty times, and [completeCall] rejects with "Failed to complete
    call: Transaction not confirmed after 30 seconds", the transaction
    having been handed to the wallet all the same. *)
Theorem confirmation_is_bounded rpc callId txParams txHash :
  prepare keccak256 Num weiToCelo num_lt capped rpc callId
  = Returns txParams ->
  sendTransaction rpc = Returns txHash ->
  let st := confirmation_loop maxAttempts (polls rpc) loop_start in
  (attempts st <= 30)%nat
  /\ sleeps st = attempts st
  /\ (forall fuel, (maxAttempts <= fuel)%nat ->
                   confirmation_loop fuel (polls rpc) loop_start = st)
  /\ ((forall k r, (k < 30)%nat ->
                   receiptAnswer (polls rpc k) <> Returns (Some r)) ->
      attempts st = 30%nat /\ sleeps st = 30%nat
      /\ completeCall keccak256 Num weiToCelo num_lt capped rpc callId
         = (Rejected
              "Failed to complete call: Transaction not confirmed after 30 seconds",
            [txParams])).
Proof.
  intros Hp Hs st.
  destruct (confirmation_loop_counters maxAttempts (polls rpc) loop_start)
    as (A & B & _); [cbn; lia|reflexivity|].
  fold st in A, B.
  split; [exact A|]. split; [exact B|]. split.
  - intros fuel Hf. unfold st.
    rewrite (confirmation_loop_enough fuel) by (cbn [attempts loop_start]; lia).
    reflexivity.
  - intros Hno.
    assert (Hn : receipt st = None).
    { destruct (receipt st) eqn:E; [|reflexivity]. exfalso.
      assert (H : receipt st <> None) by congruence.
      apply (confirmation_loop_receipt maxAttempts (polls rpc) loop_start)
        in H; [|reflexivity|reflexivity].
      destruct H as (k & r' & Hk & E'). apply (Hno k r'); [|exact E'].
      unfold maxAttempts in Hk. lia. }
    assert (Ha : attempts st = maxAttempts)
      by (apply confirmation_loop_exhausts; auto).
    split; [exact Ha|]. split; [now rewrite B|].
    unfold completeCall. rewrite Hp, Hs.
    rewrite awaitConfirmation_throws; [reflexivity|].
    intros k r Hk. apply Hno. unfold maxAttempts in Hk. lia.
Qed.

End Service.

Lemma confirmation_is_bounded_witness :
  let rpc := Samples.provider Samples.never_mined in
  let txParams := mkTx 2 80000 500000000 9 4 in
  Samples.prepare rpc "call-1" = Returns txParams
  /\ sendTransaction rpc = Returns 77%N
  /\ sleeps (confirmation_loop maxAttempts (polls rpc) loop_start) = 30%nat
  /\ Samples.completeCall rpc "call-1"
     = (Rejected
          "Failed to complete call: Transaction not confirmed after 30 seconds",
        [txParams]).
Proof.
  intros rpc txParams.
  assert (Hp : Samples.prepare rpc "call-1" = Returns txParams)
    by (vm_compute; reflexivity).
  assert (Hs : sendTransaction rpc = Returns 77%N) by reflexivity.
  destruct (confirmation_is_bounded _ _ _ _ _ rpc "call-1" txParams 77%N
              Hp Hs) as (_ & _ & _ & H).
  destruct H as (_ & H1 & H2); [intros k r _; discriminate|].
  split; [exact Hp|]. split; [exact Hs|]. split; [exact H1|exact H2].
Defined.

Lemma confirmed_after_waiting_witness :
  let slow := fun i : nat =>
    if (i <? 3)%nat then mkPoll (Throws "timeout") (Throws "")
    else Samples.mined_and_paid i in
  let rpc := Samples.provider slow in
  let txParams := mkTx 2 80000 500000000 9 4 in
  Samples.prepare rpc "call-1" = Returns txParams
  /\ (3 < 30)%nat
  /\ sleeps (confirmation_loop maxAttempts (polls rpc) loop_start) = 3%nat
  /\ Samples.completeCall rpc "call-1" = (Resolved 77%N, [txParams]).
Proof.
  intros slow rpc txParams.
  assert (Hp : Samples.prepare rpc "call-1" = Returns txParams)
    by (vm_compute; reflexivity).
  assert (Hk : (3 < 30)%nat) by lia.
  destruct (confirmed_after_waiting _ _ _ _ _ rpc "call-1" txParams 77%N
              3%nat (mkReceipt true 30000 12)
              (Ledger.mkCall 1 2 0 1800 15 true true true) Hp)
    as (_ & H2 & _ & _ & H5); try reflexivity; try exact Hk.
  { intros i r' Hi. cbn. unfold slow.
    replace (i <? 3)%nat with true by (symmetry; apply Nat.ltb_lt; lia).
    discriminate. }
  split; [exact Hp|]. split; [exact Hk|]. split; [exact H2|exact H5].
Defined.

Lemma prechecks_mirror_guards_witness :
  let s := Ledger.run [(10, Ledger.CreateCall 1 100 9 2 1800);
                       (12, Ledger.StartCall 1 9)] (Ledger.init 5) in
  let rpc := mkRpc (Returns tt) (Returns tt) (Returns [2%N])
                   (Returns (Ledger.getCall s 9))
                   (Returns (Ledger.balance s)) (Returns 4%N)
                   (Returns 500000000%N) (Returns 50000%N) (Returns 77%N)
                   Samples.never_mined in
  Ledger.may_complete 2 9 s = true
  /\ Samples.prepare rpc "call-1" = Returns (mkTx 2 80000 500000000 9 4).
Proof.
  intros s rpc.
  assert (Hg : Ledger.may_complete 2 9 s = true) by (vm_compute; reflexivity).
  split; [exact Hg|].
  assert (Hmono : forall a b, a <= b -> N.ltb b a = false)
    by (intros a b Hab; now apply N.ltb_ge).
  assert (Hid : "call-1"%string <> ""%string) by discriminate.
  destruct (prechecks_mirror_guards (fun _ => 9%N) N (fun w => w) N.ltb
              (fun p => p) rpc "call-1" s 2%N [] 4%N Hmono Hid
              eq_refl eq_refl eq_refl eq_refl eq_refl eq_refl) as (H & _).
  destruct (H Hg) as (tx & E & _). vm_compute. reflexivity.
Defined.

Lemma substring_prefix (sel rest : string) :
  substring 0 (String.length sel) (sel ++ rest)%string = sel.
Proof.
  induction sel as [|c sel IH].
  - now destruct rest.
  - change (String c (substring 0 (String.length sel) (sel ++ rest)%string)
            = String c sel).
    now f_equal.
Qed.

(** The selector of data that starts with "0x" and eight characters. *)
Lemma slice_selector (sel rest : string) :
  String.length sel = 8%nat ->
  OrchestratorMore.slice_2_10 ("0x" ++ sel ++ rest)%string = sel.
Proof.
  intros H. unfold OrchestratorMore.slice_2_10.
  change (substring 2 8 ("0x" ++ sel ++ rest)%string)
    with (substring 0 8 (sel ++ rest)%string).
  rewrite <- H. apply substring_prefix.
Qed.

End OrchestratorExtras.

Module CoordinatorMoreFacts.
Import Orchestrator Coordinator CoordinatorMore CoordinatorFacts.
Local Open Scope string_scope.
Local Open Scope list_scope.

Lemma same_session_refl l : same_session l l.
Proof. unfold same_session. tauto. Qed.

Lemma same_session_trans l1 l2 l3 :
  same_session l1 l2 -> same_session l2 l3 -> same_session l1 l3.
Proof. unfold same_session. intuition congruence. Qed.

Lemma quiet_app fx1 fx2 : quiet (fx1 ++ fx2) = quiet fx1 && quiet fx2.
Proof. apply forallb_app. Qed.

Lemma quiet_count fx :
  quiet fx = true -> count is_InitializeVideoCall fx = 0%nat.
Proof.
  unfold quiet, count. induction fx as [|e fx IH]; [auto|].
  cbn [forallb List.filter]. rewrite andb_true_iff, negb_true_iff.
  intros [E H]. rewrite E. now apply IH.
Qed.

Lemma count_app p fx1 fx2 :
  count p (fx1 ++ fx2) = (count p fx1 + count p fx2)%nat.
Proof. unfold count. now rewrite List.filter_app, List.length_app. Qed.

Section Component.
Variable keccak256 : string -> N.
Variable Num : Type.
Variable weiToCelo : N -> Num.
Variable num_lt : Num -> Num -> bool.
Variable capped : N -> N.

Let completeCall := web3Service_completeCall keccak256 Num weiToCelo
                      num_lt capped.
Let processPayment := processPayment keccak256 Num weiToCelo num_lt capped.
Let end_call := end_call keccak256 Num weiToCelo num_lt capped.
Let handleCallEnd := handleCallEnd keccak256 Num weiToCelo num_lt capped.
Let segment := segment keccak256 Num weiToCelo num_lt capped.

Lemma processPayment_keeps env data l :
  same_session l (fst (fst (processPayment env data l)))
  /\ quiet (snd (fst (processPayment env data l))) = true.
Proof.
  unfold processPayment, Coordinator.processPayment. fold completeCall.
  destruct (completeCall (rpc env) (data_callId data)) as [[m|h] sent].
  - destruct (updateError env); cbn; split; try reflexivity;
      unfold same_session; cbn; tauto.
  - destruct (updatePaid env) as [m|[]]; [destruct (updateError env)|];
      cbn; split; try reflexivity; unfold same_session; cbn; tauto.
Qed.

Lemma end_call_keeps env seen data l :
  same_session l (fst (end_call env seen data l))
  /\ quiet (snd (end_call env seen data l)) = true.
Proof.
  unfold end_call, Coordinator.end_call. fold processPayment.
  destruct (leaveChannel env) as [m|[]].
  { cbn. split; [unfold same_session; cbn; tauto|reflexivity]. }
  destruct (updateStatus env) as [m|[]].
  { cbn. split; [unfold same_session; cbn; tauto|reflexivity]. }
  set (lasted := match startTime data with Some _ => _ | None => _ end).
  assert (Hl : quiet lasted = true)
    by (unfold lasted; destruct (startTime data); reflexivity).
  set (stop := if timerInterval _ then _ else _).
  assert (Hs : quiet stop = true)
    by (unfold stop; destruct (timerInterval _); reflexivity).
  destruct (if match lasted with [] => false | _ => true end
            then updateDuration env else Returns tt) as [m|[]].
  { cbn [end_failed fst snd]. split; [unfold same_session; cbn; tauto|].
    rewrite quiet_app, Hl. reflexivity. }
  assert (Hd : quiet ([LeaveChannel; UpdateDoc
     [("status", FString "completed");
      ("endTime", FNumber (getServerTimestamp (endClock env)));
      ("endedBy", FString (default "" (user seen)));
      ("endReason",
       FString (match timeLeft seen with
                | Some 0%Z => "timeout"
                | _ => "manual"
                end));
      ("requiresPayment", FBool true)]] ++ lasted ++ stop) = true)
    by (rewrite !quiet_app, Hl, Hs; reflexivity).
  set (l1 := setTimerInterval false (setIsCallEnding true l)).
  assert (H1 : same_session l l1) by (unfold same_session; cbn; tauto).
  destruct (_ && _ && _ && _).
  - pose proof (processPayment_keeps (payment env) data l1) as [P Q].
    destruct (processPayment (payment env) data l1) as [[l2 fx] [m|]];
      cbn [fst snd] in *.
    + unfold end_failed. cbn [fst snd]. split.
      * apply (same_session_trans _ _ _ H1).
        apply (same_session_trans _ _ _ P).
        unfold same_session; cbn; tauto.
      * rewrite quiet_app, Hd, Q. reflexivity.
    + split; [exact (same_session_trans _ _ _ H1 P)|].
      rewrite quiet_app, Hd, Q. reflexivity.
  - cbn [fst snd]. split; [exact H1|].
    rewrite quiet_app, Hd. reflexivity.
Qed.

Lemma handleCallEnd_keeps env seen l :
  same_session l (fst (handleCallEnd env seen l))
  /\ quiet (snd (handleCallEnd env seen l)) = true.
Proof.
  destruct (handleCallEnd_cases keccak256 Num weiToCelo num_lt capped
              env seen l) as [E|(data & _ & _ & E)];
    fold handleCallEnd in E; rewrite E.
  - split; [apply same_session_refl|reflexivity].
  - apply end_call_keeps.
Qed.

(** The handlers of the session document are their segments run back
    to back, the resumption only when the handler reached its [await]. *)
Lemma initializeCall_segments now env seen data l :
  initializeCall keccak256 Num weiToCelo num_lt capped now env seen data l
  = if String.eqb (status data) "active" && negb (callInitialized (refs l))
    then let (l1, fx1) := segment (DocumentRead data) l in
         let (l2, fx2) := segment (DocumentResumed now env seen data) l1 in
         (l2, fx1 ++ fx2)
    else segment (DocumentRead data) l.
Proof.
  unfold initializeCall. cbn. unfold mark_and_initialize. cbn.
  destruct (String.eqb (status data) "active" && _); [|reflexivity].
  unfold document_resumed, start_or_end.
  destruct (startTime data); [|reflexivity].
  destruct (negb _); [|reflexivity].
  destruct (_ <? _)%Z; [|reflexivity].
  unfold startTimer. reflexivity.
Qed.

Lemma onCallSnapshot_segments clock env seen data l :
  onCallSnapshot keccak256 Num weiToCelo num_lt capped clock env seen data l
  = if match startTime data with Some _ => true | None => false end
       && negb (callInitialized (refs l))
    then let (l1, fx1) := segment (SnapshotArrived data) l in
         let (l2, fx2) :=
           segment (SnapshotResumed clock env seen data) l1 in
         (l2, fx1 ++ fx2)
    else segment (SnapshotArrived data) l.
Proof.
  unfold onCallSnapshot. cbn. unfold snapshot_resumed.
  destruct (startTime data); [|reflexivity]. cbn [andb].
  destruct (negb _); [|reflexivity].
  destruct (_ <? _)%Z.
  - reflexivity.
  - now destruct (Coordinator.handleCallEnd _ _ _ _ _ _ _ _).
Qed.

Lemma start_or_end_keeps now start env seen data l :
  let r := start_or_end keccak256 Num weiToCelo num_lt capped
             now start env seen data l in
  callInitialized (refs (fst r)) = callInitialized (refs l)
  /\ quiet (snd r) = true.
Proof.
  unfold start_or_end. cbv zeta. destruct (_ <? _)%Z.
  - unfold startTimer. cbn. now destruct (timerInterval (refs l)).
  - fold handleCallEnd.
    destruct (handleCallEnd_keeps env seen l) as [(_&_&_&_&P) Q]. auto.
Qed.

(** A segment never clears the mark; it initialises the video only when
    it finds the mark clear, once, and sets the mark as it does. *)
Lemma segment_marks sg l :
  let r := segment sg l in
  (callInitialized (refs l) = true ->
   callInitialized (refs (fst r)) = true
   /\ count is_InitializeVideoCall (snd r) = 0%nat)
  /\ (count is_InitializeVideoCall (snd r) <= 1)%nat
  /\ (count is_InitializeVideoCall (snd r) = 1%nat ->
      callInitialized (refs (fst r)) = true).
Proof.
  assert (A : forall data,
             let r := mark_and_initialize data l in
             (callInitialized (refs l) = true ->
              callInitialized (refs (fst r)) = true
              /\ count is_InitializeVideoCall (snd r) = 0%nat)
             /\ (count is_InitializeVideoCall (snd r) <= 1)%nat
             /\ (count is_InitializeVideoCall (snd r) = 1%nat ->
                 callInitialized (refs (fst r)) = true)).
  { intros data. unfold mark_and_initialize. cbn.
    destruct (callInitialized (refs l)) eqn:E.
    - rewrite andb_false_r. unfold count. cbn. rewrite E. auto.
    - destruct (String.eqb (status data) "active"); unfold count; cbn;
        (split; [discriminate|]); (split; [lia|]); auto; discriminate. }
  assert (B : forall r : Run,
             callInitialized (refs (fst r)) = callInitialized (refs l)
             /\ quiet (snd r) = true ->
             (callInitialized (refs l) = true ->
              callInitialized (refs (fst r)) = true
              /\ count is_InitializeVideoCall (snd r) = 0%nat)
             /\ (count is_InitializeVideoCall (snd r) <= 1)%nat
             /\ (count is_InitializeVideoCall (snd r) = 1%nat ->
                 callInitialized (refs (fst r)) = true)).
  { intros r [P Q]. apply quiet_count in Q. rewrite P, Q.
    split; [auto|]. split; [lia|discriminate]. }
  assert (C : callInitialized (refs (l, @nil Effect).1)
              = callInitialized (refs l)
              /\ quiet (l, @nil Effect).2 = true) by (split; reflexivity).
  destruct sg as [data|now env seen data|data|now env seen data|data
                 |clock env seen data]; cbn [segment CoordinatorMore.segment].
  - apply A.
  - unfold document_resumed. destruct (startTime data); [|now apply B].
    destruct (negb _); [|now apply B]. apply B, start_or_end_keeps.
  - apply A.
  - unfold update_resumed. destruct (startTime data);
      [|apply B; split; reflexivity].
    destruct (_ && _); [|now apply B]. apply B, start_or_end_keeps.
  - apply B. split; reflexivity.
  - unfold snapshot_resumed. destruct (startTime data); [|now apply B].
    destruct (_ <? _)%Z.
    + unfold startTimer, count. cbn.
      destruct (timerInterval (refs l)); cbn;
        (split; [auto|]); (split; [lia|]); auto.
    + fold handleCallEnd. apply B.
      destruct (handleCallEnd_keeps env seen l) as [(_&_&_&_&P) Q]. auto.
Qed.

End Component.
End CoordinatorMoreFacts.

Module CoordinatorExtras.
Import Orchestrator Coordinator CoordinatorMore CoordinatorFacts.
Import OrchestratorFacts CoordinatorMoreFacts.
Local Open Scope string_scope.
Local Open Scope list_scope.

Section Component.
Variable keccak256 : string -> N.
Variable Num : Type.
Variable weiToCelo : N -> Num.
Variable num_lt : Num -> Num -> bool.
Variable capped : N -> N.

Let completeCall := web3Service_completeCall keccak256 Num weiToCelo
                      num_lt capped.
Let processPayment := processPayment keccak256 Num weiToCelo num_lt capped.
Let end_call := end_call keccak256 Num weiToCelo num_lt capped.
Let handleCallEnd := handleCallEnd keccak256 Num weiToCelo num_lt capped.
Let end_triggers := end_triggers keccak256 Num weiToCelo num_lt capped.
Let onPaymentRequired := onPaymentRequired keccak256 Num weiToCelo
                           num_lt capped.
Let tick := tick keccak256 Num weiToCelo num_lt capped.
Let ticks := ticks keccak256 Num weiToCelo num_lt capped.
Let timeLeft_effect := timeLeft_effect keccak256 Num weiToCelo
                         num_lt capped.
Let segments := segments keccak256 Num weiToCelo num_lt capped.

(** X12. A component whose signed-in user is not the developer of the
    call it shows never asks the wallet for a transaction: however many
    times the end routine is triggered it submits nothing, and the
    handler of the payment subscription does nothing at all. *)
Theorem only_the_developer_submits envs l data :
  callData (state l) = Some data ->
  user (state l) <> Some (developerId data) ->
  submissions (snd (end_triggers envs l)) = []
  /\ (forall env requiresPayment paymentReleased live,
        onPaymentRequired env (state l) requiresPayment paymentReleased live
        = (live, [])).
Proof.
  intros Hd Hu. split.
  - revert l Hd Hu. induction envs as [|env envs IH]; intros l Hd Hu;
      [reflexivity|].
    cbn. fold handleCallEnd end_triggers.
    pose proof (handleCallEnd_keeps keccak256 Num weiToCelo num_lt capped
                  env (state l) l) as [(_ & K2 & K3 & _) _].
    fold handleCallEnd in K2, K3.
    assert (S0 : submissions (snd (handleCallEnd env (state l) l)) = []).
    { destruct (handleCallEnd_cases keccak256 Num weiToCelo num_lt capped
                  env (state l) l) as [E|(data' & Hd' & _ & E)];
        fold handleCallEnd in E; rewrite E; [reflexivity|].
      assert (data' = data) as -> by congruence.
      exact (proj1 (proj2 (end_call_run keccak256 Num weiToCelo num_lt
                             capped env (state l) data l)) Hu). }
    destruct (handleCallEnd env (state l) l) as [l1 fx1].
    cbn [fst snd] in *.
    specialize (IH l1 ltac:(congruence) ltac:(congruence)).
    destruct (end_triggers envs l1) as [l2 fx2]. cbn [fst snd] in *.
    now rewrite submissions_app, S0, IH.
  - intros env rp pr live.
    unfold onPaymentRequired, Coordinator.onPaymentRequired. rewrite Hd.
    destruct (callId (state l)) as [id|]; [|reflexivity].
    destruct (user (state l)) as [uid|]; [|reflexivity].
    destruct (String.eqb_spec uid (developerId data)) as [->|];
      [congruence|].
    now rewrite andb_false_r.
Qed.

(** X13. When the developer's end routine reaches the payment, what it
    writes to the store follows how [completeCall] of the service
    settles.  After a resolved promise, if the store takes the update,
    the payment is recorded as released with the hash the promise gave,
    no error is recorded, and the routine navigates to the developer's
    dashboard.  After a rejected promise the routine records no release
    and, if the store takes the update, records the error with the
    message of the rejection. *)
Theorem payment_record_follows_the_promise env seen data l :
  returns_at_once seen = false ->
  callData seen = Some data ->
  user seen = Some (developerId data) ->
  walletAddress data <> "" ->
  totalAmount data <> 0%Z ->
  data_callId data <> "" ->
  leaveChannel env = Returns tt ->
  updateStatus env = Returns tt ->
  updateDuration env = Returns tt ->
  let run := handleCallEnd env seen l in
  match fst (completeCall (rpc (payment env)) (data_callId data)) with
  | Resolved txHash =>
      updatePaid (payment env) = Returns tt ->
      In (paid_update (getServerTimestamp (payClock (payment env))) txHash)
         (snd run)
      /\ existsb is_error_update (snd run) = false
      /\ went_to "/developer-dashboard" run
  | Rejected message =>
      existsb is_paid_update (snd run) = false
      /\ (updateError (payment env) = Returns tt ->
          In (error_update message) (snd run))
  end.
Proof.
  intros Hg Hd Hu Hw Ht Hi Hleave Hstatus Hdur run. subst run.
  unfold handleCallEnd, Coordinator.handleCallEnd. rewrite Hg, Hd.
  unfold Coordinator.end_call. rewrite Hleave, Hstatus, Hu, String.eqb_refl.
  apply String.eqb_neq in Hw, Hi. apply Z.eqb_neq in Ht.
  rewrite Hw, Hi, Ht. cbn [andb negb].
  unfold went_to, Coordinator.processPayment. fold completeCall.
  destruct (completeCall (rpc (payment env)) (data_callId data))
    as [[m|h] sent]; cbn [fst snd].
  - destruct (startTime data); cbn [app]; rewrite ?Hdur;
      destruct (timerInterval _), (updateError (payment env)); cbn;
      (split; [reflexivity|]);
      intros H; try discriminate; unfold error_update; tauto.
  - intros Hpaid. rewrite Hpaid.
    destruct (startTime data); cbn [app]; rewrite ?Hdur;
      destruct (timerInterval _); cbn;
      (split; [unfold paid_update; tauto|]);
      (split; [reflexivity|tauto]).
Qed.

(** X14. A transaction that is mined and fails is recorded as a released
    payment: when the wallet sends the developer's transaction and a
    pass of the confirmation loop within its ceiling is answered with a
    receipt, successful or not, and the store takes the update, the end
    routine records [paymentReleased] with the hash of that transaction,
    for the one transaction it handed to the wallet. *)
Theorem mined_transaction_is_recorded_as_paid env seen data l
    txParams txHash k r :
  returns_at_once seen = false ->
  callData seen = Some data ->
  user seen = Some (developerId data) ->
  walletAddress data <> "" ->
  totalAmount data <> 0%Z ->
  data_callId data <> "" ->
  leaveChannel env = Returns tt ->
  updateStatus env = Returns tt ->
  updateDuration env = Returns tt ->
  updatePaid (payment env) = Returns tt ->
  prepare keccak256 Num weiToCelo num_lt capped (rpc (payment env))
          (data_callId data) = Returns txParams ->
  sendTransaction (rpc (payment env)) = Returns txHash ->
  (k < maxAttempts)%nat ->
  receiptAnswer (polls (rpc (payment env)) k) = Returns (Some r) ->
  let run := handleCallEnd env seen l in
  In (paid_update (getServerTimestamp (payClock (payment env))) txHash)
     (snd run)
  /\ submissions (snd run) = [txParams].
Proof.
  intros Hg Hd Hu Hw Ht Hi Hleave Hstatus Hdur Hpaid Hp Hs Hk Hr run.
  subst run.
  assert (Hc : completeCall (rpc (payment env)) (data_callId data)
               = (Resolved txHash, [txParams])).
  { unfold completeCall, web3Service_completeCall,
      Orchestrator.completeCall.
    rewrite Hp, Hs, awaitConfirmation_returns; [reflexivity|].
    exists k, r. auto. }
  unfold handleCallEnd, Coordinator.handleCallEnd. rewrite Hg, Hd.
  unfold Coordinator.end_call. rewrite Hleave, Hstatus, Hu, String.eqb_refl.
  apply String.eqb_neq in Hw, Hi. apply Z.eqb_neq in Ht.
  rewrite Hw, Hi, Ht. cbn [andb negb].
  unfold Coordinator.processPayment. fold completeCall. rewrite Hc, Hpaid.
  destruct (startTime data); cbn [app]; rewrite ?Hdur;
    destruct (timerInterval _); cbn;
    (split; [unfold paid_update; tauto|reflexivity]).
Qed.

(** X15. The countdown: started with [n] seconds, after [k] ticks, for
    [k] up to [n], it shows [n - k], whatever renders the ticks were
    created in, and the ticks have done nothing else; the effect on the
    time left ends the call exactly when the countdown has reached
    zero. *)
Theorem countdown_runs_down n calls l env :
  (Z.of_nat (length calls) <= n)%Z ->
  let l1 := fst (startTimer n l) in
  let r := ticks calls l1 in
  r = (setTimeLeft (n - Z.of_nat (length calls)) l1, [])
  /\ (Z.of_nat (length calls) = n ->
      timeLeft_effect env (fst r)
      = handleCallEnd env (state (fst r)) (fst r))
  /\ ((Z.of_nat (length calls) < n)%Z ->
      timeLeft_effect env (fst r) = (fst r, [])).
Proof.
  intros Hle l1 r.
  assert (A : forall calls l m,
             timeLeft (state l) = Some m ->
             (Z.of_nat (length calls) <= m)%Z ->
             ticks calls l
             = (setTimeLeft (m - Z.of_nat (length calls)) l, [])).
  { clear. induction calls as [|[env seen] calls IH]; intros l m Hm Hle.
    - cbn. rewrite Z.sub_0_r. destruct l as [[] ?]. cbn in Hm.
      unfold setTimeLeft. cbn. now rewrite Hm.
    - cbn [length] in Hle. cbn [ticks CoordinatorMore.ticks].
      unfold ticks in IH. unfold CoordinatorMore.tick. rewrite Hm.
      replace (m <=? 0)%Z with false by (symmetry; apply Z.leb_gt; lia).
      rewrite (IH _ (m - 1)%Z) by (cbn; auto; lia).
      cbn [app]. unfold setTimeLeft. cbn. do 4 f_equal. lia. }
  assert (E : r = (setTimeLeft (n - Z.of_nat (length calls)) l1, [])).
  { subst r. apply A; [reflexivity|exact Hle]. }
  split; [exact E|]. rewrite E. cbn [fst].
  unfold timeLeft_effect, CoordinatorMore.timeLeft_effect. cbn.
  split.
  - intros H. now rewrite H, Z.sub_diag.
  - intros H. destruct (n - Z.of_nat (length calls))%Z eqn:E0;
      try reflexivity. lia.
Qed.

(** X16. The video is initialised at most once.  However the segments
    of the handlers of the session document interleave, whatever data,
    clocks and renders they run with, [initializeVideoCall] is called at
    most once; and when the call is already marked initialised, as it is
    once the handler of [fetchCallData]'s subscription has started the
    countdown, it is never called and the mark stays. *)
Theorem video_is_initialized_once sgs l :
  let r := segments sgs l in
  (count is_InitializeVideoCall (snd r) <= 1)%nat
  /\ (callInitialized (refs l) = true ->
      count is_InitializeVideoCall (snd r) = 0%nat
      /\ callInitialized (refs (fst r)) = true).
Proof.
  assert (A : forall sgs l, callInitialized (refs l) = true ->
              count is_InitializeVideoCall (snd (segments sgs l)) = 0%nat
              /\ callInitialized (refs (fst (segments sgs l))) = true).
  { clear sgs l. induction sgs as [|sg sgs IH]; intros l H; [cbn; auto|].
    cbn.
    destruct (segment_marks keccak256 Num weiToCelo num_lt capped sg l)
      as (M1 & _).
    destruct (M1 H) as [M2 M3].
    destruct (CoordinatorMore.segment _ _ _ _ _ sg l) as [l1 fx1].
    cbn [fst snd] in *. fold segments.
    destruct (IH l1 M2) as [I1 I2].
    destruct (segments sgs l1) as [l2 fx2]. cbn [fst snd] in *.
    rewrite count_app, M3, I1. auto. }
  revert l. induction sgs as [|sg sgs IH]; intros l r.
  { cbn. split; [unfold count; cbn; lia|auto]. }
  split; [|apply A]. subst r. cbn.
  destruct (segment_marks keccak256 Num weiToCelo num_lt capped sg l)
    as (_ & M2 & M3).
  destruct (CoordinatorMore.segment _ _ _ _ _ sg l) as [l1 fx1].
  cbn [fst snd] in *. fold segments.
  pose proof (IH l1) as [I1 _]. pose proof (A sgs l1) as A1.
  destruct (segments sgs l1) as [l2 fx2]. cbn [fst snd] in *.
  rewrite count_app.
  destruct (Nat.eq_dec (count is_InitializeVideoCall fx1) 1%nat) as [E|E].
  - destruct (A1 (M3 E)) as [Hz _]. lia.
  - lia.
Qed.

End Component.

Lemma only_the_developer_submits_witness :
  callData (state SamplesMore.client_view) = Some Samples.session
  /\ user (state SamplesMore.client_view)
     <> Some (developerId Samples.session)
  /\ submissions
       (snd (Samples.end_triggers
               [Samples.confirmed_end; Samples.confirmed_end]
               SamplesMore.client_view)) = []
  /\ SamplesMore.onPaymentRequired
       (payment Samples.confirmed_end) (state SamplesMore.client_view)
       true false SamplesMore.client_view
     = (SamplesMore.client_view, []).
Proof.
  assert (Hd : callData (state SamplesMore.client_view)
               = Some Samples.session) by reflexivity.
  assert (Hu : user (state SamplesMore.client_view)
               <> Some (developerId Samples.session)) by discriminate.
  split; [exact Hd|]. split; [exact Hu|].
  destruct (only_the_developer_submits
              (fun _ => 9%N) N (fun w => w) N.ltb (fun p => p)
              [Samples.confirmed_end; Samples.confirmed_end]
              SamplesMore.client_view Samples.session Hd Hu) as [H1 H2].
  split; [exact H1|]. apply H2.
Defined.

Lemma payment_record_follows_the_promise_witness :
  let seen := state Samples.developer_view in
  returns_at_once seen = false
  /\ callData seen = Some Samples.session
  /\ user seen = Some (developerId Samples.session)
  /\ fst (Samples.completeCall (rpc (payment Samples.unconfirmed_end))
                               (data_callId Samples.session))
     = Rejected
         "Failed to complete call: Transaction not confirmed after 30 seconds"
  /\ existsb is_paid_update
       (snd (Samples.handleCallEnd Samples.unconfirmed_end seen
                                   Samples.developer_view)) = false
  /\ In (error_update
          "Failed to complete call: Transaction not confirmed after 30 seconds")
        (snd (Samples.handleCallEnd Samples.unconfirmed_end seen
                                    Samples.developer_view)).
Proof.
  intros seen.
  assert (Hg : returns_at_once seen = false) by reflexivity.
  assert (Hd : callData seen = Some Samples.session) by reflexivity.
  assert (Hu : user seen = Some (developerId Samples.session))
    by reflexivity.
  assert (Hc : fst (Samples.completeCall
                      (rpc (payment Samples.unconfirmed_end))
                      (data_callId Samples.session))
               = Rejected
                   "Failed to complete call: Transaction not confirmed after 30 seconds")
    by (vm_compute; reflexivity).
  split; [exact Hg|]. split; [exact Hd|]. split; [exact Hu|].
  split; [exact Hc|].
  generalize (payment_record_follows_the_promise
                (fun _ => 9%N) N (fun w => w) N.ltb (fun p => p)
                Samples.unconfirmed_end seen Samples.session
                Samples.developer_view Hg Hd Hu
                ltac:(discriminate) ltac:(discriminate) ltac:(discriminate)
                eq_refl eq_refl eq_refl).
  cbv zeta. unfold web3Service_completeCall. fold Samples.completeCall.
  fold Samples.handleCallEnd. rewrite Hc.
  intros (H1 & H3). split; [exact H1|exact (H3 eq_refl)].
Defined.

Lemma mined_transaction_is_recorded_as_paid_witness :
  let seen := state Samples.developer_view in
  let txParams := mkTx 2 80000 500000000 9 4 in
  Samples.prepare (rpc (payment SamplesMore.failed_end))
                  (data_callId Samples.session) = Returns txParams
  /\ receiptAnswer (polls (rpc (payment SamplesMore.failed_end)) 0)
     = Returns (Some (mkReceipt false 30000 12))
  /\ In (paid_update 1700001830000 77)
        (snd (Samples.handleCallEnd SamplesMore.failed_end seen
                                    Samples.developer_view))
  /\ submissions (snd (Samples.handleCallEnd SamplesMore.failed_end seen
                                             Samples.developer_view))
     = [txParams].
Proof.
  intros seen txParams.
  assert (Hp : Samples.prepare (rpc (payment SamplesMore.failed_end))
                               (data_callId Samples.session)
               = Returns txParams) by (vm_compute; reflexivity).
  split; [exact Hp|]. split; [reflexivity|].
  apply (mined_transaction_is_recorded_as_paid
           (fun _ => 9%N) N (fun w => w) N.ltb (fun p => p)
           SamplesMore.failed_end seen Samples.session
           Samples.developer_view txParams 77%N 0%nat
           (mkReceipt false 30000 12)).
  - reflexivity.
  - reflexivity.
  - reflexivity.
  - discriminate.
  - discriminate.
  - discriminate.
  - reflexivity.
  - reflexivity.
  - reflexivity.
  - reflexivity.
  - exact Hp.
  - reflexivity.
  - unfold maxAttempts. lia.
  - reflexivity.
Defined.

Lemma countdown_runs_down_witness :
  let calls := [(Samples.confirmed_end, state SamplesMore.opening_view);
                (Samples.confirmed_end, state SamplesMore.client_view);
                (Samples.confirmed_end, state SamplesMore.opening_view)] in
  let l1 := fst (startTimer 3 SamplesMore.opening_view) in
  (Z.of_nat (length calls) <= 3)%Z
  /\ SamplesMore.ticks calls l1 = (setTimeLeft 0 l1, []).
Proof.
  intros calls l1.
  assert (H : (Z.of_nat (length calls) <= 3)%Z) by (cbn; lia).
  split; [exact H|].
  exact (proj1 (countdown_runs_down
                  (fun _ => 9%N) N (fun w => w) N.ltb (fun p => p)
                  3%Z calls SamplesMore.opening_view
                  Samples.confirmed_end H)).
Defined.

Lemma video_is_initialized_once_witness :
  callInitialized (refs Samples.developer_view) = true
  /\ count is_InitializeVideoCall
       (snd (SamplesMore.segments SamplesMore.arrivals
                                  Samples.developer_view)) = 0%nat
  /\ (count is_InitializeVideoCall
        (snd (SamplesMore.segments SamplesMore.arrivals
                                   SamplesMore.opening_view)) <= 1)%nat.
Proof.
  split; [reflexivity|]. split.
  - exact (proj1 (proj2 (video_is_initialized_once
                           (fun _ => 9%N) N (fun w => w) N.ltb (fun p => p)
                           SamplesMore.arrivals Samples.developer_view)
                    eq_refl)).
  - exact (proj1 (video_is_initialized_once
                    (fun _ => 9%N) N (fun w => w) N.ltb (fun p => p)
                    SamplesMore.arrivals SamplesMore.opening_view)).
Defined.

End CoordinatorExtras.

Module LedgerTextFacts.
Import LedgerText.
Local Open Scope eval_scope.

(** A quotient and remainder by a constant, as [lia] can use them. *)
Lemma div_mod_by (v d : N) :
  d <> 0 -> exists q m, v / d = q /\ v mod d = m /\ v = d * q + m /\ m < d.
Proof.
  intros Hd. exists (v / d), (v mod d).
  split; [reflexivity|]. split; [reflexivity|].
  split; [now apply N.div_mod|now apply N.mod_lt].
Qed.

Lemma digits_of_length fuel v : (length (digits_of fuel v) <= fuel)%nat.
Proof.
  revert v. induction fuel as [|fuel IH]; intros v; cbn; [lia|].
  destruct (v =? 0); cbn; [lia|].
  rewrite List.length_app. cbn. specialize (IH (v / 10)). lia.
Qed.

Lemma div10_lt fuel v : v < 10 ^ N.of_nat (S fuel) -> v / 10 < 10 ^ N.of_nat fuel.
Proof.
  intros H. apply N.Div0.div_lt_upper_bound.
  rewrite Nat2N.inj_succ, N.pow_succ_r' in H. exact H.
Qed.

Lemma count_loop_digits fuel v d :
  v < 10 ^ N.of_nat fuel ->
  d + N.of_nat fuel < 2 ^ 256 ->
  count_loop fuel v d = Done (d + N.of_nat (length (digits_of fuel v))).
Proof.
  revert v d. induction fuel as [|fuel IH]; intros v d Hv Hd.
  - cbn in Hv. assert (v = 0) as -> by lia. cbn. now rewrite N.add_0_r.
  - cbn [count_loop digits_of].
    destruct (N.eqb_spec v 0) as [->|Hne].
    { cbn. now rewrite N.add_0_r. }
    unfold increment.
    replace (d + 1 <? 2 ^ 256) with true by (symmetry; apply N.ltb_lt; lia).
    cbn [then_]. rewrite IH by (try apply div10_lt; auto; lia).
    rewrite List.length_app. cbn [length]. f_equal. lia.
Qed.

Lemma write_loop_digits fuel v zeros post :
  v < 10 ^ N.of_nat fuel ->
  length zeros = length (digits_of fuel v) ->
  write_loop fuel v (N.of_nat (length zeros)) (zeros ++ post)
  = Done (digits_of fuel v ++ post).
Proof.
  revert v zeros post. induction fuel as [|fuel IH]; intros v zeros post Hv Hz.
  - cbn in Hv. assert (v = 0) as -> by lia. cbn in *.
    destruct zeros; [reflexivity|discriminate].
  - cbn [write_loop digits_of] in *.
    destruct (N.eqb_spec v 0) as [->|Hne].
    { destruct zeros; [reflexivity|discriminate]. }
    rewrite List.length_app in Hz. cbn [length] in Hz.
    destruct (exists_last (l := zeros)) as (zs & z & ->).
    { intros ->. cbn in Hz. lia. }
    rewrite List.length_app in *. cbn [length] in *.
    replace (N.of_nat (length zs + 1) =? 0) with false
      by (symmetry; apply N.eqb_neq; lia).
    replace (N.of_nat (length zs + 1) - 1) with (N.of_nat (length zs)) by lia.
    unfold write.
    replace (N.of_nat (length zs) <? N.of_nat (length ((zs ++ [z]) ++ post)))
      with true
      by (symmetry; apply N.ltb_lt; rewrite !List.length_app; cbn; lia).
    cbn [then_]. rewrite Nat2N.id, <- app_assoc. cbn [app].
    rewrite insert_app_r_alt by lia. rewrite Nat.sub_diag. cbn [insert].
    change (<[0%nat:=?x]> (z :: post)) with (x :: post).
    assert (Hm : v mod 10 < 10) by (apply N.mod_lt; discriminate).
    rewrite (N.mod_small (48 + v mod 10) 256)
      by (revert Hm; generalize (v mod 10); intros; lia).
    rewrite IH by (try apply div10_lt; auto; lia).
    now rewrite <- app_assoc.
Qed.

Lemma decimal_value_digits fuel v :
  v < 10 ^ N.of_nat fuel -> decimal_value (digits_of fuel v) = v.
Proof.
  unfold decimal_value. revert v.
  induction fuel as [|fuel IH]; intros v Hv.
  - cbn in *. lia.
  - cbn [digits_of]. destruct (N.eqb_spec v 0) as [->|Hne]; [reflexivity|].
    rewrite fold_left_app. cbn [fold_left].
    rewrite IH by now apply div10_lt.
    destruct (div_mod_by v 10) as (q & m & -> & -> & E & Hm); [lia|].
    clear -E Hm. lia.
Qed.

Lemma digits_are_digits fuel v :
  forallb is_digit (digits_of fuel v) = true.
Proof.
  revert v. induction fuel as [|fuel IH]; intros v; [reflexivity|].
  cbn [digits_of]. destruct (v =? 0); [reflexivity|].
  rewrite forallb_app, IH. cbn. unfold is_digit.
  destruct (div_mod_by v 10) as (q & m & _ & -> & _ & Hm); [lia|].
  replace (48 <=? 48 + m) with true by (symmetry; apply N.leb_le; lia).
  replace (48 + m <=? 57) with true by (symmetry; apply N.leb_le; lia).
  reflexivity.
Qed.

(** The most significant digit is not a zero. *)
Lemma digits_lead fuel v :
  v < 10 ^ N.of_nat fuel -> v <> 0 ->
  exists c rest, digits_of fuel v = c :: rest /\ c <> 48.
Proof.
  revert v. induction fuel as [|fuel IH]; intros v Hv Hne.
  - cbn in Hv. lia.
  - cbn [digits_of]. destruct (N.eqb_spec v 0) as [|_]; [contradiction|].
    destruct (N.eq_dec (v / 10) 0) as [E|E].
    + rewrite E. assert (D : digits_of fuel 0 = [])
        by (destruct fuel; reflexivity).
      rewrite D. cbn. exists (48 + v mod 10), []. split; [reflexivity|].
      destruct (div_mod_by v 10) as (q & m & Eq & -> & Ev & Hm); [lia|].
      rewrite Eq in E. clear -E Ev Hne. lia.
    + destruct (IH (v / 10) (div10_lt _ _ Hv) E) as (c & rest & -> & Hc).
      cbn. eauto.
Qed.

Lemma hex_char_digit n : n < 16 -> hex_digit (hex_char n) = n.
Proof.
  intros H. unfold hex_digit, hex_char.
  destruct (N.ltb_spec n 10).
  - replace (n + 48 <? 58) with true by (symmetry; apply N.ltb_lt; lia). lia.
  - replace (n + 87 <? 58) with false by (symmetry; apply N.ltb_ge; lia). lia.
Qed.

Lemma hex_char_is_hex n : n < 16 -> is_hex (hex_char n) = true.
Proof.
  intros H. unfold is_hex, is_digit, hex_char.
  destruct (N.ltb_spec n 10).
  - replace (48 <=? n + 48) with true by (symmetry; apply N.leb_le; lia).
    replace (n + 48 <=? 57) with true by (symmetry; apply N.leb_le; lia).
    reflexivity.
  - replace (97 <=? n + 87) with true by (symmetry; apply N.leb_le; lia).
    replace (n + 87 <=? 102) with true by (symmetry; apply N.leb_le; lia).
    now rewrite orb_true_r.
Qed.

Lemma toHexChar_nibble n : n < 16 -> toHexChar n = Done (hex_char n).
Proof.
  intros H. unfold toHexChar, hex_char, add8.
  destruct (n <? 10).
  - now replace (n + 48 <=? 255) with true by (symmetry; apply N.leb_le; lia).
  - now replace (n + 87 <=? 255) with true by (symmetry; apply N.leb_le; lia).
Qed.

Lemma nibbles b : b < 256 -> b / 16 < 16 /\ b mod 16 < 16 /\ b / 16 * 16 + b mod 16 = b.
Proof.
  intros H.
  destruct (div_mod_by b 16) as (q & m & -> & -> & E & Hm); [lia|]. lia.
Qed.

Lemma hex_loop_chars left i addr pre zeros :
  N.of_nat (length pre) = 2 + i * 2 ->
  length zeros = (2 * left)%nat ->
  i + N.of_nat left = 20 ->
  hex_loop left i addr (pre ++ zeros) = Done (pre ++ hex_chars left addr).
Proof.
  revert i pre zeros. induction left as [|left IH]; intros i pre zeros Hp Hz Hi.
  - destruct zeros; [reflexivity|discriminate].
  - destruct zeros as [|z1 [|z2 zeros]]; try (cbn in Hz; lia).
    cbn [hex_loop hex_chars].
    replace (19 <? i) with false by (symmetry; apply N.ltb_ge; lia).
    replace (19 - i) with (N.of_nat left) by lia.
    set (b := (addr / 2 ^ (8 * N.of_nat left)) mod 256).
    assert (Hb : b < 256) by (apply N.mod_lt; discriminate).
    destruct (nibbles b Hb) as (H1 & H2 & _).
    rewrite !toHexChar_nibble by assumption. cbn [then_].
    unfold write.
    replace (2 + i * 2 <? N.of_nat (length (pre ++ z1 :: z2 :: zeros)))
      with true
      by (symmetry; apply N.ltb_lt; rewrite List.length_app; cbn; lia).
    cbn [then_].
    replace (N.to_nat (2 + i * 2)) with (length pre) by lia.
    rewrite insert_app_r_alt by lia. rewrite Nat.sub_diag.
    change (<[0%nat:=?x]> (z1 :: ?r)) with (x :: r).
    replace (2 + i * 2 + 1 <? _) with true
      by (symmetry; apply N.ltb_lt; rewrite List.length_app; cbn; lia).
    cbn [then_].
    replace (N.to_nat (2 + i * 2 + 1)) with (S (length pre)) by lia.
    rewrite insert_app_r_alt by lia.
    replace (S (length pre) - length pre)%nat with 1%nat by lia.
    change (<[1%nat:=?x]> (?h :: z2 :: ?r)) with (h :: x :: r).
    change (pre ++ hex_char (b / 16) :: hex_char (b mod 16) :: zeros)
      with (pre ++ [hex_char (b / 16); hex_char (b mod 16)] ++ zeros).
    rewrite app_assoc.
    rewrite IH.
    + now rewrite <- app_assoc.
    + rewrite List.length_app. cbn. lia.
    + cbn in Hz. lia.
    + lia.
Qed.

Lemma hex_value_chars left addr acc :
  fold_left (fun acc c => acc * 16 + hex_digit c) (hex_chars left addr) acc
  = acc * 256 ^ N.of_nat left + addr mod 256 ^ N.of_nat left.
Proof.
  revert acc. induction left as [|left IH]; intros acc.
  - cbn. rewrite N.mod_1_r. lia.
  - cbn [hex_chars fold_left].
    set (b := (addr / 2 ^ (8 * N.of_nat left)) mod 256).
    assert (Hb : b < 256) by (apply N.mod_lt; discriminate).
    destruct (nibbles b Hb) as (H1 & H2 & H3).
    rewrite !hex_char_digit by assumption. rewrite IH.
    rewrite Nat2N.inj_succ, N.pow_succ_r'.
    rewrite (N.mul_comm 256 (256 ^ N.of_nat left)).
    rewrite N.Div0.mod_mul_r.
    replace (256 ^ N.of_nat left) with (2 ^ (8 * N.of_nat left))
      by (rewrite N.pow_mul_r; reflexivity).
    fold b. clearbody b.
    generalize (2 ^ (8 * N.of_nat left)) (addr mod 2 ^ (8 * N.of_nat left)).
    intros P r. clear -H3. nia.
Qed.

Lemma hex_chars_are_hex left addr :
  forallb is_hex (hex_chars left addr) = true.
Proof.
  induction left as [|left IH]; [reflexivity|].
  cbn [hex_chars forallb].
  set (b := (addr / 2 ^ (8 * N.of_nat left)) mod 256).
  assert (Hb : b < 256) by (apply N.mod_lt; discriminate).
  destruct (nibbles b Hb) as (H1 & H2 & _).
  now rewrite !hex_char_is_hex, IH by assumption.
Qed.

Lemma hex_chars_length left addr :
  length (hex_chars left addr) = (2 * left)%nat.
Proof. induction left as [|left IH]; cbn in *; lia. Qed.

End LedgerTextFacts.

Module LedgerTextExtras.
Import LedgerText LedgerTextFacts.

(** X17. [toString] never panics and prints an amount so that it can be
    read back: for every [uint256] it returns a non-empty string of at
    most 78 decimal digits that denotes the value, with no leading zero
    except for the value zero itself. *)
Theorem toString_reads_back value :
  value < 2 ^ 256 ->
  exists s,
    toString value = Done s
    /\ forallb is_digit s = true
    /\ decimal_value s = value
    /\ (0 < length s <= 78)%nat
    /\ (value <> 0 -> hd 0 s <> 48).
Proof.
  intros Hv. unfold toString.
  destruct (N.eqb_spec value 0) as [->|Hne].
  { exists [48]. cbn. split; [reflexivity|]. split; [reflexivity|].
    split; [reflexivity|]. split; [lia|congruence]. }
  assert (H10 : value < 10 ^ N.of_nat fuel256).
  { eapply N.lt_trans; [exact Hv|]. now apply N.ltb_lt. }
  exists (digits_of fuel256 value).
  rewrite count_loop_digits; [|exact H10|now apply N.ltb_lt].
  cbn [then_]. rewrite N.add_0_l, Nat2N.id.
  pose proof (write_loop_digits fuel256 value
                (repeat 0 (length (digits_of fuel256 value))) [] H10
                (repeat_length _ _)) as W.
  rewrite repeat_length, !app_nil_r in W.
  split; [exact W|]. split; [apply digits_are_digits|].
  split; [now apply decimal_value_digits|].
  destruct (digits_lead fuel256 value H10 Hne) as (c & rest & E & Hc).
  pose proof (digits_of_length fuel256 value) as Hl.
  rewrite E in *. cbn [length hd] in *. unfold fuel256 in Hl.
  split; [lia|]. intros _. exact Hc.
Qed.

(** X18. [toHexString] never panics and prints an address so that it can
    be read back: for every 160-bit address it returns 42 characters,
    [0x] followed by forty lower-case hexadecimal digits that denote the
    address. *)
Theorem toHexString_reads_back addr :
  addr < 2 ^ 160 ->
  exists s,
    toHexString addr = Done (48 :: 120 :: s)
    /\ length s = 40%nat
    /\ forallb is_hex s = true
    /\ hex_value s = addr.
Proof.
  intros Ha. exists (hex_chars 20 addr).
  split; [|split; [|split]].
  - unfold toHexString. cbn [write repeat length then_].
    change (hex_loop 20 0 addr ([48; 120] ++ repeat 0 40%nat)
            = Done ([48; 120] ++ hex_chars 20 addr)).
    apply hex_loop_chars; [reflexivity|now rewrite repeat_length|reflexivity].
  - apply hex_chars_length.
  - apply hex_chars_are_hex.
  - unfold hex_value. rewrite hex_value_chars.
    change (256 ^ N.of_nat 20) with (2 ^ 160).
    rewrite N.mod_small by exact Ha. lia.
Qed.

Lemma toString_reads_back_witness :
  1800 < 2 ^ 256
  /\ toString 1800 = Done [49; 56; 48; 48]
  /\ exists s, toString 1800 = Done s /\ decimal_value s = 1800.
Proof.
  assert (H : 1800 < 2 ^ 256) by now apply N.ltb_lt.
  split; [exact H|]. split; [vm_compute; reflexivity|].
  destruct (toString_reads_back 1800 H) as (s & E & _ & D & _).
  exists s. split; [exact E|exact D].
Defined.

Lemma toHexString_reads_back_witness :
  255 < 2 ^ 160
  /\ exists s, toHexString 255 = Done (48 :: 120 :: s) /\ hex_value s = 255.
Proof.
  assert (H : 255 < 2 ^ 160) by now apply N.ltb_lt.
  split; [exact H|].
  destruct (toHexString_reads_back 255 H) as (s & E & _ & _ & D).
  exists s. split; [exact E|exact D].
Defined.

End LedgerTextExtras.

Module SelectorExtras.
Import Selectors OrchestratorMore OrchestratorExtras.
Local Open Scope string_scope.

Ltac compute_selector :=
  match goal with
  | |- context [selector ?s] =>
      let v := eval vm_compute in (selector s) in
      let E := fresh "E" in
      assert (E : selector s = v) by (vm_compute; reflexivity);
      rewrite E; clear E
  end.

(** X11.  The service does not decode the contract's errors.  Of the
    eleven errors the contract declares, ten have a selector that is not
    a key of the table of [getCustomErrorName]: a revert with any of
    them, whatever its arguments, is reported as "Contract error: Unknown
    error".  The eleventh, [CallAlreadyExists], has the selector the
    table files under [CallNotFound], and is reported as "Call not found
    with the given ID".  No declared error is given its own name. *)
Theorem declared_errors_are_not_decoded e sig arguments :
  signature e = Some sig ->
  let data := revert_data sig arguments in
  getCustomErrorName data
  = Some (match e with
          | Ledger.CallAlreadyExists _ => "CallNotFound"
          | _ => "Unknown error"
          end)
  /\ reason_of_data data
     = Some (match e with
             | Ledger.CallAlreadyExists _ =>
                 "Call not found with the given ID"
             | _ => "Contract error: Unknown error"
             end)
  /\ getCustomErrorName data <> declared_name e.
Proof.
  intros H data. subst data.
  destruct e; cbn in H; try discriminate; injection H as <-.
  all: unfold revert_data, reason_of_data, getCustomErrorName;
    compute_selector; rewrite slice_selector by reflexivity;
    split; [reflexivity|split; [reflexivity|discriminate]].
Qed.

Lemma declared_errors_are_not_decoded_witness :
  signature (Ledger.Unauthorized 1 2) = Some "Unauthorized(address,address)"
  /\ selector "Unauthorized(address,address)" = "295a81c1"
  /\ reason_of_data
       (revert_data "Unauthorized(address,address)"
          "00000000000000000000000000000000000000000000000000000000000000010000000000000000000000000000000000000000000000000000000000000002")
     = Some "Contract error: Unknown error".
Proof.
  assert (H : signature (Ledger.Unauthorized 1 2)
              = Some "Unauthorized(address,address)") by reflexivity.
  split; [exact H|]. split; [vm_compute; reflexivity|].
  exact (proj1 (proj2 (declared_errors_are_not_decoded
                         (Ledger.Unauthorized 1 2) _
                         "00000000000000000000000000000000000000000000000000000000000000010000000000000000000000000000000000000000000000000000000000000002"
                         H))).
Defined.

End SelectorExtras.
